(** * Chain-state queries of rpc/blockchain.cpp

    A shallow embedding of the parts of [src/rpc/blockchain.cpp] that carry
    algorithmic content: the UTXO-set digest ([ApplyStats], [GetUTXOStats]),
    the chain-tip listing ([getchaintips]), the tip-change waiters
    ([waitforblockheight]) and the block-range statistics ([validaterange],
    [getblockindexstats], [getfeeinfo]).

    Conventions.
    - C++ [int] and [int64_t] values are integers of [Z]; arithmetic on them
      is followed by the two's-complement reduction [wrap32] / [wrap64],
      [uint32_t] and [uint64_t] arithmetic by [u32] / [u64].
    - A [std::map] is the list of its entries in ascending key order.
    - A [CHashWriter] is the sequence of values written to it with [<<];
      the bytes that reach the hash are those of the [Serializer] in use. *)

From Stdlib Require Import ZArith List Bool Lia String Permutation Sorted.
From Stdlib Require Import DecimalString.
Import ListNotations.
Local Open Scope Z_scope.

(** ** Machine integers *)

Definition u32 (z : Z) : Z := z mod 2 ^ 32.
Definition u64 (z : Z) : Z := z mod 2 ^ 64.
Definition wrap32 (z : Z) : Z := (z + 2 ^ 31) mod 2 ^ 32 - 2 ^ 31.
Definition wrap64 (z : Z) : Z := (z + 2 ^ 63) mod 2 ^ 64 - 2 ^ 63.

Definition is_int (z : Z) : Prop := - 2 ^ 31 <= z < 2 ^ 31.
Definition is_intb (z : Z) : bool := (- 2 ^ 31 <=? z) && (z <? 2 ^ 31).
Definition is_uint32 (z : Z) : Prop := 0 <= z < 2 ^ 32.

(** ** std::map with integer keys *)

Module StdMap.
Section StdMap.
Context {V : Type}.

Definition t : Type := list (Z * V).

(** [m.empty()] *)
Definition empty (m : t) : bool :=
  match m with [] => true | _ :: _ => false end.

(** [m[k] = v]: the entry is put at its place in key order, an entry with
    the same key is overwritten. *)
Fixpoint assign (k : Z) (v : V) (m : t) : t :=
  match m with
  | [] => [(k, v)]
  | (k', v') :: tl =>
      if k <? k' then (k, v) :: m
      else if k' <? k then (k', v') :: assign k v tl
      else (k, v) :: tl
  end.

(** [m.find(k)] *)
Fixpoint find (k : Z) (m : t) : option V :=
  match m with
  | [] => None
  | (k', v') :: tl =>
      if k <? k' then None
      else if k' <? k then find k tl
      else Some v'
  end.

(** [m.emplace(k, v)]: no effect when the key is present. *)
Definition emplace (k : Z) (v : V) (m : t) : t :=
  match find k m with
  | Some _ => m
  | None => assign k v m
  end.

Definition keys (m : t) : list Z := map fst m.

(** The invariant of the container: keys strictly ascending. *)
Definition ordered (m : t) : Prop := StronglySorted Z.lt (keys m).
End StdMap.
Arguments t : clear implicits.
End StdMap.

(** ** Primitive chain types *)

Definition uint256 : Type := Z.
Definition CScript : Type := list Byte.byte.
Definition CAmount : Type := Z.

Record COutPoint : Type := mkOutPoint { hash : uint256; n : Z }.

Record CTxOut : Type := mkTxOut { nValue : CAmount; scriptPubKey : CScript }.

(** ** UTXO-set digest: ApplyStats and GetUTXOStats *)

Module Digest.

(** Modelled from the spec: the declaration of [Coin] (coins.h) is missing;
    the record of an unspent output of the data model, with the integer
    height, the two flags and the output (value and script) that
    [ApplyStats] reads. The height is a machine integer of 32 bits (it is
    compared with [MEMPOOL_HEIGHT] in [gettxout]): arithmetic on it is
    reduced with [u32]. *)
Record Coin : Type := mkCoin {
  out : CTxOut;
  fCoinBase : bool;
  fCoinStake : bool;
  nHeight : Z
}.

(** What [ss << x] appends to the hash writer. *)
Inductive HashItem : Type :=
| W_uint256 (h : uint256)
| W_VARINT (v : Z)
| W_script (s : CScript).

Definition CHashWriter : Type := list HashItem.

Definition write (ss : CHashWriter) (x : HashItem) : CHashWriter := ss ++ [x].
Infix "<<" := write (at level 50, left associativity).

Record CCoinsStats : Type := mkStats {
  stats_nHeight : Z;
  hashBlock : uint256;
  nTransactions : Z;
  nTransactionOutputs : Z;
  hashSerialized : uint256;
  nDiskSize : Z;
  nTotalAmount : CAmount
}.

(** [CCoinsStats()]; the two hashes are null until they are assigned. *)
Definition CCoinsStats_init : CCoinsStats := mkStats 0 0 0 0 0 0 0.

(** [coin.nHeight * 4 + (coin.fCoinBase ? 2 : 0) + (coin.fCoinStake ? 1 : 0)],
    computed in the 32-bit type of [coin.nHeight]. *)
Definition coin_code (coin : Coin) : Z :=
  u32 (nHeight coin * 4 + (if fCoinBase coin then 2 else 0)
                        + (if fCoinStake coin then 1 else 0)).

(** Body of the loop over [outputs] in [ApplyStats]. *)
Definition ApplyStats_output (acc : CCoinsStats * CHashWriter)
    (output : Z * Coin) : CCoinsStats * CHashWriter :=
  let '(stats, ss) := acc in
  let ss := ss << W_VARINT (u32 (fst output + 1)) in
  let ss := ss << W_script (scriptPubKey (out (snd output))) in
  let ss := ss << W_VARINT (nValue (out (snd output))) in
  (mkStats (stats_nHeight stats) (hashBlock stats) (nTransactions stats)
           (u64 (nTransactionOutputs stats + 1))
           (hashSerialized stats) (nDiskSize stats)
           (wrap64 (nTotalAmount stats + nValue (out (snd output)))),
   ss).

(** [ApplyStats(stats, ss, hash, outputs)]; [None] is the failed
    [assert(!outputs.empty())]. *)
Definition ApplyStats (stats : CCoinsStats) (ss : CHashWriter)
    (hash : uint256) (outputs : StdMap.t Coin)
  : option (CCoinsStats * CHashWriter) :=
  match outputs with
  | [] => None
  | (_, coin) :: _ =>
      let ss := ss << W_uint256 hash in
      let ss := ss << W_VARINT (coin_code coin) in
      let stats := mkStats (stats_nHeight stats) (hashBlock stats)
                           (u64 (nTransactions stats + 1))
                           (nTransactionOutputs stats)
                           (hashSerialized stats) (nDiskSize stats)
                           (nTotalAmount stats) in
      let '(stats, ss) := fold_left ApplyStats_output outputs (stats, ss) in
      Some (stats, ss << W_VARINT 0)
  end.

(** A [CCoinsView] as [GetUTXOStats] uses it: the entries its cursor yields
    in order ([None] where [GetKey] or [GetValue] fails), the best block and
    the size estimate. *)
Record CCoinsView : Type := mkView {
  Cursor : list (option (COutPoint * Coin));
  GetBestBlock : uint256;
  EstimateSize : Z
}.

(** The variables the cursor loop of [GetUTXOStats] updates. *)
Record ScanState : Type := mkScan {
  prevkey : uint256;
  outputs : StdMap.t Coin;
  stats : CCoinsStats;
  ss : CHashWriter
}.

(** [if (!outputs.empty() && key.hash != prevkey) { ApplyStats(...);
    outputs.clear(); }] for a record of transaction [txid]. *)
Definition flush_if_new (txid : uint256) (st : ScanState)
  : option ScanState :=
  if negb (StdMap.empty (outputs st)) && negb (txid =? prevkey st)
  then match ApplyStats (stats st) (ss st) (prevkey st) (outputs st) with
       | Some (stats', ss') => Some (mkScan (prevkey st) [] stats' ss')
       | None => None
       end
  else Some st.

(** One pass through the body of [while (pcursor->Valid())]; [None] is
    [return error(...)]. *)
Definition GetUTXOStats_step (st : ScanState)
    (entry : option (COutPoint * Coin)) : option ScanState :=
  match entry with
  | None => None
  | Some (key, coin) =>
      match flush_if_new (hash key) st with
      | None => None
      | Some st =>
          Some (mkScan (hash key) (StdMap.assign (n key) coin (outputs st))
                       (stats st) (ss st))
      end
  end.

Fixpoint GetUTXOStats_loop (cursor : list (option (COutPoint * Coin)))
    (st : ScanState) : option ScanState :=
  match cursor with
  | [] => Some st
  | entry :: rest =>
      match GetUTXOStats_step st entry with
      | None => None
      | Some st' => GetUTXOStats_loop rest st'
      end
  end.

Section GetUTXOStats.
(** [CHashWriter::GetHash] (hash.h) and the height that [mapBlockIndex]
    records for a block hash come from outside rpc/blockchain.cpp. *)
Variable GetHash : CHashWriter -> uint256.
Variable blockHeight : uint256 -> Z.

(** [GetUTXOStats] up to, and without, [ss.GetHash()]: the statistics and
    everything that has been written to the hash writer. *)
Definition GetUTXOStats_scan (view : CCoinsView) (stats0 : CCoinsStats)
  : option (CCoinsStats * CHashWriter) :=
  let stats0 := mkStats (blockHeight (GetBestBlock view)) (GetBestBlock view)
                        (nTransactions stats0) (nTransactionOutputs stats0)
                        (hashSerialized stats0) (nDiskSize stats0)
                        (nTotalAmount stats0) in
  let ss0 := [] << W_uint256 (hashBlock stats0) in
  match GetUTXOStats_loop (Cursor view) (mkScan 0 [] stats0 ss0) with
  | None => None
  | Some st =>
      if negb (StdMap.empty (outputs st))
      then ApplyStats (stats st) (ss st) (prevkey st) (outputs st)
      else Some (stats st, ss st)
  end.

(** [GetUTXOStats(view, stats)]: [None] for [false], otherwise the
    statistics it leaves in [stats]. *)
Definition GetUTXOStats (view : CCoinsView) (stats0 : CCoinsStats)
  : option CCoinsStats :=
  match GetUTXOStats_scan view stats0 with
  | None => None
  | Some (stats, ss) =>
      Some (mkStats (stats_nHeight stats) (hashBlock stats)
                    (nTransactions stats) (nTransactionOutputs stats)
                    (GetHash ss) (EstimateSize view) (nTotalAmount stats))
  end.
End GetUTXOStats.

(** The cursor of a store whose records are given group by group: each
    group is a transaction id with its (output index, coin) records. *)
Definition group_entries (g : uint256 * list (Z * Coin))
  : list (option (COutPoint * Coin)) :=
  map (fun r => Some (mkOutPoint (fst g) (fst r), snd r)) (snd g).

Definition cursor_of (gs : list (uint256 * list (Z * Coin)))
  : list (option (COutPoint * Coin)) :=
  flat_map group_entries gs.

(** The map that [outputs[key.n] = coin] builds from the records of one
    group, taken in the order the cursor yields them. *)
Definition build_onto (recs : list (Z * Coin)) (m : StdMap.t Coin)
  : StdMap.t Coin :=
  fold_left (fun m r => StdMap.assign (fst r) (snd r) m) recs m.

Definition build (recs : list (Z * Coin)) : StdMap.t Coin := build_onto recs [].

(** The framing of one group in the stream: the transaction id, the header
    value, one triple per output and the closing zero. *)
Definition Frame : Type := uint256 * Z * list (Z * CScript * CAmount).

Definition triple_items (t : Z * CScript * CAmount) : list HashItem :=
  [W_VARINT (fst (fst t)); W_script (snd (fst t)); W_VARINT (snd t)].

Definition frame_items (f : Frame) : list HashItem :=
  W_uint256 (fst (fst f)) :: W_VARINT (snd (fst f))
    :: flat_map triple_items (snd f) ++ [W_VARINT 0].

Definition output_triple (o : Z * Coin) : Z * CScript * CAmount :=
  (u32 (fst o + 1), scriptPubKey (out (snd o)), nValue (out (snd o))).

Definition map_frame (txid : uint256) (m : StdMap.t Coin) : Frame :=
  (txid,
   match m with [] => 0 | (_, coin) :: _ => coin_code coin end,
   map output_triple m).

Definition group_frame (g : uint256 * list (Z * Coin)) : Frame :=
  map_frame (fst g) (build (snd g)).

(** What a group held in [outputs] will add to the stream when it is
    flushed. *)
Definition pending_items (st : ScanState) : list HashItem :=
  match outputs st with
  | [] => []
  | _ :: _ => frame_items (map_frame (prevkey st) (outputs st))
  end.

(** [stats] after [ntx] more transactions with [nout] outputs worth
    [amount] in total have been counted. *)
Definition count_stats (stats : CCoinsStats) (ntx nout amount : Z)
  : CCoinsStats :=
  mkStats (stats_nHeight stats) (hashBlock stats)
          (u64 (nTransactions stats + ntx))
          (u64 (nTransactionOutputs stats + nout))
          (hashSerialized stats) (nDiskSize stats)
          (wrap64 (nTotalAmount stats + amount)).

(** The sum of the amounts of some records. *)
Definition outputs_amount (m : list (Z * Coin)) : Z :=
  fold_right (fun o acc => nValue (out (snd o)) + acc) 0 m.

(** What the counters of a group held in [outputs] will be once it is
    flushed. *)
Definition pending_stats (st : ScanState) : CCoinsStats :=
  match outputs st with
  | [] => stats st
  | _ :: _ => count_stats (stats st) 1 (Z.of_nat (List.length (outputs st)))
                          (outputs_amount (outputs st))
  end.

(** [s] after the group [g] has been counted. *)
Definition count_group (s : CCoinsStats) (g : uint256 * list (Z * Coin))
  : CCoinsStats :=
  count_stats s 1 (Z.of_nat (List.length (build (snd g))))
              (outputs_amount (build (snd g))).

(** All the records of a store. *)
Definition store_records (gs : list (uint256 * list (Z * Coin)))
  : list (Z * Coin) :=
  flat_map snd gs.

(** Two coins of one transaction were created together. *)
Definition same_header (c c' : Coin) : Prop :=
  nHeight c = nHeight c' /\ fCoinBase c = fCoinBase c'
  /\ fCoinStake c = fCoinStake c'.

(** A group of an unspent-output store: at least one record, no output
    index twice, indices of 32 bits. *)
Definition group_ok (g : uint256 * list (Z * Coin)) : Prop :=
  snd g <> []
  /\ NoDup (map fst (snd g))
  /\ Forall (fun r => is_uint32 (fst r)) (snd g).

(** The store: one group per transaction id. *)
Definition utxo_set_ok (gs : list (uint256 * list (Z * Coin))) : Prop :=
  NoDup (map fst gs) /\ Forall group_ok gs.

(** The records of every group have one height and one pair of flags. *)
Definition uniform (gs : list (uint256 * list (Z * Coin))) : Prop :=
  forall g r r', In g gs -> In r (snd g) -> In r' (snd g) ->
                 same_header (snd r) (snd r').

(** [coin] is what the store holds for the outpoint [(txid, i)]. *)
Definition holds (gs : list (uint256 * list (Z * Coin)))
    (txid : uint256) (i : Z) (coin : Coin) : Prop :=
  exists recs, In (txid, recs) gs /\ In (i, coin) recs.

(** The same groups in the same order, the records of each group in any
    order. *)
Definition regrouped (gs1 gs2 : list (uint256 * list (Z * Coin))) : Prop :=
  Forall2 (fun g1 g2 => fst g1 = fst g2 /\ Permutation (snd g1) (snd g2))
          gs1 gs2.

(** *** The bytes that reach the hash *)

(** The byte encodings behind [<<] are declared in serialize.h, uint256.h
    and prevector.h, outside rpc/blockchain.cpp: they are parameters. *)
Class Serializer : Type := {
  ser_uint256 : uint256 -> list Byte.byte;
  ser_VARINT : Z -> list Byte.byte;
  ser_script : CScript -> list Byte.byte
}.

Section Bytes.
Context {enc : Serializer}.

Definition item_bytes (x : HashItem) : list Byte.byte :=
  match x with
  | W_uint256 h => ser_uint256 h
  | W_VARINT v => ser_VARINT v
  | W_script s => ser_script s
  end.

(** The bytes that the hash writer has been fed. *)
Definition stream_bytes (ss : CHashWriter) : list Byte.byte :=
  flat_map item_bytes ss.
End Bytes.

Definition is_uint256 (z : Z) : Prop := 0 <= z < 2 ^ 256.
Definition is_uint64 (z : Z) : Prop := 0 <= z < 2 ^ 64.
Definition script_size_ok (s : CScript) : Prop :=
  Z.of_nat (List.length s) < 2 ^ 32.

(** What is asked of the encodings: a value can be read back from the
    front of a stream, whatever follows it. *)
Definition decodable (enc : Serializer) : Prop :=
  (forall a b r r', is_uint256 a -> is_uint256 b ->
     ser_uint256 a ++ r = ser_uint256 b ++ r' -> a = b /\ r = r')
  /\ (forall a, ser_uint256 a <> [])
  /\ (forall a b r r', is_uint64 a -> is_uint64 b ->
        ser_VARINT a ++ r = ser_VARINT b ++ r' -> a = b /\ r = r')
  /\ (forall a b r r', script_size_ok a -> script_size_ok b ->
        ser_script a ++ r = ser_script b ++ r' -> a = b /\ r = r').

(** The fields of a record within the ranges in which [ApplyStats] computes
    without reduction: an output index below [2^32 - 1], a height below
    [2^30], an amount that is not negative, a script of 32-bit size. *)
Definition record_in_range (r : Z * Coin) : Prop :=
  0 <= fst r < 2 ^ 32 - 1
  /\ 0 <= nHeight (snd r) < 2 ^ 30
  /\ 0 <= nValue (out (snd r)) < 2 ^ 63
  /\ script_size_ok (scriptPubKey (out (snd r))).

Definition in_range (gs : list (uint256 * list (Z * Coin))) : Prop :=
  Forall (fun g => is_uint256 (fst g) /\ Forall record_in_range (snd g)) gs.

(** A triple and a frame whose values are in the domain of the encodings,
    the index plus one not being the closing zero. *)
Definition triple_ok (t : Z * CScript * CAmount) : Prop :=
  1 <= fst (fst t) < 2 ^ 64 /\ script_size_ok (snd (fst t))
  /\ is_uint64 (snd t).

Definition frame_ok (f : Frame) : Prop :=
  is_uint256 (fst (fst f)) /\ is_uint64 (snd (fst f))
  /\ Forall triple_ok (snd f).

(** The digest as the hash [H] of the bytes written. *)
Definition hash_of {enc : Serializer} (H : list Byte.byte -> uint256)
  : CHashWriter -> uint256 :=
  fun ss => H (stream_bytes ss).

(** An instance of the encodings, the one of Bitcoin's serialize.h: 32
    bytes, least significant first, for a [uint256]; for [VARINT], digits
    of 7 bits, most significant first, each but the last with the high bit
    set and one subtracted from what is left at every step; for a script,
    its size as a compact size, then its bytes. With each encoder comes
    the reader that takes a value back from the front of a stream. *)
Definition byte_of (z : Z) : Byte.byte :=
  match Byte.of_N (Z.to_N (z mod 256)) with
  | Some b => b
  | None => Byte.x00
  end.

Definition byte_val (b : Byte.byte) : Z := Z.of_N (Byte.to_N b).

Fixpoint le_bytes (n : nat) (z : Z) : list Byte.byte :=
  match n with
  | O => []
  | S n' => byte_of z :: le_bytes n' (z / 256)
  end.

Fixpoint take_le (n : nat) (bs : list Byte.byte)
  : option (Z * list Byte.byte) :=
  match n with
  | O => Some (0, bs)
  | S n' =>
      match bs with
      | [] => None
      | b :: tl =>
          match take_le n' tl with
          | Some (v, r) => Some (byte_val b + 256 * v, r)
          | None => None
          end
      end
  end.

Fixpoint varint_high (fuel : nat) (n : Z) : list Byte.byte :=
  match fuel with
  | O => []
  | S fuel' =>
      if n <=? 127 then []
      else let m := n / 128 - 1 in
           varint_high fuel' m ++ [byte_of (128 + m mod 128)]
  end.

Definition write_varint (n : Z) : list Byte.byte :=
  varint_high 9 n ++ [byte_of (n mod 128)].

Fixpoint read_varint_from (acc : Z) (bs : list Byte.byte)
  : option (Z * list Byte.byte) :=
  match bs with
  | [] => None
  | b :: tl =>
      let acc' := acc * 128 + byte_val b mod 128 in
      if 128 <=? byte_val b then read_varint_from (acc' + 1) tl
      else Some (acc', tl)
  end.

Definition write_compact_size (n : Z) : list Byte.byte :=
  if n <? 253 then [byte_of n]
  else if n <=? 65535 then byte_of 253 :: le_bytes 2 n
  else if n <=? 4294967295 then byte_of 254 :: le_bytes 4 n
  else byte_of 255 :: le_bytes 8 n.

Definition read_compact_size (bs : list Byte.byte)
  : option (Z * list Byte.byte) :=
  match bs with
  | [] => None
  | b :: tl =>
      if byte_val b <? 253 then Some (byte_val b, tl)
      else if byte_val b =? 253 then take_le 2 tl
      else if byte_val b =? 254 then take_le 4 tl
      else take_le 8 tl
  end.

Definition write_script (s : CScript) : list Byte.byte :=
  write_compact_size (Z.of_nat (List.length s)) ++ s.

Definition read_script (bs : list Byte.byte)
  : option (CScript * list Byte.byte) :=
  match read_compact_size bs with
  | Some (n, tl) => Some (firstn (Z.to_nat n) tl, skipn (Z.to_nat n) tl)
  | None => None
  end.

Definition wire : Serializer := {|
  ser_uint256 := le_bytes 32;
  ser_VARINT := write_varint;
  ser_script := write_script
|}.

(** A small store: transaction 7 with outputs 0 and 2, transaction 9 with
    output 1. *)
Definition demo_coin (v : CAmount) (h : Z) (cb : bool) : Coin :=
  mkCoin (mkTxOut v [Byte.x76; Byte.xa9]) cb false h.

Definition demo_store : list (uint256 * list (Z * Coin)) :=
  [ (7, [(0, demo_coin 50 10 true); (2, demo_coin 25 10 true)]);
    (9, [(1, demo_coin 3 12 false)]) ].

Definition demo_store_permuted : list (uint256 * list (Z * Coin)) :=
  [ (7, [(2, demo_coin 25 10 true); (0, demo_coin 50 10 true)]);
    (9, [(1, demo_coin 3 12 false)]) ].

Definition demo_store_changed : list (uint256 * list (Z * Coin)) :=
  [ (7, [(0, demo_coin 50 10 true); (2, demo_coin 26 10 true)]);
    (9, [(1, demo_coin 3 12 false)]) ].

End Digest.

(** ** The RPC layer: parameters and failures *)

Module RPC.

Inductive UniValue : Type :=
| VNULL
| VNUM (z : Z)
| VBOOL (b : bool)
| VSTR (s : string).

Inductive RPCErrorCode : Type :=
| RPC_INVALID_PARAMETER
| RPC_INTERNAL_ERROR
| RPC_DATABASE_ERROR.

(** What a handler throws. *)
Inductive Exception : Type :=
| JSONRPCError (code : RPCErrorCode) (message : string)
| runtime_error (what : string).

Record JSONRPCRequest : Type := mkRequest {
  fHelp : bool;
  params : list UniValue
}.

(** [params.size()] *)
Definition size (ps : list UniValue) : Z := Z.of_nat (List.length ps).

(** [params[i]]: the null value beyond the end of the array. *)
Definition at_ (ps : list UniValue) (i : nat) : UniValue := nth i ps VNULL.

(** [v.get_int()] *)
Definition get_int (v : UniValue) : Exception + Z :=
  match v with
  | VNUM z => if is_intb z then inr z
              else inl (runtime_error "JSON integer out of range")
  | _ => inl (runtime_error "JSON value is not an integer as expected")
  end.

(** [v.get_bool()] *)
Definition get_bool (v : UniValue) : Exception + bool :=
  match v with
  | VBOOL b => inr b
  | _ => inl (runtime_error "JSON value is not a boolean as expected")
  end.

(** [strprintf] of one [%d]. *)
Definition fmt_d (before : string) (z : Z) (after : string) : string :=
  (before ++ NilZero.string_of_int (Z.to_int z) ++ after)%string.

End RPC.

(** ** The block index and the active chain *)

Module Chain.

(** A [CBlockIndex*] is the address it holds. *)
Definition ptr : Type := Z.

(** Modelled from the spec: the declaration of [CBlockIndex] (chain.h) is
    missing; the block-index node of the data model, with the fields that
    rpc/blockchain.cpp reads: hash, parent (null at a root), height,
    validity flags and cumulative transaction count. *)
Record CBlockIndex : Type := mkIndex {
  phashBlock : uint256;
  pprev : option ptr;
  nHeight : Z;
  nStatus : Z;
  nChainTx : Z
}.

(** The chain state a handler reads under [cs_main]: what each address holds,
    the entries of [mapBlockIndex] in iteration order, and the vector of
    [chainActive]. *)
Record ChainState : Type := mkChain {
  deref : ptr -> CBlockIndex;
  mapBlockIndex : list (uint256 * ptr);
  vChain : list ptr
}.

(** The class [CChain] of [chainActive] is declared in chain.h and
    implemented in chain.cpp, outside rpc/blockchain.cpp. Its operations are
    modelled below from the specification, which gives the active chain as
    a sequence of blocks supporting [contains], [tip], [next] and
    [findFork]. *)
Section CChain.
Variable cs : ChainState.

(** Modelled from the spec: [CChain::Height] is missing; the height of the
    last block of the active-chain sequence, -1 for an empty chain. *)
Definition Height : Z := Z.of_nat (List.length (vChain cs)) - 1.

(** Modelled from the spec: [CChain::operator[]] is missing; the block of
    the active-chain sequence at a height, null outside of it. *)
Definition at_height (h : Z) : option ptr :=
  if (h <? 0) || (Z.of_nat (List.length (vChain cs)) <=? h) then None
  else nth_error (vChain cs) (Z.to_nat h).

(** Modelled from the spec: [CChain::Tip] is missing; the [tip()] of the
    active chain, its block of greatest height. *)
Definition Tip : option ptr := at_height Height.

Definition ptr_eqb (a : option ptr) (b : ptr) : bool :=
  match a with Some a => a =? b | None => false end.

(** Modelled from the spec: [CChain::Contains] is missing; the
    active-chain membership test [contains(node)]: the chain has this very
    block at the block's height. *)
Definition Contains (pindex : ptr) : bool :=
  ptr_eqb (at_height (nHeight (deref cs pindex))) pindex.

(** Modelled from the spec: [CChain::Next] is missing; [next(node)], the
    active-chain successor of a block of the chain, null for other blocks
    and for the tip. *)
Definition Next (pindex : ptr) : option ptr :=
  if Contains pindex then at_height (nHeight (deref cs pindex) + 1)
  else None.

(** Modelled from the spec: [CChain::FindFork] is missing; [findFork(node)]
    as the simple ancestor walk of the specification, that is
    [while (pindex && !Contains(pindex)) pindex = pindex->pprev], run for at
    most [fuel] steps; [None] when the walk runs off the root (a null
    result) or out of steps. *)
Fixpoint FindFork (fuel : nat) (pindex : ptr) : option ptr :=
  match fuel with
  | O => None
  | S fuel' =>
      if Contains pindex then Some pindex
      else match pprev (deref cs pindex) with
           | Some p => FindFork fuel' p
           | None => None
           end
  end.

(** The block reached from [pindex] by [k] steps along [pprev]. *)
Fixpoint ancestor (k : nat) (pindex : ptr) : option ptr :=
  match k with
  | O => Some pindex
  | S k' => match pprev (deref cs pindex) with
            | Some p => ancestor k' p
            | None => None
            end
  end.
End CChain.

End Chain.

(** ** getchaintips *)

Module ChainTips.
Import Chain.

(** The status masks and levels and [CBlockIndex::IsValid] that
    [getchaintips] uses are declared in chain.h, outside rpc/blockchain.cpp:
    they are parameters. *)
Class BlockStatus : Type := {
  BLOCK_VALID_TREE : Z;
  BLOCK_VALID_SCRIPTS : Z;
  BLOCK_FAILED_MASK : Z;
  IsValid : CBlockIndex -> Z -> bool
}.

Record ChainTip : Type := mkTip {
  height : Z;
  tip_hash : uint256;
  branchlen : Z;
  status : string
}.

Section getchaintips.
Context {BS : BlockStatus}.
Variable cs : ChainState.

(** [CompareBlocksByHeight::operator()] *)
Definition CompareBlocksByHeight (a b : ptr) : bool :=
  if negb (nHeight (deref cs a) =? nHeight (deref cs b))
  then nHeight (deref cs a) >? nHeight (deref cs b)
  else a <? b.

(** [std::set<const CBlockIndex*, CompareBlocksByHeight>]: the elements in
    the order of the comparison. *)
Definition TipSet : Type := list ptr.

(** [setTips.insert(x)] *)
Fixpoint set_insert (x : ptr) (s : TipSet) : TipSet :=
  match s with
  | [] => [x]
  | y :: tl =>
      if CompareBlocksByHeight x y then x :: s
      else if CompareBlocksByHeight y x then y :: set_insert x tl
      else s
  end.

(** [setTips.erase(x)] *)
Fixpoint set_erase (x : ptr) (s : TipSet) : TipSet :=
  match s with
  | [] => []
  | y :: tl =>
      if CompareBlocksByHeight x y then s
      else if CompareBlocksByHeight y x then y :: set_erase x tl
      else tl
  end.

(** The invariant of the set: each element sorts before the later ones. *)
Definition in_order (s : TipSet) : Prop :=
  StronglySorted (fun a b => CompareBlocksByHeight a b = true) s.

(** The two loops over [mapBlockIndex]. *)
Definition insert_all (items : list (uint256 * ptr)) (s : TipSet) : TipSet :=
  fold_left (fun s item => set_insert (snd item) s) items s.

Definition erase_parents (items : list (uint256 * ptr)) (s : TipSet)
  : TipSet :=
  fold_left (fun s item =>
               match pprev (deref cs (snd item)) with
               | Some p => set_erase p s
               | None => s
               end) items s.

(** [setTips] when the output array is constructed; [None] when the
    active chain has no tip, which the code does not expect. *)
Definition setTips : option TipSet :=
  match Tip cs with
  | None => None
  | Some tip =>
      Some (set_insert tip
              (erase_parents (mapBlockIndex cs)
                 (insert_all (mapBlockIndex cs) [])))
  end.

(** The chain of tests that sets [status]. *)
Definition tip_status (block : ptr) : string :=
  let b := deref cs block in
  if Contains cs block then "active"
  else if negb (Z.land (nStatus b) BLOCK_FAILED_MASK =? 0) then "invalid"
  else if nChainTx b =? 0 then "headers-only"
  else if IsValid b BLOCK_VALID_SCRIPTS then "valid-fork"
  else if IsValid b BLOCK_VALID_TREE then "valid-headers"
  else "unknown".

(** The object pushed for one block of [setTips]; [None] when [FindFork]
    has no block to give. *)
Definition tip_entry (fuel : nat) (block : ptr) : option ChainTip :=
  match FindFork cs fuel block with
  | None => None
  | Some fork =>
      let branchLen :=
        wrap32 (nHeight (deref cs block) - nHeight (deref cs fork)) in
      Some (mkTip (nHeight (deref cs block)) (phashBlock (deref cs block))
                  branchLen (tip_status block))
  end.

Fixpoint tip_entries (fuel : nat) (s : TipSet) : option (list ChainTip) :=
  match s with
  | [] => Some []
  | block :: tl =>
      match tip_entry fuel block, tip_entries fuel tl with
      | Some obj, Some res => Some (obj :: res)
      | _, _ => None
      end
  end.

(** [getchaintips] for a request that is not a help request and has no
    parameters. *)
Definition getchaintips (fuel : nat) : option (list ChainTip) :=
  match setTips with
  | None => None
  | Some s => tip_entries fuel s
  end.

(** The second test of the chain as the specification words it: some
    ancestor of the block, the block included, carries a failure flag. *)
Fixpoint ancestor_failed (fuel : nat) (block : ptr) : bool :=
  negb (Z.land (nStatus (deref cs block)) BLOCK_FAILED_MASK =? 0)
  || match fuel with
     | O => false
     | S fuel' => match pprev (deref cs block) with
                  | Some p => ancestor_failed fuel' p
                  | None => false
                  end
     end.

(** The status as the specification words it: the first test that holds,
    in the order given, decides. *)
Definition status_by_spec (fuel : nat) (block : ptr) : string :=
  let b := deref cs block in
  let tests :=
    [ (Contains cs block, "active"%string);
      (ancestor_failed fuel block, "invalid"%string);
      (nChainTx b =? 0, "headers-only"%string);
      (IsValid b BLOCK_VALID_SCRIPTS, "valid-fork"%string);
      (IsValid b BLOCK_VALID_TREE, "valid-headers"%string) ] in
  match List.find fst tests with
  | Some t => snd t
  | None => "unknown"%string
  end.

(** The same with the second test read on the block's own status word. *)
Definition status_by_own_flags (block : ptr) : string :=
  let b := deref cs block in
  let tests :=
    [ (Contains cs block, "active"%string);
      (negb (Z.land (nStatus b) BLOCK_FAILED_MASK =? 0), "invalid"%string);
      (nChainTx b =? 0, "headers-only"%string);
      (IsValid b BLOCK_VALID_SCRIPTS, "valid-fork"%string);
      (IsValid b BLOCK_VALID_TREE, "valid-headers"%string) ] in
  match List.find fst tests with
  | Some t => snd t
  | None => "unknown"%string
  end.

(** [fork] is the first block on the active chain that the walk from
    [block] along [pprev] meets, after [k] steps: the fork point of
    [block]. Heights decrease along [pprev], so it is the highest ancestor
    of [block] on the active chain. *)
Definition nearest_active (block : ptr) (k : nat) (fork : ptr) : Prop :=
  ancestor cs k block = Some fork
  /\ Contains cs fork = true
  /\ forall j p, (j < k)%nat -> ancestor cs j block = Some p ->
                 Contains cs p = false.

(** What [getchaintips] reports for a block whose fork point is [fork],
    with the second test of the status read on the block's own flags. *)
Definition tip_report (block fork : ptr) : ChainTip :=
  mkTip (nHeight (deref cs block)) (phashBlock (deref cs block))
        (nHeight (deref cs block) - nHeight (deref cs fork))
        (status_by_own_flags block).
End getchaintips.

(** A block of the index that no block of the index has as its [pprev]. *)
Definition is_leaf (cs : ChainState) (x : ptr) : Prop :=
  In x (map snd (mapBlockIndex cs))
  /\ forall item, In item (mapBlockIndex cs) ->
                  pprev (deref cs (snd item)) <> Some x.

(** Heights are non-negative [int]s. *)
Definition heights_ok (cs : ChainState) : Prop :=
  forall p, 0 <= nHeight (deref cs p) < 2 ^ 31.

(** A block is higher than its [pprev]. *)
Definition heights_decrease (cs : ChainState) : Prop :=
  forall p q, pprev (deref cs p) = Some q ->
              nHeight (deref cs q) < nHeight (deref cs p).

(** The constants and [IsValid] of chain.h as Bitcoin-derived chains have
    them, for running [getchaintips] on examples. *)
Definition bitcoin_status : BlockStatus := {|
  BLOCK_VALID_TREE := 2;
  BLOCK_VALID_SCRIPTS := 5;
  BLOCK_FAILED_MASK := 96;
  IsValid := fun b nUpTo =>
    if negb (Z.land (nStatus b) 96 =? 0) then false
    else nUpTo <=? Z.land (nStatus b) 7
|}.

(** A block index for examples. Active chain: 100 (genesis), 101, 102 (the
    tip). Block 103 is a child of the tip that failed validation. Block 201
    forks off 101 and failed validation; 202 is a header on top of 201 whose
    own status word carries no failure flag. *)
Definition demo_index (p : ptr) : CBlockIndex :=
  if p =? 100 then mkIndex 1000 None 0 5 1
  else if p =? 101 then mkIndex 1001 (Some 100) 1 5 2
  else if p =? 102 then mkIndex 1002 (Some 101) 2 5 3
  else if p =? 103 then mkIndex 1003 (Some 102) 3 (32 + 3) 4
  else if p =? 201 then mkIndex 2001 (Some 101) 2 (32 + 3) 3
  else mkIndex 2002 (Some 201) 3 2 0.

Definition demo_chain : ChainState :=
  mkChain demo_index
          [(1000, 100); (2002, 202); (1001, 101); (1003, 103); (2001, 201);
           (1002, 102)]
          [100; 101; 102].

End ChainTips.

(** ** Waiting for the tip: RPCNotifyBlockChange and waitforblockheight *)

Module Notifier.
Import RPC.

Record CUpdatedBlock : Type := mkUpdated { hash : uint256; height : Z }.

(** What the waiters share: [latestblock] and the answer of
    [IsRPCRunning()]. *)
Record Shared : Type := mkShared {
  latestblock : CUpdatedBlock;
  fRPCRunning : bool
}.

(** What happens while a waiter sleeps on [cond_blockchange] with the mutex
    released. *)
Inductive Event : Type :=
| BlockChange (pindex : option CUpdatedBlock)
| RPCStopped
| SpuriousWakeup
| TimedOut.

(** [RPCNotifyBlockChange(fInitialDownload, pindex)], [pindex] given by the
    hash and height it points to. *)
Definition RPCNotifyBlockChange (pindex : option CUpdatedBlock) (s : Shared)
  : Shared :=
  match pindex with
  | Some b => mkShared (mkUpdated (hash b) (height b)) (fRPCRunning s)
  | None => s
  end.

Definition after (e : Event) (s : Shared) : Shared :=
  match e with
  | BlockChange pindex => RPCNotifyBlockChange pindex s
  | RPCStopped => mkShared (latestblock s) false
  | SpuriousWakeup => s
  | TimedOut => s
  end.

(** [cond.wait(lock, pred)], that is [while (!pred()) wait(lock);]: the
    shared state at the return and the events not yet consumed, [None]
    while the events given leave the caller waiting. *)
Fixpoint cv_wait (pred : Shared -> bool) (s : Shared) (evs : list Event)
  : option (Shared * list Event) :=
  if pred s then Some (s, evs)
  else match evs with
       | [] => None
       | e :: evs' => cv_wait pred (after e s) evs'
       end.

(** [cond.wait_for(lock, duration, pred)]: as [wait], and it also returns
    when the deadline passes. *)
Fixpoint cv_wait_for (pred : Shared -> bool) (s : Shared) (evs : list Event)
  : option (Shared * list Event) :=
  if pred s then Some (s, evs)
  else match evs with
       | [] => None
       | TimedOut :: evs' => Some (s, evs')
       | e :: evs' => cv_wait_for pred (after e s) evs'
       end.

Inductive Outcome : Type :=
| Returned (block : CUpdatedBlock) (rest : list Event)
| Waiting
| Threw (e : Exception).

Definition help_waitforblockheight : string :=
  "waitforblockheight height ( timeout )".

Definition waitforblockheight (request : JSONRPCRequest) (s : Shared)
    (evs : list Event) : Outcome :=
  if fHelp request || (size (params request) <? 1)
     || (2 <? size (params request))
  then Threw (runtime_error help_waitforblockheight)
  else
    match get_int (at_ (params request) 0) with
    | inl e => Threw e
    | inr height0 =>
        match (if 1 <? size (params request)
               then get_int (at_ (params request) 1) else inr 0) with
        | inl e => Threw e
        | inr timeout =>
            let pred := fun s =>
              (height0 <=? height (latestblock s)) || negb (fRPCRunning s) in
            match (if negb (timeout =? 0) then cv_wait_for pred s evs
                   else cv_wait pred s evs) with
            | Some (s', rest) => Returned (latestblock s') rest
            | None => Waiting
            end
        end
    end.

(** A shared state for examples: the tip at height 2, the server running. *)
Definition demo_shared : Shared := mkShared (mkUpdated 1002 2) true.

(** The request [waitforblockheight height ( timeout )]. *)
Definition height_request (h : Z) (timeout : option Z) : JSONRPCRequest :=
  mkRequest false
    (VNUM h :: match timeout with Some t => [VNUM t] | None => [] end).

(** An event that leaves the tip [b] in place. *)
Definition no_tip_change (b : CUpdatedBlock) (e : Event) : Prop :=
  match e with
  | BlockChange (Some b') => b' = b
  | _ => True
  end.

(** [v.get_str()] *)
Definition get_str (v : UniValue) : Exception + string :=
  match v with
  | VSTR s => inr s
  | _ => inl (runtime_error "JSON value is not a string as expected")
  end.

Definition help_waitfornewblock : string := "waitfornewblock ( timeout )".
Definition help_waitforblock : string := "waitforblock blockhash ( timeout )".

Definition waitfornewblock (request : JSONRPCRequest) (s : Shared)
    (evs : list Event) : Outcome :=
  if fHelp request || (1 <? size (params request))
  then Threw (runtime_error help_waitfornewblock)
  else
    match (if 0 <? size (params request)
           then get_int (at_ (params request) 0) else inr 0) with
    | inl e => Threw e
    | inr timeout =>
        let block := latestblock s in
        let pred := fun s =>
          negb (height (latestblock s) =? height block)
          || negb (hash (latestblock s) =? hash block)
          || negb (fRPCRunning s) in
        match (if negb (timeout =? 0) then cv_wait_for pred s evs
               else cv_wait pred s evs) with
        | Some (s', rest) => Returned (latestblock s') rest
        | None => Waiting
        end
    end.

Section waitforblock.
(** [uint256S] (uint256.h) reads a hash from its hexadecimal text. *)
Variable uint256S : string -> uint256.

Definition waitforblock (request : JSONRPCRequest) (s : Shared)
    (evs : list Event) : Outcome :=
  if fHelp request || (size (params request) <? 1)
     || (2 <? size (params request))
  then Threw (runtime_error help_waitforblock)
  else
    match get_str (at_ (params request) 0) with
    | inl e => Threw e
    | inr str =>
        let hash0 := uint256S str in
        match (if 1 <? size (params request)
               then get_int (at_ (params request) 1) else inr 0) with
        | inl e => Threw e
        | inr timeout =>
            let pred := fun s =>
              (hash (latestblock s) =? hash0) || negb (fRPCRunning s) in
            match (if negb (timeout =? 0) then cv_wait_for pred s evs
                   else cv_wait pred s evs) with
            | Some (s', rest) => Returned (latestblock s') rest
            | None => Waiting
            end
        end
    end.
End waitforblock.

(** The requests [waitfornewblock ( timeout )] and
    [waitforblock blockhash ( timeout )]. *)
Definition newblock_request (timeout : option Z) : JSONRPCRequest :=
  mkRequest false match timeout with Some t => [VNUM t] | None => [] end.

Definition block_request (str : string) (timeout : option Z)
  : JSONRPCRequest :=
  mkRequest false
    (VSTR str :: match timeout with Some t => [VNUM t] | None => [] end).

(** A timeout that is absent or zero: the call waits without a deadline. *)
Definition no_deadline (timeout : option Z) : Prop :=
  timeout = None \/ timeout = Some 0.

End Notifier.

(** ** Block-range statistics: validaterange, getblockindexstats, getfeeinfo *)

Module RangeStats.
Import RPC Chain.

Record CTxIn : Type := mkTxIn {
  prevout : COutPoint;
  scriptSig : CScript;
  nSequence : Z
}.

Record CTransaction : Type := mkTx {
  vin : list CTxIn;
  vout : list CTxOut
}.

Record CBlock : Type := mkBlock { vtx : list CTransaction }.

(** What the handlers take from the rest of the node, all of it declared
    outside rpc/blockchain.cpp: the chain state, the block and transaction
    stores, the predicates of primitives/transaction.h and
    primitives/block.h, the serialized size, the zerocoin denominations
    (each given by its integer value) and the rate of
    [CFeeRate(nFees, nBytes).GetFeePerK()]. *)
Class Node : Type := {
  chain : ChainState;
  ReadBlockFromDisk : ptr -> option CBlock;
  GetTransaction : uint256 -> option CTransaction;
  IsCoinBase : CTransaction -> bool;
  IsCoinStake : CTransaction -> bool;
  HasZerocoinSpendInputs : CTransaction -> bool;
  HasZerocoinMintOutputs : CTransaction -> bool;
  IsZerocoinSpend : CTxIn -> bool;
  IsZerocoinPublicSpend : CTxIn -> bool;
  IsProofOfStake : CBlock -> bool;
  GetSerializeSize : CTransaction -> Z;
  zerocoinDenomList : list Z;
  IntToZerocoinDenomination : Z -> Z;
  GetFeePerK : CAmount -> Z -> CAmount
}.

(** Reads from storage, in the order they are made. *)
Inductive IOEvent : Type :=
| ReadBlock (pindex : ptr)
| ReadTx (txid : uint256).

Inductive Res (A : Type) : Type :=
| Ok (a : A)
| Throw (e : Exception)
| Undefined
| OutOfFuel.
Arguments Ok {A} a.
Arguments Throw {A} e.
Arguments Undefined {A}.
Arguments OutOfFuel {A}.

(** A handler run: from the log of the reads made so far to its result and
    the log extended by its own reads. *)
Definition M (A : Type) : Type := list IOEvent -> Res A * list IOEvent.

Definition ret {A} (a : A) : M A := fun log => (Ok a, log).
Definition throw {A} (e : Exception) : M A := fun log => (Throw e, log).
Definition undefined {A} : M A := fun log => (Undefined, log).
Definition out_of_fuel {A} : M A := fun log => (OutOfFuel, log).
Definition io (ev : IOEvent) : M unit := fun log => (Ok tt, log ++ [ev]).

Definition bind {A B} (m : M A) (k : A -> M B) : M B :=
  fun log =>
    match m log with
    | (Ok a, log') => k a log'
    | (Throw e, log') => (Throw e, log')
    | (Undefined, log') => (Undefined, log')
    | (OutOfFuel, log') => (OutOfFuel, log')
    end.

Definition lift {A} (r : Exception + A) : M A :=
  match r with inl e => throw e | inr a => ret a end.

Notation "x <- m ;; k" := (bind m (fun x => k))
  (at level 61, m at next level, right associativity).
Notation "' p <- m ;; k" := (bind m (fun x => let p := x in k))
  (at level 61, p pattern, m at next level, right associativity).

Fixpoint foldM {A B} (f : A -> B -> M A) (l : list B) (a : A) : M A :=
  match l with
  | [] => ret a
  | b :: tl => a' <- f a b ;; foldM f tl a'
  end.

(** The sums and counters of [getblockindexstats]. *)
Record Totals : Type := mkTotals {
  nFees : CAmount;
  nFees_all : CAmount;
  nBytes : Z;
  nTxCount : Z;
  nTxCount_all : Z;
  mapSpendCount : StdMap.t Z;
  mapPublicSpendCount : StdMap.t Z
}.

(** The object [getblockindexstats] returns; amounts are left as numbers,
    the two spend tables are present when [fFeeOnly] is false. *)
Record BlockIndexStats : Type := mkResult {
  Starting_block : Z;
  Ending_block : Z;
  txcount : Z;
  txcount_all : Z;
  spendcount : option (list (Z * Z));
  publicspendcount : option (list (Z * Z));
  txbytes : Z;
  ttlfee : CAmount;
  ttlfee_all : CAmount;
  feeperkb : CAmount
}.

(** [m[k]]: the value under [k], a zero being inserted when there is none. *)
Definition count_at (k : Z) (m : StdMap.t Z) : Z :=
  match StdMap.find k m with Some c => c | None => 0 end.

(** [m[k]++] *)
Definition count_incr (k : Z) (m : StdMap.t Z) : StdMap.t Z :=
  StdMap.assign k (wrap64 (count_at k m + 1)) m.

Definition help_getblockindexstats : string :=
  "getblockindexstats height range ( fFeeOnly )".
Definition help_getfeeinfo : string := "getfeeinfo blocks".

Section Handlers.
Context {node : Node}.

(** [validaterange(params, heightStart, heightEnd, minHeightStart)]: the
    two heights it leaves in its reference parameters when it returns. *)
Definition validaterange (params : list UniValue) (minHeightStart : Z)
  : Exception + (Z * Z) :=
  if size params <? 2
  then inl (JSONRPCError RPC_INVALID_PARAMETER
              "Not enough parameters in validaterange")
  else
    let nBestHeight := Height chain in
    match get_int (at_ params 0) with
    | inl e => inl e
    | inr heightStart =>
        if heightStart >? nBestHeight
        then inl (JSONRPCError RPC_INVALID_PARAMETER
                    (fmt_d "Invalid starting block (" heightStart
                           "). Out of range."))
        else
          match get_int (at_ params 1) with
          | inl e => inl e
          | inr range =>
              if range <? 1
              then inl (JSONRPCError RPC_INVALID_PARAMETER
                          "Invalid block range. Must be strictly positive.")
              else
                let heightEnd := wrap32 (wrap32 (heightStart + range) - 1) in
                let heightStart :=
                  if (heightStart <? minHeightStart)
                     && (minHeightStart <=? heightEnd)
                  then minHeightStart else heightStart in
                if heightEnd >? nBestHeight
                then inl (JSONRPCError RPC_INVALID_PARAMETER
                            (fmt_d "Invalid ending block (" heightEnd
                                   "). Out of range."))
                else inr (heightStart, heightEnd)
          end
    end.

(** Body of the loop over [tx.vin]: the running [nValueIn] and the
    totals. *)
Definition vin_step (fFeeOnly : bool) (st : CAmount * Totals) (txin : CTxIn)
  : M (CAmount * Totals) :=
  let '(nValueIn, tot) := st in
  if IsZerocoinSpend txin then
    if negb fFeeOnly then
      ret (nValueIn,
           mkTotals (nFees tot) (nFees_all tot) (nBytes tot) (nTxCount tot)
             (nTxCount_all tot)
             (count_incr (IntToZerocoinDenomination (nSequence txin))
                         (mapSpendCount tot))
             (mapPublicSpendCount tot))
    else ret st
  else if IsZerocoinPublicSpend txin then
    if negb fFeeOnly then
      ret (nValueIn,
           mkTotals (nFees tot) (nFees_all tot) (nBytes tot) (nTxCount tot)
             (nTxCount_all tot) (mapSpendCount tot)
             (count_incr (IntToZerocoinDenomination (nSequence txin))
                         (mapPublicSpendCount tot)))
    else ret st
  else
    _ <- io (ReadTx (hash (prevout txin))) ;;
    match GetTransaction (hash (prevout txin)) with
    | None => throw (JSONRPCError RPC_DATABASE_ERROR
                       "failed to read tx from disk")
    | Some txPrev =>
        match nth_error (vout txPrev) (Z.to_nat (n (prevout txin))) with
        | None => undefined
        | Some o => ret (wrap64 (nValueIn + nValue o), tot)
        end
    end.

(** An input that the loop over [tx.vin] gets past: a zerocoin spend, or an
    input whose previous output is found. *)
Definition input_resolves (txin : CTxIn) : Prop :=
  IsZerocoinSpend txin || IsZerocoinPublicSpend txin = true
  \/ exists txPrev o,
       GetTransaction (hash (prevout txin)) = Some txPrev
       /\ nth_error (vout txPrev) (Z.to_nat (n (prevout txin))) = Some o.

(** Body of the loop over [block.vtx]: [nValueIn] and [nValueOut], which
    are declared once per block, and the totals. *)
Definition tx_step (fFeeOnly : bool) (st : CAmount * CAmount * Totals)
    (tx : CTransaction) : M (CAmount * CAmount * Totals) :=
  let '(nValueIn, nValueOut, tot) := st in
  if IsCoinBase tx || (IsCoinStake tx && negb (HasZerocoinSpendInputs tx))
  then ret st
  else
    '(nValueIn, tot) <- foldM (vin_step fFeeOnly) (vin tx) (nValueIn, tot) ;;
    if HasZerocoinSpendInputs tx then ret (nValueIn, nValueOut, tot)
    else
      let nValueOut :=
        fold_left (fun acc o => wrap64 (acc + nValue o)) (vout tx)
                  nValueOut in
      let fee := wrap64 (nValueIn - nValueOut) in
      let all := wrap64 (nFees_all tot + fee) in
      if negb (HasZerocoinMintOutputs tx) then
        ret (nValueIn, nValueOut,
             mkTotals (wrap64 (nFees tot + fee)) all
                      (wrap64 (nBytes tot + GetSerializeSize tx))
                      (nTxCount tot) (nTxCount_all tot)
                      (mapSpendCount tot) (mapPublicSpendCount tot))
      else
        ret (nValueIn, nValueOut,
             mkTotals (nFees tot) all (nBytes tot)
                      (nTxCount tot) (nTxCount_all tot)
                      (mapSpendCount tot) (mapPublicSpendCount tot)).

(** What one pass of [while (true)] does with the block it has read. *)
Definition block_step (fFeeOnly : bool) (block : CBlock) (tot : Totals)
  : M Totals :=
  let ntx := wrap32 (Z.of_nat (List.length (vtx block))) in
  let all := wrap64 (nTxCount_all tot + ntx) in
  let cnt := if IsProofOfStake block
             then wrap64 (wrap64 (nTxCount tot + ntx) - 2)
             else wrap64 (wrap64 (nTxCount tot + ntx) - 1) in
  let tot := mkTotals (nFees tot) (nFees_all tot) (nBytes tot) cnt all
                      (mapSpendCount tot) (mapPublicSpendCount tot) in
  '(_, _, tot) <- foldM (tx_step fFeeOnly) (vtx block) (0, 0, tot) ;;
  ret tot.

(** [while (true)], at most [fuel] passes. *)
Fixpoint blocks_loop (fuel : nat) (fFeeOnly : bool) (heightEnd : Z)
    (pindex : option ptr) (tot : Totals) : M Totals :=
  match fuel with
  | O => out_of_fuel
  | S fuel' =>
      match pindex with
      | None => undefined
      | Some pindex =>
          _ <- io (ReadBlock pindex) ;;
          match ReadBlockFromDisk pindex with
          | None => throw (JSONRPCError RPC_DATABASE_ERROR
                             "failed to read block from disk")
          | Some block =>
              tot <- block_step fFeeOnly block tot ;;
              if nHeight (deref chain pindex) <? heightEnd
              then blocks_loop fuel' fFeeOnly heightEnd
                               (Next chain pindex) tot
              else ret tot
          end
      end
  end.

Definition denom_table (m : StdMap.t Z) : list (Z * Z) :=
  map (fun denom => (denom, count_at denom m)) zerocoinDenomList.

Definition getblockindexstats (fuel : nat) (request : JSONRPCRequest)
  : M BlockIndexStats :=
  if fHelp request || (size (params request) <? 2)
     || (3 <? size (params request))
  then throw (runtime_error help_getblockindexstats)
  else
    '(heightStart, heightEnd) <- lift (validaterange (params request) 1) ;;
    fFeeOnly <- (if 2 <? size (params request)
                 then lift (get_bool (at_ (params request) 2))
                 else ret false) ;;
    let zero := fold_left (fun m denom => StdMap.emplace denom 0 m)
                          zerocoinDenomList [] in
    match at_height chain heightStart with
    | None => throw (JSONRPCError RPC_INVALID_PARAMETER
                       "invalid block height")
    | Some pindex =>
        tot <- blocks_loop fuel fFeeOnly heightEnd (Some pindex)
                 (mkTotals 0 0 0 0 0 zero zero) ;;
        ret (mkResult heightStart heightEnd (nTxCount tot)
               (nTxCount_all tot)
               (if negb fFeeOnly
                then Some (denom_table (mapSpendCount tot)) else None)
               (if negb fFeeOnly
                then Some (denom_table (mapPublicSpendCount tot)) else None)
               (nBytes tot) (nFees tot) (nFees_all tot)
               (GetFeePerK (nFees tot) (nBytes tot)))
    end.

Definition getfeeinfo (fuel : nat) (request : JSONRPCRequest)
  : M BlockIndexStats :=
  if fHelp request || negb (size (params request) =? 1)
  then throw (runtime_error help_getfeeinfo)
  else
    nBlocks <- lift (get_int (at_ (params request) 0)) ;;
    let nBestHeight := Height chain in
    let nStartHeight := wrap32 (nBestHeight - nBlocks) in
    if (nBlocks <? 0) || (nStartHeight <=? 0)
    then throw (JSONRPCError RPC_INVALID_PARAMETER "invalid start height")
    else getblockindexstats fuel
           (mkRequest false [VNUM nStartHeight; VNUM nBlocks; VBOOL true]).
End Handlers.

(** The request [getblockindexstats height range ( fFeeOnly )]. *)
Definition range_request (start range : Z) (fFeeOnly : option bool)
  : JSONRPCRequest :=
  mkRequest false
    (VNUM start :: VNUM range
       :: match fFeeOnly with Some b => [VBOOL b] | None => [] end).

(** Two states of the totals with the same sums and transaction counts. *)
Definition same_sums (t t' : Totals) : Prop :=
  nFees t = nFees t' /\ nFees_all t = nFees_all t' /\ nBytes t = nBytes t'
  /\ nTxCount t = nTxCount t' /\ nTxCount_all t = nTxCount_all t'.

(** A node for examples, without zerocoin. The active chain has the blocks
    100 to 103 at heights 0 to 3. Block 101 is a proof-of-stake block with a
    coinbase and a coinstake. Block 102 holds, after its coinbase, [tx_a]
    (one input of 10, one output of 8) and [tx_b] (inputs of 5 and 3, one
    output of 7); block 103 holds, after its coinbase, [tx_b] alone. *)
Definition null_prevout : COutPoint := mkOutPoint 0 4294967295.

Definition coinbase_tx : CTransaction :=
  mkTx [mkTxIn null_prevout [] 4294967295] [mkTxOut 50 []].

Definition stake_tx : CTransaction :=
  mkTx [mkTxIn (mkOutPoint 13 0) [] 0]
       [mkTxOut 0 []; mkTxOut 60 [Byte.x76]].

Definition tx_a : CTransaction :=
  mkTx [mkTxIn (mkOutPoint 11 0) [] 0] [mkTxOut 8 [Byte.x76]].

Definition tx_b : CTransaction :=
  mkTx [mkTxIn (mkOutPoint 12 0) [] 0; mkTxIn (mkOutPoint 12 1) [] 0]
       [mkTxOut 7 [Byte.x76]].

Definition demo_index (p : ptr) : CBlockIndex :=
  mkIndex (1000 + p) (if p =? 100 then None else Some (p - 1)) (p - 100) 5 1.

Definition demo_chain : ChainState :=
  mkChain demo_index [(1100, 100); (1101, 101); (1102, 102); (1103, 103)]
          [100; 101; 102; 103].

Definition is_null (o : COutPoint) : bool :=
  (hash o =? 0) && (n o =? 4294967295).

Definition demo_IsCoinBase (tx : CTransaction) : bool :=
  match vin tx with
  | [txin] => is_null (prevout txin)
  | _ => false
  end.

Definition demo_IsCoinStake (tx : CTransaction) : bool :=
  match vin tx, vout tx with
  | txin :: _, o :: _ :: _ =>
      negb (is_null (prevout txin)) && (nValue o =? 0)
      && match scriptPubKey o with [] => true | _ => false end
  | _, _ => false
  end.

Definition demo_node : Node := {|
  chain := demo_chain;
  ReadBlockFromDisk := fun p =>
    if p =? 100 then Some (mkBlock [coinbase_tx])
    else if p =? 101 then Some (mkBlock [coinbase_tx; stake_tx])
    else if p =? 102 then Some (mkBlock [coinbase_tx; tx_a; tx_b])
    else if p =? 103 then Some (mkBlock [coinbase_tx; tx_b])
    else None;
  GetTransaction := fun txid =>
    if txid =? 11 then Some (mkTx [] [mkTxOut 10 []])
    else if txid =? 12 then Some (mkTx [] [mkTxOut 5 []; mkTxOut 3 []])
    else if txid =? 13 then Some (mkTx [] [mkTxOut 59 []])
    else None;
  IsCoinBase := demo_IsCoinBase;
  IsCoinStake := demo_IsCoinStake;
  HasZerocoinSpendInputs := fun _ => false;
  HasZerocoinMintOutputs := fun _ => false;
  IsZerocoinSpend := fun _ => false;
  IsZerocoinPublicSpend := fun _ => false;
  IsProofOfStake := fun block =>
    match vtx block with
    | _ :: tx :: _ => demo_IsCoinStake tx
    | _ => false
    end;
  GetSerializeSize := fun tx =>
    10 + 41 * Z.of_nat (List.length (vin tx))
       + 9 * Z.of_nat (List.length (vout tx));
  zerocoinDenomList := [1; 5; 10; 50; 100; 500; 1000; 5000];
  IntToZerocoinDenomination := fun z =>
    if existsb (Z.eqb z) [1; 5; 10; 50; 100; 500; 1000; 5000] then z else 0;
  GetFeePerK := fun fee bytes =>
    if 0 <? bytes then Z.quot (fee * 1000) bytes else 0
|}.

(** The result as a fee-only request gets it: the two spend tables are
    left out. *)
Definition without_tables (r : BlockIndexStats) : BlockIndexStats :=
  mkResult (Starting_block r) (Ending_block r) (txcount r) (txcount_all r)
           None None (txbytes r) (ttlfee r) (ttlfee_all r) (feeperkb r).

(** A run with [f] applied to what it returns. *)
Definition map_Ok {A B} (f : A -> B) (x : Res A * list IOEvent)
  : Res B * list IOEvent :=
  match x with
  | (Ok a, log) => (Ok (f a), log)
  | (Throw e, log) => (Throw e, log)
  | (Undefined, log) => (Undefined, log)
  | (OutOfFuel, log) => (OutOfFuel, log)
  end.

(** Two runs that end in the same way after the same reads, with results
    related by [R] when they return. *)
Definition alike {A} (R : A -> A -> Prop) (x y : Res A * list IOEvent)
  : Prop :=
  snd x = snd y
  /\ match fst x, fst y with
     | Ok a, Ok b => R a b
     | Throw e, Throw e' => e = e'
     | Undefined, Undefined => True
     | OutOfFuel, OutOfFuel => True
     | _, _ => False
     end.

(** A run that leaves the log as it was and appends reads that satisfy
    [P]. *)
Definition appends {A} (P : IOEvent -> Prop) (m : M A) : Prop :=
  forall log r log', m log = (r, log') ->
                     exists l, log' = log ++ l /\ Forall P l.

Definition is_tx_read (ev : IOEvent) : Prop :=
  match ev with ReadTx _ => True | ReadBlock _ => False end.

(** The blocks read, in the order of the reads. *)
Definition block_reads (l : list IOEvent) : list ptr :=
  flat_map (fun ev => match ev with
                      | ReadBlock p => [p]
                      | ReadTx _ => []
                      end) l.

(** Every block of the active chain records the height it has there. *)
Definition heights_match (cs : ChainState) : Prop :=
  forall h p, at_height cs h = Some p -> nHeight (deref cs p) = h.

(** The blocks of the active chain at the heights [s] to [e]. *)
Definition chain_range (cs : ChainState) (s e : Z) : list ptr :=
  firstn (Z.to_nat (e - s + 1)) (skipn (Z.to_nat s) (vChain cs)).

(** The value of [fFeeOnly] for a request with or without the third
    parameter. *)
Definition fee_only_flag (fFeeOnly : option bool) : bool :=
  match fFeeOnly with Some b => b | None => false end.

(** [getblockindexstats] from the lookup of the first block on: what it
    does once [validaterange] has returned [s] and [e] and the flag is
    read. *)
Definition scan_range {node : Node} (fuel : nat) (f : bool) (s e : Z)
  : M BlockIndexStats :=
  let zero := fold_left (fun m denom => StdMap.emplace denom 0 m)
                        zerocoinDenomList [] in
  match at_height chain s with
  | None => throw (JSONRPCError RPC_INVALID_PARAMETER "invalid block height")
  | Some pindex =>
      tot <- blocks_loop fuel f e (Some pindex)
               (mkTotals 0 0 0 0 0 zero zero) ;;
      ret (mkResult s e (nTxCount tot) (nTxCount_all tot)
             (if negb f then Some (denom_table (mapSpendCount tot))
              else None)
             (if negb f then Some (denom_table (mapPublicSpendCount tot))
              else None)
             (nBytes tot) (nFees tot) (nFees_all tot)
             (GetFeePerK (nFees tot) (nBytes tot)))
  end.

(** The example node with block 102 missing from disk. *)
Definition pruned_node : Node := {|
  chain := demo_chain;
  ReadBlockFromDisk := fun p =>
    if p =? 102 then None else @ReadBlockFromDisk demo_node p;
  GetTransaction := @GetTransaction demo_node;
  IsCoinBase := demo_IsCoinBase;
  IsCoinStake := demo_IsCoinStake;
  HasZerocoinSpendInputs := fun _ => false;
  HasZerocoinMintOutputs := fun _ => false;
  IsZerocoinSpend := fun _ => false;
  IsZerocoinPublicSpend := fun _ => false;
  IsProofOfStake := @IsProofOfStake demo_node;
  GetSerializeSize := @GetSerializeSize demo_node;
  zerocoinDenomList := @zerocoinDenomList demo_node;
  IntToZerocoinDenomination := @IntToZerocoinDenomination demo_node;
  GetFeePerK := @GetFeePerK demo_node
|}.

End RangeStats.

(** * Properties *)

(** ** Machine integers *)

Lemma wrap32_id z : is_int z -> wrap32 z = z.
Proof.
  unfold is_int, wrap32. intros H.
  rewrite Z.mod_small by lia. lia.
Qed.

Lemma wrap32_add_l a b : wrap32 (wrap32 a + b) = wrap32 (a + b).
Proof.
  unfold wrap32.
  replace ((a + 2 ^ 31) mod 2 ^ 32 - 2 ^ 31 + b + 2 ^ 31)
    with ((a + 2 ^ 31) mod 2 ^ 32 + b) by lia.
  rewrite Zplus_mod_idemp_l.
  replace (a + 2 ^ 31 + b) with (a + b + 2 ^ 31) by lia.
  reflexivity.
Qed.

Lemma is_intb_true z : is_intb z = true <-> is_int z.
Proof. unfold is_intb, is_int. rewrite andb_true_iff. lia. Qed.

Lemma u32_succ_inj a b :
  is_uint32 a -> is_uint32 b -> u32 (a + 1) = u32 (b + 1) -> a = b.
Proof.
  unfold is_uint32, u32. intros Ha Hb H.
  destruct (Z.eq_dec a (2 ^ 32 - 1)) as [->|Na];
    destruct (Z.eq_dec b (2 ^ 32 - 1)) as [->|Nb]; trivial.
  - rewrite (Z.mod_small (b + 1)) in H by lia.
    change ((2 ^ 32 - 1 + 1) mod 2 ^ 32) with 0 in H. lia.
  - rewrite (Z.mod_small (a + 1)) in H by lia.
    change ((2 ^ 32 - 1 + 1) mod 2 ^ 32) with 0 in H. lia.
  - rewrite !Z.mod_small in H by lia. lia.
Qed.

Lemma u32_succ_exact k : 0 <= k < 2 ^ 32 - 1 -> u32 (k + 1) = k + 1.
Proof. intros H. unfold u32. apply Z.mod_small. lia. Qed.

(** ** std::map *)

Module StdMapFacts.
Import StdMap.
Section Facts.
Context {V : Type}.
Implicit Types (m : StdMap.t V) (k : Z) (v : V).

Lemma assign_not_empty k v m : assign k v m <> [].
Proof.
  destruct m as [|[k' v'] tl]; simpl; [discriminate|].
  destruct (k <? k'); [discriminate|].
  destruct (k' <? k); discriminate.
Qed.

Lemma assign_In k v m : In (k, v) (assign k v m).
Proof.
  induction m as [|[k' v'] tl IH]; simpl; [now left|].
  destruct (k <? k'); [now left|].
  destruct (k' <? k); [right; exact IH | now left].
Qed.

Lemma assign_keeps k v m k0 v0 :
  k0 <> k -> In (k0, v0) m -> In (k0, v0) (assign k v m).
Proof.
  intros Hne. induction m as [|[k' v'] tl IH]; simpl; [tauto|].
  intros [E|Hin].
  - inversion E; subst k' v'.
    destruct (Z.ltb_spec k k0); [right; now left|].
    destruct (Z.ltb_spec k0 k); [now left | lia].
  - destruct (k <? k'); [right; now right|].
    destruct (k' <? k); [right; now apply IH | now right].
Qed.

Lemma assign_from k v m k0 v0 :
  In (k0, v0) (assign k v m) -> (k0, v0) = (k, v) \/ In (k0, v0) m.
Proof.
  induction m as [|[k' v'] tl IH]; simpl.
  - intros [E|[]]. now left.
  - destruct (k <? k'); simpl.
    + intros [E|H]; [now left | now right].
    + destruct (k' <? k); simpl.
      * intros [E|H]; [right; now left|].
        destruct (IH H) as [E|H']; [now left | right; now right].
      * intros [E|H]; [now left | right; now right].
Qed.

(** Assignments to different keys commute. *)
Lemma assign_comm k1 v1 k2 v2 m :
  k1 <> k2 ->
  assign k1 v1 (assign k2 v2 m) = assign k2 v2 (assign k1 v1 m).
Proof.
  intros Hne. induction m as [|[k' v'] tl IH]; simpl.
  - destruct (Z.ltb_spec k1 k2), (Z.ltb_spec k2 k1);
      try lia; reflexivity.
  - destruct (Z.ltb_spec k1 k'), (Z.ltb_spec k2 k'),
             (Z.ltb_spec k' k1), (Z.ltb_spec k' k2);
      try lia; simpl;
      repeat match goal with
             | |- context [?a <? ?b] => destruct (Z.ltb_spec a b); try lia
             end;
      simpl; try reflexivity; try (now rewrite IH).
Qed.

Lemma assign_lower_bound k v m lo :
  lo < k -> Forall (Z.lt lo) (keys m) -> Forall (Z.lt lo) (keys (assign k v m)).
Proof.
  intros Hlo. unfold keys. induction m as [|[k' v'] tl IH]; simpl; intros H.
  - constructor; trivial.
  - inversion H; subst.
    destruct (k <? k'); simpl; [constructor; trivial|].
    destruct (k' <? k); simpl; constructor; auto.
Qed.

(** The entries stay in ascending key order. *)
Lemma assign_ordered k v m : ordered m -> ordered (assign k v m).
Proof.
  unfold ordered, keys. induction m as [|[k' v'] tl IH]; simpl; intros H.
  - repeat constructor.
  - inversion H as [|? ? Htl Hhd]; subst.
    destruct (Z.ltb_spec k k'); simpl.
    + constructor; [exact H|].
      constructor; [trivial|].
      eapply Forall_impl; [|exact Hhd]. simpl. intros; lia.
    + destruct (Z.ltb_spec k' k); simpl.
      * constructor; [now apply IH|].
        apply (assign_lower_bound k v tl k'); trivial.
      * assert (k = k') by lia. subst k'. constructor; trivial.
Qed.
End Facts.
End StdMapFacts.

(** ** The digest *)

Module DigestFacts.
Import Digest StdMap StdMapFacts.

Lemma fold_ApplyStats_output outs stats ss :
  snd (fold_left ApplyStats_output outs (stats, ss))
  = ss ++ flat_map (fun o => triple_items (output_triple o)) outs.
Proof.
  revert stats ss. induction outs as [|o tl IH]; intros stats ss; simpl.
  - now rewrite app_nil_r.
  - rewrite IH. unfold write. rewrite <- !app_assoc. reflexivity.
Qed.

Lemma coin_code_exact h cb cs :
  0 <= h < 2 ^ 30 ->
  u32 (h * 4 + 2 * Z.b2z cb + Z.b2z cs) = h * 4 + 2 * Z.b2z cb + Z.b2z cs.
Proof.
  intros H. unfold u32. apply Z.mod_small.
  change (2 ^ 32) with (4 * 2 ^ 30). destruct cb, cs; simpl; lia.
Qed.

(** C1. Flushing a non-empty group writes to the hash writer, after what it
    already holds: the transaction id; the value
    [height*4 + 2*isCoinbase + isCoinstake] of the first record of the group;
    then for each record, in the order of the map (ascending output index),
    the index plus one, the script and the amount; and last the value 0.
    The header value is computed in the 32-bit type of the height, which is
    exact for every height below [2^30]; the index plus one is computed in
    the 32-bit key type, which is exact for every index below [2^32 - 1]. *)
Theorem ApplyStats_stream (stats : CCoinsStats) (ss : CHashWriter)
    (txid : uint256) (first : Z * Coin) (rest : StdMap.t Coin) :
  option_map snd (ApplyStats stats ss txid (first :: rest))
  = Some (ss
          ++ [W_uint256 txid;
              W_VARINT (u32 (nHeight (snd first) * 4
                             + 2 * Z.b2z (fCoinBase (snd first))
                             + Z.b2z (fCoinStake (snd first))))]
          ++ flat_map (fun o => [W_VARINT (u32 (fst o + 1));
                                 W_script (scriptPubKey (out (snd o)));
                                 W_VARINT (nValue (out (snd o)))])
                      (first :: rest)
          ++ [W_VARINT 0])
  /\ (forall h cb cs, 0 <= h < 2 ^ 30 ->
        u32 (h * 4 + 2 * Z.b2z cb + Z.b2z cs)
        = h * 4 + 2 * Z.b2z cb + Z.b2z cs)
  /\ (forall k, 0 <= k < 2 ^ 32 - 1 -> u32 (k + 1) = k + 1).
Proof.
  split; [|split; [exact coin_code_exact | exact u32_succ_exact]].
  destruct first as [k coin]. unfold ApplyStats.
  match goal with
  | |- context [fold_left ApplyStats_output ?l (?s, ?w)] =>
      pose proof (fold_ApplyStats_output l s w) as Hfold;
      destruct (fold_left ApplyStats_output l (s, w)) as [stats' ss']
  end.
  simpl in Hfold. subst ss'. simpl. unfold write, coin_code.
  f_equal. rewrite <- !app_assoc. simpl.
  do 4 f_equal.
  destruct (fCoinBase coin), (fCoinStake coin); simpl; lia.
Qed.

(** The flush of transaction 7 of the example store, from an empty hash
    writer. *)
Lemma ApplyStats_stream_witness :
  option_map snd
    (ApplyStats CCoinsStats_init [] 7
       [(0, demo_coin 50 10 true); (2, demo_coin 25 10 true)])
  = Some [W_uint256 7; W_VARINT 42;
          W_VARINT 1; W_script [Byte.x76; Byte.xa9]; W_VARINT 50;
          W_VARINT 3; W_script [Byte.x76; Byte.xa9]; W_VARINT 25;
          W_VARINT 0].
Proof.
  exact (proj1 (ApplyStats_stream CCoinsStats_init [] 7
                  (0, demo_coin 50 10 true) [(2, demo_coin 25 10 true)])).
Defined.


(** *** Records of one group in any order *)

Lemma build_onto_perm recs1 recs2 :
  Permutation recs1 recs2 -> NoDup (map fst recs1) ->
  forall m, build_onto recs1 m = build_onto recs2 m.
Proof.
  unfold build_onto.
  induction 1 as [|r l1 l2 HP IH|r1 r2 l|l1 l2 l3 HP1 IH1 HP2 IH2];
    intros ND m; simpl.
  - reflexivity.
  - apply IH. now inversion ND.
  - rewrite assign_comm; [reflexivity|].
    simpl in ND. inversion ND as [|? ? Hnotin _]; subst.
    intros E. apply Hnotin. left. congruence.
  - rewrite IH1 by assumption. apply IH2.
    eapply Permutation_NoDup; [|exact ND]. now apply Permutation_map.
Qed.

Lemma build_onto_not_empty recs m : m <> [] -> build_onto recs m <> [].
Proof.
  unfold build_onto. revert m.
  induction recs as [|r tl IH]; intros m Hm; simpl; [exact Hm|].
  apply IH. apply assign_not_empty.
Qed.

Lemma build_not_empty recs : recs <> [] -> build recs <> [].
Proof.
  destruct recs as [|r tl]; [congruence|]. intros _.
  unfold build, build_onto. simpl.
  apply (build_onto_not_empty tl). discriminate.
Qed.

Lemma build_onto_keeps recs m k v :
  ~ In k (map fst recs) -> In (k, v) m -> In (k, v) (build_onto recs m).
Proof.
  unfold build_onto. revert m.
  induction recs as [|[k0 v0] tl IH]; intros m Hk Hin; simpl; [exact Hin|].
  simpl in Hk. apply IH; [tauto|].
  apply assign_keeps; [|exact Hin]. intros E. apply Hk. left. now symmetry.
Qed.

Lemma build_onto_In recs m k v :
  NoDup (map fst recs) -> In (k, v) recs -> In (k, v) (build_onto recs m).
Proof.
  revert m. induction recs as [|[k0 v0] tl IH]; intros m ND Hin; [easy|].
  simpl in ND. inversion ND as [|? ? Hnotin ND']; subst.
  destruct Hin as [E|Hin].
  - inversion E; subst k0 v0.
    apply (build_onto_keeps tl); [exact Hnotin|]. simpl. apply assign_In.
  - apply (IH (assign k0 v0 m)); assumption.
Qed.

Lemma build_onto_from recs m k v :
  In (k, v) (build_onto recs m) -> In (k, v) recs \/ In (k, v) m.
Proof.
  unfold build_onto. revert m.
  induction recs as [|[k0 v0] tl IH]; intros m Hin; simpl in *; [now right|].
  destruct (IH _ Hin) as [H|H]; [left; now right|].
  destruct (assign_from _ _ _ _ _ H) as [E|H']; [|now right].
  left; left; now symmetry.
Qed.

Lemma build_ordered recs : ordered (build recs).
Proof.
  unfold build, build_onto.
  assert (G : forall m : StdMap.t Coin, ordered m ->
              ordered (fold_left (fun m r => assign (fst r) (snd r) m) recs m)).
  { induction recs as [|r tl IH]; intros m Hm; simpl; [exact Hm|].
    apply IH. now apply assign_ordered. }
  apply G. constructor.
Qed.

(** *** The cursor loop, group by group *)

Lemma loop_app c1 c2 st :
  GetUTXOStats_loop (c1 ++ c2) st
  = match GetUTXOStats_loop c1 st with
    | None => None
    | Some st' => GetUTXOStats_loop c2 st'
    end.
Proof.
  revert st. induction c1 as [|e tl IH]; intros st; simpl; [reflexivity|].
  destruct (GetUTXOStats_step st e); [apply IH | reflexivity].
Qed.

Lemma flush_if_new_same txid st :
  prevkey st = txid -> flush_if_new txid st = Some st.
Proof.
  intros <-. unfold flush_if_new. rewrite Z.eqb_refl.
  now rewrite andb_false_r.
Qed.

Lemma loop_same_key txid recs st :
  prevkey st = txid ->
  GetUTXOStats_loop (group_entries (txid, recs)) st
  = Some (mkScan txid (build_onto recs (outputs st)) (stats st) (ss st)).
Proof.
  unfold group_entries. simpl. revert st.
  induction recs as [|[i c] tl IH]; intros st Hk; simpl.
  - destruct st; simpl in *; now subst.
  - rewrite (flush_if_new_same txid st Hk). rewrite IH by reflexivity.
    reflexivity.
Qed.

Lemma loop_group txid recs st :
  recs <> [] ->
  GetUTXOStats_loop (group_entries (txid, recs)) st
  = match flush_if_new txid st with
    | None => None
    | Some st' =>
        Some (mkScan txid (build_onto recs (outputs st')) (stats st') (ss st'))
    end.
Proof.
  destruct recs as [|[i c] tl]; [congruence|]. intros _.
  change (group_entries (txid, (i, c) :: tl))
    with (Some (mkOutPoint txid i, c) :: group_entries (txid, tl)).
  simpl. destruct (flush_if_new txid st) as [st'|]; [|reflexivity].
  rewrite loop_same_key by reflexivity. reflexivity.
Qed.

Lemma loop_regrouped gs1 gs2 :
  regrouped gs1 gs2 ->
  Forall (fun g => NoDup (map fst (snd g))) gs1 ->
  forall st,
    GetUTXOStats_loop (cursor_of gs1) st = GetUTXOStats_loop (cursor_of gs2) st.
Proof.
  induction 1 as [|[t1 recs1] [t2 recs2] gs1 gs2 [Ht HP] HF IH];
    intros ND st; [reflexivity|].
  simpl in Ht, HP. subst t2.
  inversion ND as [|? ? ND1 ND']; subst. simpl in ND1.
  unfold cursor_of. simpl. rewrite !loop_app.
  destruct recs1 as [|r1 tl1].
  - apply Permutation_nil in HP. subst recs2. simpl. now apply IH.
  - assert (recs2 <> []) as Hne2.
    { intros ->. apply Permutation_sym, Permutation_nil in HP. discriminate. }
    rewrite !loop_group by (trivial; discriminate).
    destruct (flush_if_new t1 st) as [st'|]; [|reflexivity].
    rewrite (build_onto_perm _ _ HP ND1). now apply IH.
Qed.

(** *** The stream as a sequence of frames *)

Lemma flat_map_triples (l : list (Z * Coin)) :
  flat_map (fun o => triple_items (output_triple o)) l
  = flat_map triple_items (map output_triple l).
Proof. induction l as [|o tl IH]; simpl; [reflexivity | now rewrite IH]. Qed.

Lemma ApplyStats_frame stats ss txid (m : StdMap.t Coin) :
  m <> [] ->
  exists stats',
    ApplyStats stats ss txid m
    = Some (stats', ss ++ frame_items (map_frame txid m)).
Proof.
  destruct m as [|[k coin] tl]; [congruence|]. intros _. unfold ApplyStats.
  match goal with
  | |- context [fold_left ApplyStats_output ?l (?s, ?w)] =>
      pose proof (fold_ApplyStats_output l s w) as Hfold;
      destruct (fold_left ApplyStats_output l (s, w)) as [stats' ss']
  end.
  simpl in Hfold. subst ss'. exists stats'. f_equal. f_equal.
  unfold write, frame_items, map_frame. simpl.
  rewrite <- !app_assoc. simpl. now rewrite flat_map_triples.
Qed.

Lemma flush_if_new_fresh txid st :
  outputs st = [] \/ prevkey st <> txid ->
  exists st', flush_if_new txid st = Some st'
              /\ outputs st' = [] /\ ss st' = ss st ++ pending_items st.
Proof.
  intros H. unfold flush_if_new, pending_items.
  destruct (outputs st) as [|o tl] eqn:Eo.
  - exists st. simpl. rewrite Eo, app_nil_r. auto.
  - destruct H as [H|H]; [discriminate|].
    cbn [StdMap.empty negb andb].
    destruct (Z.eqb_spec txid (prevkey st)) as [E|_]; [congruence|].
    cbn [negb].
    destruct (ApplyStats_frame (stats st) (ss st) (prevkey st) (o :: tl))
      as [stats' ->]; [discriminate|].
    eexists. split; [reflexivity|]. simpl. auto.
Qed.

Lemma loop_frames gs :
  Forall (fun g => snd g <> []) gs -> NoDup (map fst gs) ->
  forall st,
    outputs st = [] \/ ~ In (prevkey st) (map fst gs) ->
    exists st',
      GetUTXOStats_loop (cursor_of gs) st = Some st'
      /\ ss st' ++ pending_items st'
         = ss st ++ pending_items st
           ++ flat_map frame_items (map group_frame gs).
Proof.
  induction gs as [|[txid recs] gs IH]; intros Hne ND st Hst.
  - exists st. simpl. now rewrite app_nil_r.
  - inversion Hne as [|? ? Hrecs Hne']; subst. simpl in Hrecs.
    simpl in ND. inversion ND as [|? ? Hnotin ND']; subst.
    unfold cursor_of. simpl. rewrite loop_app, loop_group by exact Hrecs.
    destruct (flush_if_new_fresh txid st) as (st1 & -> & Ho1 & Hs1).
    { destruct Hst as [H|H]; [now left|]. right. intros E. apply H.
      simpl. now left. }
    rewrite Ho1.
    match goal with
    | |- context [GetUTXOStats_loop _ ?s] => destruct (IH Hne' ND' s) as (st' & Hl & Hs)
    end.
    { right. exact Hnotin. }
    exists st'. split; [exact Hl|]. rewrite Hs. simpl. rewrite Hs1.
    change (build_onto recs []) with (build recs).
    set (p := pending_items st). unfold pending_items. simpl.
    unfold group_frame. simpl.
    destruct (build recs) as [|o tl] eqn:Eb.
    { exfalso. now apply (build_not_empty recs). }
    unfold frame_items, map_frame. simpl. rewrite <- !app_assoc. reflexivity.
Qed.

Lemma scan_stream (blockHeight : uint256 -> Z) best size stats0 gs :
  Forall (fun g => snd g <> []) gs -> NoDup (map fst gs) ->
  exists stats',
    GetUTXOStats_scan blockHeight (mkView (cursor_of gs) best size) stats0
    = Some (stats',
            W_uint256 best :: flat_map frame_items (map group_frame gs)).
Proof.
  intros Hne ND. unfold GetUTXOStats_scan. simpl.
  match goal with
  | |- context [GetUTXOStats_loop _ ?s] =>
      destruct (loop_frames gs Hne ND s) as (st' & -> & Hs)
  end.
  { now left. }
  simpl in Hs. unfold pending_items in Hs.
  destruct (outputs st') as [|o tl] eqn:Eo; cbn [StdMap.empty negb].
  - exists (stats st'). rewrite app_nil_r in Hs. now rewrite Hs.
  - destruct (ApplyStats_frame (stats st') (ss st') (prevkey st') (o :: tl))
      as [stats' ->]; [discriminate|].
    exists stats'. now rewrite Hs.
Qed.

(** *** The example encodings can be read back *)

Lemma byte_val_of z : 0 <= z < 256 -> byte_val (byte_of z) = z.
Proof.
  intros H. unfold byte_val, byte_of. rewrite Z.mod_small by exact H.
  destruct (Byte.of_N (Z.to_N z)) as [b|] eqn:E.
  - rewrite (Byte.to_of_N _ E). lia.
  - apply Byte.of_N_None_iff in E. lia.
Qed.

Lemma byte_val_of_mod z : byte_val (byte_of z) = z mod 256.
Proof.
  unfold byte_val, byte_of.
  pose proof (Z.mod_pos_bound z 256 ltac:(lia)) as Hm.
  destruct (Byte.of_N (Z.to_N (z mod 256))) as [b|] eqn:E.
  - rewrite (Byte.to_of_N _ E). lia.
  - apply Byte.of_N_None_iff in E. lia.
Qed.

Lemma take_le_bytes n : forall z r,
  0 <= z < 256 ^ Z.of_nat n -> take_le n (le_bytes n z ++ r) = Some (z, r).
Proof.
  induction n as [|n IH]; intros z r H.
  - simpl in *. f_equal. f_equal. lia.
  - cbn [le_bytes take_le app].
    rewrite Nat2Z.inj_succ, Z.pow_succ_r in H by lia.
    rewrite IH by (split; [apply Z.div_pos; lia
                          | apply Z.div_lt_upper_bound; lia]).
    rewrite byte_val_of_mod. f_equal. f_equal.
    pose proof (Z.div_mod z 256 ltac:(lia)). lia.
Qed.

(** An encoding with a reader is free of prefixes. *)
Lemma read_inj {A} (write : A -> list Byte.byte)
    (read : list Byte.byte -> option (A * list Byte.byte))
    (dom : A -> Prop) :
  (forall a r, dom a -> read (write a ++ r) = Some (a, r)) ->
  forall a b r r', dom a -> dom b ->
    write a ++ r = write b ++ r' -> a = b /\ r = r'.
Proof.
  intros Hread a b r r' Ha Hb E.
  pose proof (Hread a r Ha) as Ea. rewrite E, (Hread b r' Hb) in Ea.
  inversion Ea. auto.
Qed.

Lemma read_varint_high f : forall n t,
  0 <= n < 128 ^ (Z.of_nat f + 1) ->
  read_varint_from 0 (varint_high f n ++ t) = read_varint_from (n / 128) t.
Proof.
  induction f as [|f IH]; intros n t H.
  - simpl in H. cbn [varint_high app]. now rewrite Z.div_small by lia.
  - cbn [varint_high]. destruct (Z.leb_spec n 127) as [Hs|Hl].
    + cbn [app]. now rewrite Z.div_small by lia.
    + cbv zeta. rewrite <- app_assoc. cbn [app].
      rewrite Nat2Z.inj_succ in H.
      replace (Z.succ (Z.of_nat f) + 1) with (Z.succ (Z.of_nat f + 1)) in H
        by lia.
      rewrite Z.pow_succ_r in H by lia.
      assert (Hq : 1 <= n / 128 < 128 ^ (Z.of_nat f + 1)).
      { split; [apply Z.div_le_lower_bound; lia
               | apply Z.div_lt_upper_bound; lia]. }
      rewrite IH by lia. cbn [read_varint_from].
      pose proof (Z.mod_pos_bound (n / 128 - 1) 128 ltac:(lia)) as Hm.
      rewrite byte_val_of by lia.
      destruct (Z.leb_spec 128 (128 + (n / 128 - 1) mod 128)); [|lia].
      f_equal.
      replace ((128 + (n / 128 - 1) mod 128) mod 128)
        with ((n / 128 - 1) mod 128).
      2:{ replace (128 + (n / 128 - 1) mod 128)
            with ((n / 128 - 1) mod 128 + 1 * 128) by lia.
          rewrite Z.mod_add by lia. symmetry. apply Z.mod_small. lia. }
      pose proof (Z.div_mod (n / 128 - 1) 128 ltac:(lia)). lia.
Qed.

Lemma read_write_varint n r :
  is_uint64 n -> read_varint_from 0 (write_varint n ++ r) = Some (n, r).
Proof.
  unfold is_uint64, write_varint. intros H. rewrite <- app_assoc.
  rewrite read_varint_high
    by (change (128 ^ (Z.of_nat 9 + 1)) with (2 ^ 70);
        assert (2 ^ 64 < 2 ^ 70) by reflexivity; lia).
  cbn [app read_varint_from].
  pose proof (Z.mod_pos_bound n 128 ltac:(lia)) as Hm.
  rewrite byte_val_of by lia.
  destruct (Z.leb_spec 128 (n mod 128)); [lia|].
  rewrite Z.mod_mod by lia.
  pose proof (Z.div_mod n 128 ltac:(lia)). f_equal. f_equal. lia.
Qed.

Lemma read_write_compact_size n r :
  is_uint64 n -> read_compact_size (write_compact_size n ++ r) = Some (n, r).
Proof.
  unfold is_uint64, write_compact_size, read_compact_size. intros H.
  destruct (Z.ltb_spec n 253).
  { cbn [app]. rewrite byte_val_of by lia.
    destruct (Z.ltb_spec n 253); [reflexivity | lia]. }
  destruct (Z.leb_spec n 65535).
  { cbn [app le_bytes]. rewrite byte_val_of by lia. cbn.
    apply (take_le_bytes 2). change (256 ^ Z.of_nat 2) with 65536. lia. }
  destruct (Z.leb_spec n 4294967295).
  { cbn [app le_bytes]. rewrite byte_val_of by lia. cbn.
    apply (take_le_bytes 4). change (256 ^ Z.of_nat 4) with 4294967296. lia. }
  cbn [app le_bytes]. rewrite byte_val_of by lia. cbn.
  apply (take_le_bytes 8). change (256 ^ Z.of_nat 8) with (2 ^ 64). lia.
Qed.

Lemma read_write_script s r :
  script_size_ok s -> read_script (write_script s ++ r) = Some (s, r).
Proof.
  unfold script_size_ok, write_script, read_script. intros H.
  rewrite <- app_assoc.
  rewrite read_write_compact_size
    by (unfold is_uint64; assert (2 ^ 32 < 2 ^ 64) by reflexivity; lia).
  rewrite Nat2Z.id.
  rewrite firstn_app, firstn_all, skipn_app, skipn_all, Nat.sub_diag.
  cbn. now rewrite app_nil_r.
Qed.

Lemma wire_decodable : decodable wire.
Proof.
  split; [|split; [|split]].
  - apply (read_inj (le_bytes 32) (take_le 32) is_uint256).
    intros a r Ha. apply take_le_bytes.
    change (256 ^ Z.of_nat 32) with (2 ^ 256). exact Ha.
  - intros a. discriminate.
  - apply (read_inj write_varint (read_varint_from 0) is_uint64).
    intros a r. apply read_write_varint.
  - apply (read_inj write_script read_script script_size_ok).
    intros a r. apply read_write_script.
Qed.

(** *** The framing can be read back from the bytes *)

Section Framing.
Context {enc : Serializer}.
Hypothesis Hdec : decodable enc.

Lemma stream_bytes_app (a b : CHashWriter) :
  stream_bytes (a ++ b) = stream_bytes a ++ stream_bytes b.
Proof. apply flat_map_app. Qed.

Lemma VARINT_front a b r r' :
  is_uint64 a -> is_uint64 b ->
  ser_VARINT a ++ r = ser_VARINT b ++ r' -> a = b /\ r = r'.
Proof. destruct Hdec as (_ & _ & H & _). apply H. Qed.

Lemma zero_is_uint64 : is_uint64 0.
Proof. unfold is_uint64. split; [lia | reflexivity]. Qed.

Lemma triple_bytes t (rest : list (Z * CScript * CAmount)) :
  stream_bytes (flat_map triple_items (t :: rest))
  = ser_VARINT (fst (fst t)) ++ ser_script (snd (fst t))
    ++ ser_VARINT (snd t) ++ stream_bytes (flat_map triple_items rest).
Proof. reflexivity. Qed.

(** The triples of a group end where the closing zero stands: no triple
    starts with a zero. *)
Lemma body_bytes_inj o1 : forall o2 r1 r2,
  Forall triple_ok o1 -> Forall triple_ok o2 ->
  stream_bytes (flat_map triple_items o1) ++ ser_VARINT 0 ++ r1
  = stream_bytes (flat_map triple_items o2) ++ ser_VARINT 0 ++ r2 ->
  o1 = o2 /\ r1 = r2.
Proof.
  destruct Hdec as (_ & _ & HV & HS).
  induction o1 as [|[[k s] v] o1 IH];
    intros [|[[k' s'] v'] o2] r1 r2 H1 H2 E.
  - change (stream_bytes (flat_map triple_items [])) with (@nil Byte.byte)
      in E.
    cbn [app] in E. apply app_inv_head in E. auto.
  - exfalso. inversion H2 as [|? ? (Hk & _ & _) _]; subst. cbn in Hk.
    change (stream_bytes (flat_map triple_items [])) with (@nil Byte.byte)
      in E.
    rewrite triple_bytes in E. cbn [app fst snd] in E.
    rewrite <- !app_assoc in E.
    apply HV in E;
      [destruct E; lia | exact zero_is_uint64 | unfold is_uint64; lia].
  - exfalso. inversion H1 as [|? ? (Hk & _ & _) _]; subst. cbn in Hk.
    change (stream_bytes (flat_map triple_items [])) with (@nil Byte.byte)
      in E.
    rewrite triple_bytes in E. cbn [app fst snd] in E.
    rewrite <- !app_assoc in E.
    apply HV in E;
      [destruct E; lia | unfold is_uint64; lia | exact zero_is_uint64].
  - inversion H1 as [|? ? (Hk & Hs & Hv) H1']; subst.
    inversion H2 as [|? ? (Hk' & Hs' & Hv') H2']; subst.
    cbn in Hk, Hs, Hv, Hk', Hs', Hv'.
    rewrite !triple_bytes in E. cbn [fst snd] in E.
    rewrite <- !app_assoc in E.
    apply HV in E; [|unfold is_uint64; lia|unfold is_uint64; lia].
    destruct E as [-> E].
    apply HS in E; [|assumption|assumption]. destruct E as [-> E].
    apply HV in E; [|assumption|assumption]. destruct E as [-> E].
    destruct (IH o2 r1 r2 H1' H2' E) as [-> ->]. auto.
Qed.

Lemma frame_bytes (f : Frame) (rest : CHashWriter) :
  stream_bytes (frame_items f ++ rest)
  = ser_uint256 (fst (fst f)) ++ ser_VARINT (snd (fst f))
    ++ stream_bytes (flat_map triple_items (snd f))
    ++ ser_VARINT 0 ++ stream_bytes rest.
Proof.
  unfold frame_items.
  change (stream_bytes
            ((W_uint256 (fst (fst f)) :: W_VARINT (snd (fst f))
                :: flat_map triple_items (snd f) ++ [W_VARINT 0]) ++ rest))
    with (ser_uint256 (fst (fst f)) ++ ser_VARINT (snd (fst f))
          ++ stream_bytes
               ((flat_map triple_items (snd f) ++ [W_VARINT 0]) ++ rest)).
  rewrite <- app_assoc, stream_bytes_app. reflexivity.
Qed.

Lemma frames_bytes_inj fs1 : forall fs2,
  Forall frame_ok fs1 -> Forall frame_ok fs2 ->
  stream_bytes (flat_map frame_items fs1)
  = stream_bytes (flat_map frame_items fs2) ->
  fs1 = fs2.
Proof.
  pose proof Hdec as (HU & HN & HV & _).
  induction fs1 as [|[[t1 c1] o1] fs1 IH];
    intros [|[[t2 c2] o2] fs2] F1 F2 E.
  - reflexivity.
  - exfalso. cbn [flat_map] in E. rewrite frame_bytes in E. cbn in E.
    symmetry in E. apply app_eq_nil in E. destruct E as [E _].
    exact (HN _ E).
  - exfalso. cbn [flat_map] in E. rewrite frame_bytes in E. cbn in E.
    apply app_eq_nil in E. destruct E as [E _]. exact (HN _ E).
  - inversion F1 as [|? ? (Ht1 & Hc1 & Ho1) F1']; subst.
    inversion F2 as [|? ? (Ht2 & Hc2 & Ho2) F2']; subst.
    cbn in Ht1, Hc1, Ho1, Ht2, Hc2, Ho2.
    cbn [flat_map] in E. rewrite !frame_bytes in E. cbn [fst snd] in E.
    apply HU in E; [|assumption|assumption]. destruct E as [-> E].
    apply HV in E; [|assumption|assumption]. destruct E as [-> E].
    apply body_bytes_inj in E; [|assumption|assumption].
    destruct E as [-> E]. now rewrite (IH fs2 F1' F2' E).
Qed.
End Framing.

Lemma coin_code_inj c c' :
  0 <= nHeight c < 2 ^ 30 -> 0 <= nHeight c' < 2 ^ 30 ->
  coin_code c = coin_code c' -> same_header c c'.
Proof.
  unfold coin_code, same_header, u32. intros H H'.
  rewrite !Z.mod_small
    by (change (2 ^ 32) with (4 * 2 ^ 30);
        destruct (fCoinBase c), (fCoinStake c), (fCoinBase c'),
          (fCoinStake c'); lia).
  destruct (fCoinBase c), (fCoinBase c'), (fCoinStake c), (fCoinStake c');
    intros E; repeat split; trivial; lia.
Qed.

Lemma NoDup_fst_unique {A B} (l : list (A * B)) a b b' :
  NoDup (map fst l) -> In (a, b) l -> In (a, b') l -> b = b'.
Proof.
  induction l as [|[a0 b0] tl IH]; simpl; intros ND H H'; [easy|].
  inversion ND as [|? ? Hnotin ND']; subst.
  destruct H as [E|H], H' as [E'|H'].
  - congruence.
  - inversion E; subst. exfalso. apply Hnotin.
    change a with (fst (a, b')). now apply in_map.
  - inversion E'; subst. exfalso. apply Hnotin.
    change a with (fst (a, b)). now apply in_map.
  - now apply IH.
Qed.

(** Equal streams: the group of a transaction has the same frame in both
    stores. *)
Lemma frames_same_group gs1 gs2 txid recs1 recs2 :
  NoDup (map fst gs2) ->
  map group_frame gs1 = map group_frame gs2 ->
  In (txid, recs1) gs1 -> In (txid, recs2) gs2 ->
  group_frame (txid, recs1) = group_frame (txid, recs2).
Proof.
  intros ND2 E Hg1 Hg2.
  assert (Hin : In (group_frame (txid, recs1)) (map group_frame gs2)).
  { rewrite <- E. now apply in_map. }
  apply in_map_iff in Hin. destruct Hin as ([t2 recs2'] & EF & Hin).
  assert (t2 = txid) by (unfold group_frame, map_frame in EF; simpl in EF;
                         congruence).
  subst t2.
  assert (recs2' = recs2)
    by exact (NoDup_fst_unique gs2 txid recs2' recs2 ND2 Hin Hg2).
  subst recs2'. now symmetry.
Qed.

(** Equal frames: equal value and script at every output of both groups. *)
Lemma frame_out_agree txid recs1 recs2 i c1 c2 :
  group_ok (txid, recs1) -> group_ok (txid, recs2) ->
  group_frame (txid, recs1) = group_frame (txid, recs2) ->
  In (i, c1) recs1 -> In (i, c2) recs2 ->
  out c1 = out c2.
Proof.
  intros (Hne1 & NDr1 & U1) (Hne2 & NDr2 & U2) EF Hr1 Hr2.
  simpl in *. rewrite Forall_forall in U1, U2.
  unfold group_frame, map_frame in EF. simpl in EF.
  inversion EF as [[Ecode Etriples]]. clear EF.
  assert (Hb1 : In (i, c1) (build recs1)) by now apply build_onto_In.
  assert (Ht : In (output_triple (i, c1)) (map output_triple (build recs2))).
  { rewrite <- Etriples. now apply in_map. }
  apply in_map_iff in Ht. destruct Ht as ([i' c'] & Et & Hb2).
  assert (Hr2' : In (i', c') recs2).
  { destruct (build_onto_from _ _ _ _ Hb2) as [H|[]]. exact H. }
  unfold output_triple in Et. simpl in Et. inversion Et as [[Ei Es Ev]].
  assert (i' = i).
  { apply u32_succ_inj; trivial.
    - exact (U2 _ Hr2').
    - exact (U1 _ Hr1). }
  subst i'.
  assert (c' = c2) by exact (NoDup_fst_unique recs2 i c' c2 NDr2 Hr2' Hr2).
  subst c'.
  destruct (out c1), (out c2). simpl in *. congruence.
Qed.

(** The record whose header is written is the lowest one of the group. *)
Lemma build_head recs k h tl :
  build recs = (k, h) :: tl ->
  In (k, h) recs /\ forall r, NoDup (map fst recs) -> In r recs -> k <= fst r.
Proof.
  intros E. split.
  - destruct (build_onto_from recs [] k h) as [H|[]]; trivial.
    fold (build recs). rewrite E. now left.
  - intros [j c] ND Hr. simpl.
    pose proof (build_ordered recs) as Ho. rewrite E in Ho.
    unfold ordered, keys in Ho. simpl in Ho.
    inversion Ho as [|? ? _ Hall]; subst.
    assert (Hb : In (j, c) (build recs)) by now apply build_onto_In.
    rewrite E in Hb. destruct Hb as [Eq|Hb]; [inversion Eq; lia|].
    rewrite Forall_forall in Hall.
    assert (k < j); [|lia].
    apply Hall. change j with (fst (j, c)). now apply in_map.
Qed.

(** Equal frames: equal height and flags at every output of a group whose
    records share them. *)
Lemma frame_header_agree gs1 gs2 txid recs1 recs2 i c1 c2 :
  group_ok (txid, recs1) -> group_ok (txid, recs2) ->
  Forall record_in_range recs1 -> Forall record_in_range recs2 ->
  In (txid, recs1) gs1 -> In (txid, recs2) gs2 ->
  group_frame (txid, recs1) = group_frame (txid, recs2) ->
  In (i, c1) recs1 -> In (i, c2) recs2 ->
  uniform gs1 -> uniform gs2 ->
  same_header c1 c2.
Proof.
  intros (Hne1 & NDr1 & U1) (Hne2 & NDr2 & U2) R1 R2 Hg1 Hg2 EF Hr1 Hr2
         Un1 Un2.
  simpl in *. rewrite Forall_forall in R1, R2.
  unfold group_frame, map_frame in EF. simpl in EF.
  pose proof (build_not_empty recs1 Hne1) as B1.
  pose proof (build_not_empty recs2 Hne2) as B2.
  destruct (build recs1) as [|[k1 h1] t1] eqn:E1; [congruence|].
  destruct (build recs2) as [|[k2 h2] t2] eqn:E2; [congruence|].
  assert (Ecode : coin_code h1 = coin_code h2) by congruence. clear EF.
  destruct (build_head _ _ _ _ E1) as [I1 _].
  destruct (build_head _ _ _ _ E2) as [I2 _].
  pose proof (Un1 _ _ _ Hg1 Hr1 I1) as (a1 & a2 & a3).
  pose proof (Un2 _ _ _ Hg2 I2 Hr2) as (b1 & b2 & b3).
  cbn [snd] in a1, a2, a3, b1, b2, b3.
  destruct (R1 _ I1) as (_ & Hh1 & _). destruct (R2 _ I2) as (_ & Hh2 & _).
  cbn [snd] in Hh1, Hh2.
  destruct (coin_code_inj _ _ Hh1 Hh2 Ecode) as (d1 & d2 & d3).
  unfold same_header. repeat split; congruence.
Qed.

(** The frame of a group whose fields are in range is in the domain of the
    encodings. *)
Lemma group_frame_ok g :
  is_uint256 (fst g) -> Forall record_in_range (snd g) ->
  frame_ok (group_frame g).
Proof.
  destruct g as [txid recs]. cbn [fst snd]. intros Ht HR.
  rewrite Forall_forall in HR.
  assert (Hb : forall r, In r (build recs) -> record_in_range r).
  { intros [k c] Hin. apply HR.
    destruct (build_onto_from recs [] k c Hin) as [H|[]]. exact H. }
  unfold frame_ok, group_frame, map_frame. cbn [fst snd].
  split; [exact Ht|]. split.
  - destruct (build recs) as [|[k c] tl]; [exact zero_is_uint64|].
    unfold coin_code, u32, is_uint64.
    match goal with
    | |- 0 <= ?x mod _ < _ =>
        pose proof (Z.mod_pos_bound x (2 ^ 32) ltac:(lia))
    end.
    assert (2 ^ 32 < 2 ^ 64) by reflexivity. lia.
  - apply Forall_forall. intros t Ht'. apply in_map_iff in Ht'.
    destruct Ht' as ([k c] & <- & Hin).
    destruct (Hb _ Hin) as (Hk & _ & Hv & Hs). cbn [fst snd] in Hk, Hv, Hs.
    unfold triple_ok, output_triple, is_uint64. cbn [fst snd].
    rewrite u32_succ_exact by exact Hk.
    assert (2 ^ 32 < 2 ^ 64) by reflexivity.
    assert (2 ^ 63 < 2 ^ 64) by reflexivity.
    split; [lia|]. split; [exact Hs | lia].
Qed.

Lemma in_range_frames gs :
  in_range gs -> Forall frame_ok (map group_frame gs).
Proof.
  unfold in_range. intros H. apply Forall_map.
  eapply Forall_impl; [|exact H]. intros g [Ht HR].
  now apply group_frame_ok.
Qed.

Lemma GetUTXOStats_regrouped GetHash blockHeight best size stats0 gs1 gs2 :
  regrouped gs1 gs2 ->
  Forall (fun g => NoDup (map fst (snd g))) gs1 ->
  GetUTXOStats GetHash blockHeight (mkView (cursor_of gs1) best size) stats0
  = GetUTXOStats GetHash blockHeight (mkView (cursor_of gs2) best size) stats0.
Proof.
  intros HR ND. unfold GetUTXOStats, GetUTXOStats_scan. simpl.
  now rewrite (loop_regrouped gs1 gs2 HR ND).
Qed.

Lemma utxo_set_ok_parts gs :
  utxo_set_ok gs ->
  Forall (fun g => snd g <> []) gs
  /\ Forall (fun g => NoDup (map fst (snd g))) gs
  /\ NoDup (map fst gs).
Proof.
  intros [ND OK]. repeat split; trivial.
  - eapply Forall_impl; [|exact OK]. now intros g (H & _).
  - eapply Forall_impl; [|exact OK]. now intros g (_ & H & _).
Qed.

(** C6. Over two unspent-output stores (one group per transaction id,
    distinct output indices): when the cursors yield the same groups in the
    same order and the records of each group in any order, [GetUTXOStats]
    succeeds on both with the same statistics, serialized hash included.
    And when, in two stores whose groups each have one height and one pair
    of flags and whose fields are in range, one outpoint holds coins that
    differ in value, script, height, coinbase flag or coinstake flag, the
    bytes fed to the hash differ; the serialized hash being the hash of
    these bytes, the two digests differ unless the hash function takes the
    two streams to one value. The encodings are assumed to be readable from
    the front of a stream. *)
Theorem digest_regrouping_and_content {enc : Serializer}
    (GetHash : CHashWriter -> uint256) (H : list Byte.byte -> uint256)
    (blockHeight : uint256 -> Z)
    (best : uint256) (size : Z) (stats0 : CCoinsStats)
    (gs1 gs2 : list (uint256 * list (Z * Coin))) :
  decodable enc ->
  utxo_set_ok gs1 -> utxo_set_ok gs2 ->
  (regrouped gs1 gs2 ->
   exists stats,
     GetUTXOStats GetHash blockHeight (mkView (cursor_of gs1) best size) stats0
     = Some stats
     /\ GetUTXOStats GetHash blockHeight (mkView (cursor_of gs2) best size)
          stats0
        = Some stats)
  /\ (uniform gs1 -> uniform gs2 -> in_range gs1 -> in_range gs2 ->
      forall txid i c1 c2,
        holds gs1 txid i c1 -> holds gs2 txid i c2 ->
        nValue (out c1) <> nValue (out c2)
        \/ scriptPubKey (out c1) <> scriptPubKey (out c2)
        \/ nHeight c1 <> nHeight c2
        \/ fCoinBase c1 <> fCoinBase c2
        \/ fCoinStake c1 <> fCoinStake c2 ->
        exists st1 ss1 st2 ss2,
          GetUTXOStats_scan blockHeight (mkView (cursor_of gs1) best size)
            stats0 = Some (st1, ss1)
          /\ GetUTXOStats_scan blockHeight (mkView (cursor_of gs2) best size)
               stats0 = Some (st2, ss2)
          /\ stream_bytes ss1 <> stream_bytes ss2
          /\ option_map hashSerialized
               (GetUTXOStats (hash_of H) blockHeight
                  (mkView (cursor_of gs1) best size) stats0)
             = Some (H (stream_bytes ss1))
          /\ option_map hashSerialized
               (GetUTXOStats (hash_of H) blockHeight
                  (mkView (cursor_of gs2) best size) stats0)
             = Some (H (stream_bytes ss2))).
Proof.
  intros Hdec OK1 OK2.
  destruct (utxo_set_ok_parts gs1 OK1) as (Hne1 & NDr1 & ND1).
  destruct (utxo_set_ok_parts gs2 OK2) as (Hne2 & NDr2 & ND2).
  destruct (scan_stream blockHeight best size stats0 gs1 Hne1 ND1)
    as [st1 E1].
  destruct (scan_stream blockHeight best size stats0 gs2 Hne2 ND2)
    as [st2 E2].
  split.
  - intros HR.
    rewrite <- (GetUTXOStats_regrouped GetHash blockHeight best size stats0
                  gs1 gs2 HR NDr1).
    unfold GetUTXOStats. rewrite E1. eexists. split; reflexivity.
  - intros Un1 Un2 R1 R2 txid i c1 c2 (recs1 & Hg1 & Hr1) (recs2 & Hg2 & Hr2)
           Hdiff.
    do 4 eexists. split; [exact E1|]. split; [exact E2|].
    split; [|split; [unfold GetUTXOStats; rewrite E1; reflexivity
                    |unfold GetUTXOStats; rewrite E2; reflexivity]].
    intros E.
    change (W_uint256 best :: flat_map frame_items (map group_frame gs1))
      with ([W_uint256 best] ++ flat_map frame_items (map group_frame gs1))
      in E.
    change (W_uint256 best :: flat_map frame_items (map group_frame gs2))
      with ([W_uint256 best] ++ flat_map frame_items (map group_frame gs2))
      in E.
    rewrite !stream_bytes_app in E. apply app_inv_head in E.
    apply (frames_bytes_inj Hdec) in E;
      [|now apply in_range_frames|now apply in_range_frames].
    pose proof (frames_same_group gs1 gs2 txid recs1 recs2 ND2 E Hg1 Hg2)
      as EG.
    destruct OK1 as [_ OK1], OK2 as [_ OK2].
    unfold in_range in R1, R2. rewrite Forall_forall in OK1, OK2, R1, R2.
    pose proof (OK1 _ Hg1) as G1. pose proof (OK2 _ Hg2) as G2.
    destruct (R1 _ Hg1) as [_ RR1]. destruct (R2 _ Hg2) as [_ RR2].
    cbn [snd] in RR1, RR2.
    pose proof (frame_out_agree txid recs1 recs2 i c1 c2 G1 G2 EG Hr1 Hr2)
      as Eo.
    destruct (frame_header_agree gs1 gs2 txid recs1 recs2 i c1 c2
                G1 G2 RR1 RR2 Hg1 Hg2 EG Hr1 Hr2 Un1 Un2) as (a & b & c).
    rewrite Eo in Hdiff. tauto.
Qed.

Ltac in_cases H :=
  simpl in H;
  repeat match type of H with
         | _ \/ _ => destruct H as [H|H]
         | False => destruct H
         end.

Ltac group_is_ok :=
  split; [simpl; discriminate|];
  split; [simpl; repeat constructor; simpl; intuition discriminate|];
  simpl; repeat constructor; unfold is_uint32; simpl; lia.

Ltac store_ok :=
  split;
  [ simpl; repeat constructor; simpl; intuition discriminate
  | repeat (apply Forall_cons; [group_is_ok|]); apply Forall_nil ].

Lemma demo_store_ok : utxo_set_ok demo_store.
Proof. store_ok. Qed.

Lemma demo_store_permuted_ok : utxo_set_ok demo_store_permuted.
Proof. store_ok. Qed.

Lemma demo_store_changed_ok : utxo_set_ok demo_store_changed.
Proof. store_ok. Qed.

Lemma demo_store_regrouped : regrouped demo_store demo_store_permuted.
Proof.
  repeat constructor; simpl.
Qed.

Ltac records_in_range :=
  repeat (apply Forall_cons;
          [split; [cbn; lia|];
           split; [cbn; lia|];
           split; [cbn; lia | unfold script_size_ok; cbn; lia]|]);
  apply Forall_nil.

Ltac store_in_range :=
  unfold in_range;
  repeat (apply Forall_cons;
          [split; [unfold is_uint256; cbn; lia | records_in_range]|]);
  apply Forall_nil.

Ltac store_uniform :=
  let g := fresh "g" in
  let r := fresh "r" in
  let r' := fresh "r" in
  let Hg := fresh "Hg" in
  let Hr := fresh "Hr" in
  let Hr' := fresh "Hr" in
  intros g r r' Hg Hr Hr'; in_cases Hg; subst g;
  in_cases Hr; subst r; in_cases Hr'; subst r'; repeat split.

Lemma demo_store_uniform : uniform demo_store.
Proof. store_uniform. Qed.

Lemma demo_store_changed_uniform : uniform demo_store_changed.
Proof. store_uniform. Qed.

Lemma demo_store_in_range : in_range demo_store.
Proof. store_in_range. Qed.

Lemma demo_store_changed_in_range : in_range demo_store_changed.
Proof. store_in_range. Qed.

(** The theorem at work, with the example encodings: the permuted store
    has the digest of the original one, and changing the value of output 2
    of transaction 7 from 25 to 26 changes the bytes fed to the hash. *)
Lemma digest_regrouping_and_content_witness :
  decodable wire
  /\ utxo_set_ok demo_store /\ utxo_set_ok demo_store_permuted
  /\ utxo_set_ok demo_store_changed
  /\ regrouped demo_store demo_store_permuted
  /\ uniform demo_store /\ uniform demo_store_changed
  /\ in_range demo_store /\ in_range demo_store_changed
  /\ (exists stats,
        GetUTXOStats (fun _ => 0) (fun _ => 100)
          (mkView (cursor_of demo_store) 1 0) CCoinsStats_init = Some stats
        /\ GetUTXOStats (fun _ => 0) (fun _ => 100)
             (mkView (cursor_of demo_store_permuted) 1 0) CCoinsStats_init
           = Some stats)
  /\ (exists st1 ss1 st2 ss2,
        GetUTXOStats_scan (fun _ => 100) (mkView (cursor_of demo_store) 1 0)
          CCoinsStats_init = Some (st1, ss1)
        /\ GetUTXOStats_scan (fun _ => 100)
             (mkView (cursor_of demo_store_changed) 1 0) CCoinsStats_init
           = Some (st2, ss2)
        /\ @stream_bytes wire ss1 <> @stream_bytes wire ss2
        /\ option_map hashSerialized
             (GetUTXOStats (@hash_of wire (fun _ => 0)) (fun _ => 100)
                (mkView (cursor_of demo_store) 1 0) CCoinsStats_init)
           = Some 0
        /\ option_map hashSerialized
             (GetUTXOStats (@hash_of wire (fun _ => 0)) (fun _ => 100)
                (mkView (cursor_of demo_store_changed) 1 0) CCoinsStats_init)
           = Some 0).
Proof.
  split; [exact wire_decodable|].
  split; [exact demo_store_ok|].
  split; [exact demo_store_permuted_ok|].
  split; [exact demo_store_changed_ok|].
  split; [exact demo_store_regrouped|].
  split; [exact demo_store_uniform|].
  split; [exact demo_store_changed_uniform|].
  split; [exact demo_store_in_range|].
  split; [exact demo_store_changed_in_range|].
  split.
  - exact (proj1 (@digest_regrouping_and_content wire (fun _ => 0)
                    (fun _ => 0) (fun _ => 100)
                    1 0 CCoinsStats_init demo_store demo_store_permuted
                    wire_decodable demo_store_ok demo_store_permuted_ok)
                 demo_store_regrouped).
  - apply (proj2 (@digest_regrouping_and_content wire (fun _ => 0)
                    (fun _ => 0) (fun _ => 100)
                    1 0 CCoinsStats_init demo_store demo_store_changed
                    wire_decodable demo_store_ok demo_store_changed_ok)
                 demo_store_uniform demo_store_changed_uniform
                 demo_store_in_range demo_store_changed_in_range
                 7 2 (demo_coin 25 10 true) (demo_coin 26 10 true)).
    + eexists. split; [left; reflexivity|]. right; left; reflexivity.
    + eexists. split; [left; reflexivity|]. right; left; reflexivity.
    + left. simpl. lia.
Defined.

End DigestFacts.

(** ** The chain tips *)

Module ChainTipsFacts.
Import Chain ChainTips.

Section Facts.
Context {BS : BlockStatus}.
Variable cs : ChainState.

Local Abbreviation cmp := (CompareBlocksByHeight cs).
Local Abbreviation before := (fun a b => cmp a b = true).

(** *** The comparison orders the blocks strictly and totally *)

Lemma cmp_irrefl a : cmp a a = false.
Proof.
  unfold CompareBlocksByHeight. rewrite Z.eqb_refl. simpl. apply Z.ltb_irrefl.
Qed.

Lemma cmp_trans a b c : cmp a b = true -> cmp b c = true -> cmp a c = true.
Proof.
  unfold CompareBlocksByHeight.
  destruct (Z.eqb_spec (nHeight (deref cs a)) (nHeight (deref cs b)));
    destruct (Z.eqb_spec (nHeight (deref cs b)) (nHeight (deref cs c)));
    destruct (Z.eqb_spec (nHeight (deref cs a)) (nHeight (deref cs c)));
    simpl; rewrite ?Z.gtb_ltb, ?Z.ltb_lt; lia.
Qed.

Lemma cmp_total a b : cmp a b = false -> cmp b a = false -> a = b.
Proof.
  unfold CompareBlocksByHeight.
  destruct (Z.eqb_spec (nHeight (deref cs a)) (nHeight (deref cs b)));
    destruct (Z.eqb_spec (nHeight (deref cs b)) (nHeight (deref cs a)));
    simpl; rewrite ?Z.gtb_ltb, ?Z.ltb_ge; lia.
Qed.

(** *** The set keeps its elements in order, each once *)

Lemma set_insert_from x s z : In z (set_insert cs x s) -> z = x \/ In z s.
Proof.
  induction s as [|y tl IH]; simpl.
  - intros [E|[]]. now left.
  - destruct (cmp x y).
    + intros [E|H]; [now left | now right].
    + destruct (cmp y x); [|now right].
      intros [E|H]; [right; now left|].
      destruct (IH H); [now left | right; now right].
Qed.

Lemma set_insert_In x s : In x (set_insert cs x s).
Proof.
  induction s as [|y tl IH]; simpl; [now left|].
  destruct (cmp x y) eqn:Exy; [now left|].
  destruct (cmp y x) eqn:Eyx; [right; exact IH|].
  left. symmetry. now apply cmp_total.
Qed.

Lemma set_insert_in_order x s : in_order cs s -> in_order cs (set_insert cs x s).
Proof.
  unfold in_order. induction s as [|y tl IH]; simpl; intros H.
  - repeat constructor.
  - inversion H as [|? ? Htl Hall]; subst.
    destruct (cmp x y) eqn:Exy.
    + constructor; [exact H|]. constructor; [exact Exy|].
      eapply Forall_impl; [|exact Hall]. simpl. intros z Hz.
      now apply (cmp_trans x y z).
    + destruct (cmp y x) eqn:Eyx; [|exact H].
      constructor; [now apply IH|].
      rewrite Forall_forall in *. intros z Hz.
      destruct (set_insert_from _ _ _ Hz) as [->|Hz']; auto.
Qed.

Lemma set_erase_from x s z : In z (set_erase cs x s) -> In z s.
Proof.
  induction s as [|y tl IH]; simpl; [tauto|].
  destruct (cmp x y); [tauto|].
  destruct (cmp y x); [|tauto].
  intros [E|H]; [now left | right; now apply IH].
Qed.

Lemma set_erase_in_order x s : in_order cs s -> in_order cs (set_erase cs x s).
Proof.
  unfold in_order. induction s as [|y tl IH]; simpl; intros H; [exact H|].
  inversion H as [|? ? Htl Hall]; subst.
  destruct (cmp x y); [exact H|].
  destruct (cmp y x); [|exact Htl].
  constructor; [now apply IH|].
  rewrite Forall_forall in *. intros z Hz. apply Hall.
  now apply (set_erase_from x).
Qed.

Lemma insert_all_in_order items s :
  in_order cs s -> in_order cs (insert_all cs items s).
Proof.
  unfold insert_all. revert s.
  induction items as [|item tl IH]; intros s H; simpl; [exact H|].
  apply IH. now apply set_insert_in_order.
Qed.

Lemma erase_parents_in_order items s :
  in_order cs s -> in_order cs (erase_parents cs items s).
Proof.
  unfold erase_parents. revert s.
  induction items as [|item tl IH]; intros s H; simpl; [exact H|].
  apply IH. destruct (pprev (deref cs (snd item))); [|exact H].
  now apply set_erase_in_order.
Qed.

Lemma in_order_NoDup s : in_order cs s -> NoDup s.
Proof.
  unfold in_order. induction 1 as [|y tl Htl IH Hall]; constructor; trivial.
  intros Hin. rewrite Forall_forall in Hall.
  pose proof (Hall _ Hin) as E. simpl in E. rewrite cmp_irrefl in E.
  discriminate.
Qed.

(** *** The fork point and the entry of a block *)

Lemma FindFork_nearest k : forall block fork fuel,
  nearest_active cs block k fork -> (k < fuel)%nat ->
  FindFork cs fuel block = Some fork.
Proof.
  induction k as [|k IH]; intros block fork fuel (Ha & Hc & Hn) Hf;
    (destruct fuel as [|fuel]; [lia|]); simpl in *.
  - inversion Ha; subst. now rewrite Hc.
  - rewrite (Hn O block) by (trivial; lia).
    pose proof (fun j => Hn (S j)) as Hn'. simpl in Hn'.
    destruct (pprev (deref cs block)) as [p|]; [|discriminate].
    apply IH; [|lia]. repeat split; trivial.
    intros j q Hj Hq. apply (Hn' j q); [lia | exact Hq].
Qed.

Lemma tip_status_own_flags block :
  tip_status cs block = status_by_own_flags cs block.
Proof.
  unfold tip_status, status_by_own_flags. simpl.
  destruct (Contains cs block); [reflexivity|]. simpl.
  destruct (Z.land (nStatus (deref cs block)) BLOCK_FAILED_MASK =? 0);
    [|reflexivity]. simpl.
  destruct (nChainTx (deref cs block) =? 0); [reflexivity|]. simpl.
  destruct (IsValid (deref cs block) BLOCK_VALID_SCRIPTS); [reflexivity|].
  simpl.
  destruct (IsValid (deref cs block) BLOCK_VALID_TREE); reflexivity.
Qed.

Lemma tip_entry_report block k fork fuel :
  nearest_active cs block k fork -> (k < fuel)%nat ->
  is_int (nHeight (deref cs block) - nHeight (deref cs fork)) ->
  tip_entry cs fuel block = Some (tip_report cs block fork).
Proof.
  intros Hn Hf Hi. unfold tip_entry, tip_report.
  rewrite (FindFork_nearest k block fork fuel Hn Hf).
  now rewrite wrap32_id, tip_status_own_flags.
Qed.

(** Heights decreasing along [pprev], no active ancestor of a block is
    higher than its fork point. *)
Lemma ancestor_add j k block p :
  ancestor cs k block = Some p ->
  ancestor cs (k + j) block = ancestor cs j p.
Proof.
  revert block. induction k as [|k IH]; intros block H; simpl in *.
  - now inversion H.
  - destruct (pprev (deref cs block)); [now apply IH | discriminate].
Qed.

Lemma ancestor_height j : forall block a,
  (forall p q, pprev (deref cs p) = Some q ->
               nHeight (deref cs q) < nHeight (deref cs p)) ->
  ancestor cs j block = Some a ->
  nHeight (deref cs a) <= nHeight (deref cs block).
Proof.
  induction j as [|j IH]; intros block a Hdec H; simpl in H.
  - inversion H. lia.
  - destruct (pprev (deref cs block)) as [q|] eqn:E; [|discriminate].
    pose proof (Hdec _ _ E). pose proof (IH q a Hdec H). lia.
Qed.

Lemma nearest_active_highest block k fork j a :
  (forall p q, pprev (deref cs p) = Some q ->
               nHeight (deref cs q) < nHeight (deref cs p)) ->
  nearest_active cs block k fork ->
  ancestor cs j block = Some a -> Contains cs a = true ->
  nHeight (deref cs a) <= nHeight (deref cs fork).
Proof.
  intros Hdec (Ha & Hc & Hn) Hj Hca.
  destruct (Nat.lt_ge_cases j k) as [Hlt|Hge].
  - rewrite (Hn j a Hlt Hj) in Hca. discriminate.
  - replace j with (k + (j - k))%nat in Hj by lia.
    rewrite (ancestor_add (j - k) k block fork Ha) in Hj.
    now apply (ancestor_height (j - k) fork a).
Qed.

Lemma tip_entries_pointwise fuel s : forall res,
  tip_entries cs fuel s = Some res ->
  Forall2 (fun block obj => tip_entry cs fuel block = Some obj) s res.
Proof.
  induction s as [|block tl IH]; intros res H; simpl in H.
  - inversion H. constructor.
  - destruct (tip_entry cs fuel block) as [obj|] eqn:E; [|discriminate].
    destruct (tip_entries cs fuel tl) as [res'|]; [|discriminate].
    inversion H; subst. constructor; auto.
Qed.

Lemma setTips_in_order s : setTips cs = Some s -> in_order cs s.
Proof.
  unfold setTips. destruct (Tip cs) as [tip|]; [|discriminate].
  intros H. inversion H; subst.
  apply set_insert_in_order, erase_parents_in_order, insert_all_in_order.
  constructor.
Qed.

(** With its fork point within [fuel] steps for every block of the set,
    the loop over [setTips] produces one entry per block. *)
Lemma tip_entries_exist fuel (s : TipSet) :
  (forall block, In block s ->
     exists k fork,
       (k < fuel)%nat /\ nearest_active cs block k fork
       /\ is_int (nHeight (deref cs block) - nHeight (deref cs fork))) ->
  exists res,
    tip_entries cs fuel s = Some res
    /\ Forall2 (fun block obj =>
                  tip_entry cs fuel block = Some obj
                  /\ height obj = nHeight (deref cs block)
                  /\ tip_hash obj = phashBlock (deref cs block))
               s res.
Proof.
  induction s as [|block tl IH]; intros Hall; simpl.
  - exists []. split; [reflexivity | constructor].
  - destruct (Hall block (or_introl eq_refl)) as (k & fork & Hk & Hn & Hi).
    pose proof (tip_entry_report block k fork fuel Hn Hk Hi) as Ete.
    rewrite Ete.
    destruct IH as (res & -> & HF).
    { intros b Hb. apply Hall. now right. }
    eexists. split; [reflexivity|]. constructor; [|exact HF].
    split; [exact Ete|]. split; reflexivity.
Qed.

(** Entries are told apart by their hash: the entries with the hash of
    [tip] are as many as the occurrences of [tip] among the blocks. *)
Lemma entries_with_hash tip (s : TipSet) (res : list ChainTip) :
  Forall2 (fun block obj => tip_hash obj = phashBlock (deref cs block))
          s res ->
  (forall block, In block s ->
     phashBlock (deref cs block) = phashBlock (deref cs tip) ->
     block = tip) ->
  List.length (filter (fun obj => tip_hash obj =? phashBlock (deref cs tip))
                      res)
  = count_occ Z.eq_dec s tip.
Proof.
  induction 1 as [|block obj tl res' Hbo _ IH]; intros Hinj; [reflexivity|].
  cbn [filter count_occ]. rewrite Hbo.
  assert (IH' : List.length
                  (filter (fun obj => tip_hash obj
                                      =? phashBlock (deref cs tip)) res')
                = count_occ Z.eq_dec tl tip).
  { apply IH. intros b Hb. apply Hinj. now right. }
  destruct (Z.eqb_spec (phashBlock (deref cs block))
                       (phashBlock (deref cs tip))) as [E|NE].
  - rewrite (Hinj block (or_introl eq_refl) E).
    destruct (Z.eq_dec tip tip) as [_|N]; [|congruence].
    cbn [List.length]. now rewrite IH'.
  - destruct (Z.eq_dec block tip) as [->|_]; [congruence | exact IH'].
Qed.

(** C5. Whatever else the block index holds, [getchaintips] returns an
    array in which the tip of the active chain appears exactly once, also
    when blocks of the index have it as their [pprev]: the set of reported
    blocks holds the tip once, the array has one entry per block of the
    set, in order, with the height and the hash of its block, and one
    entry of the array has the hash of the tip. The array is returned when
    every reported block has its fork point within [fuel] steps of
    [pprev]; entries are told apart by hash, no other reported block
    having the hash of the tip. *)
Theorem active_tip_reported_once (fuel : nat) (tip : ptr) (s : TipSet) :
  Tip cs = Some tip ->
  setTips cs = Some s ->
  (forall block, In block s ->
     exists k fork,
       (k < fuel)%nat /\ nearest_active cs block k fork
       /\ is_int (nHeight (deref cs block) - nHeight (deref cs fork))) ->
  (forall block, In block s ->
     phashBlock (deref cs block) = phashBlock (deref cs tip) ->
     block = tip) ->
  exists res,
    getchaintips cs fuel = Some res
    /\ count_occ Z.eq_dec s tip = 1%nat
    /\ Forall2 (fun block obj =>
                  tip_entry cs fuel block = Some obj
                  /\ height obj = nHeight (deref cs block)
                  /\ tip_hash obj = phashBlock (deref cs block))
               s res
    /\ List.length
         (filter (fun obj => tip_hash obj =? phashBlock (deref cs tip)) res)
       = 1%nat.
Proof.
  intros Ht Hs Hfork Hhash.
  assert (Hin : In tip s).
  { unfold setTips in Hs. rewrite Ht in Hs. inversion Hs; subst.
    apply set_insert_In. }
  assert (Hone : count_occ Z.eq_dec s tip = 1%nat).
  { apply NoDup_count_occ'; [|exact Hin].
    apply in_order_NoDup. now apply setTips_in_order. }
  destruct (tip_entries_exist fuel s Hfork) as (res & Hres & HF).
  exists res. unfold getchaintips. rewrite Hs.
  split; [exact Hres|]. split; [exact Hone|]. split; [exact HF|].
  rewrite <- Hone. apply entries_with_hash; [|exact Hhash].
  eapply Forall2_impl; [|exact HF]. now intros b o (_ & _ & H).
Qed.

(** C3, as the code has it. When every reported block has its fork point
    within [fuel] steps of [pprev] and the height difference is an [int],
    [getchaintips] returns one entry per reported block, in order; the entry
    of a block gives its height and hash, as branch length its height minus
    the height of the fork point, and as status the first that applies of:
    on the active chain, active; a failure flag in the block's own status
    word, invalid; no transactions counted up to it, headers-only; valid up
    to scripts, valid-fork; valid up to the tree, valid-headers; else
    unknown. *)
Theorem chain_tip_entries (fuel : nat) (s : TipSet) :
  setTips cs = Some s ->
  (forall block, In block s ->
     exists k fork,
       (k < fuel)%nat /\ nearest_active cs block k fork
       /\ is_int (nHeight (deref cs block) - nHeight (deref cs fork))) ->
  exists res,
    getchaintips cs fuel = Some res
    /\ Forall2 (fun block obj =>
                  exists k fork, nearest_active cs block k fork
                                 /\ obj = tip_report cs block fork)
               s res.
Proof.
  intros Hs Hall. unfold getchaintips. rewrite Hs. clear Hs.
  induction s as [|block tl IH]; simpl.
  - exists []. split; [reflexivity | constructor].
  - destruct (Hall block (or_introl eq_refl)) as (k & fork & Hk & Hn & Hi).
    rewrite (tip_entry_report block k fork fuel Hn Hk Hi).
    destruct IH as (res & -> & HF).
    { intros b Hb. apply Hall. now right. }
    eexists. split; [reflexivity|]. constructor; [|exact HF].
    exists k, fork. auto.
Qed.
End Facts.

Ltac nearest_by_walk :=
  repeat split; try reflexivity;
  let j := fresh "j" in
  let p := fresh "p" in
  let Hj := fresh "Hj" in
  let Hp := fresh "Hp" in
  intros j p Hj Hp;
  try lia;
  repeat (destruct j as [|j];
          [inversion Hp; subst; reflexivity | try lia]).

Lemma demo_chain_fork_points :
  forall block, In block [103; 202; 102] ->
    exists k fork,
      (k < 5)%nat /\ nearest_active demo_chain block k fork
      /\ is_int (nHeight (deref demo_chain block)
                 - nHeight (deref demo_chain fork)).
Proof.
  intros block [<-|[<-|[<-|[]]]].
  - exists 1%nat, 102. split; [lia|]. split; [nearest_by_walk|].
    apply is_intb_true; reflexivity.
  - exists 2%nat, 101. split; [lia|]. split; [nearest_by_walk|].
    apply is_intb_true; reflexivity.
  - exists 0%nat, 102. split; [lia|]. split; [nearest_by_walk|].
    apply is_intb_true; reflexivity.
Qed.

Lemma demo_chain_tip_hash :
  forall block, In block [103; 202; 102] ->
    phashBlock (deref demo_chain block) = phashBlock (deref demo_chain 102) ->
    block = 102.
Proof.
  intros block [<-|[<-|[<-|[]]]]; vm_compute; intros E;
    try reflexivity; discriminate E.
Qed.

(** The active tip 102 has the child 103 in the index and is reported
    once. *)
Lemma active_tip_reported_once_witness :
  Tip demo_chain = Some 102
  /\ setTips demo_chain = Some [103; 202; 102]
  /\ exists res,
       @getchaintips bitcoin_status demo_chain 5 = Some res
       /\ count_occ Z.eq_dec [103; 202; 102] 102 = 1%nat
       /\ Forall2 (fun block obj =>
                     @tip_entry bitcoin_status demo_chain 5 block = Some obj
                     /\ height obj = nHeight (deref demo_chain block)
                     /\ tip_hash obj = phashBlock (deref demo_chain block))
                  [103; 202; 102] res
       /\ List.length
            (filter (fun obj => tip_hash obj
                                =? phashBlock (deref demo_chain 102)) res)
          = 1%nat.
Proof.
  split; [reflexivity|]. split; [reflexivity|].
  exact (@active_tip_reported_once bitcoin_status demo_chain 5 102
           [103; 202; 102] eq_refl eq_refl demo_chain_fork_points
           demo_chain_tip_hash).
Defined.

Lemma chain_tip_entries_witness :
  setTips demo_chain = Some [103; 202; 102]
  /\ exists res,
       @getchaintips bitcoin_status demo_chain 5 = Some res
       /\ Forall2 (fun block obj =>
                     exists k fork,
                       nearest_active demo_chain block k fork
                       /\ obj = @tip_report bitcoin_status demo_chain
                                  block fork)
                  [103; 202; 102] res.
Proof.
  split; [reflexivity|].
  exact (@chain_tip_entries bitcoin_status demo_chain 5 [103; 202; 102]
           eq_refl demo_chain_fork_points).
Defined.

(** C3 as stated fails: block 202 is reported, its parent 201 carries a
    failure flag, its own status word carries none; the status reported is
    headers-only where the ordered tests of the claim give invalid. *)
Lemma ancestor_flag_counterexample :
  @getchaintips bitcoin_status demo_chain 5
  = Some [ mkTip 3 1003 1 "invalid";
           mkTip 3 2002 2 "headers-only";
           mkTip 2 1002 0 "active" ]
  /\ @tip_entry bitcoin_status demo_chain 5 202
     = Some (mkTip 3 2002 2 "headers-only")
  /\ @status_by_spec bitcoin_status demo_chain 5 202 = "invalid"%string.
Proof. repeat split; vm_compute; reflexivity. Qed.
End ChainTipsFacts.

(** ** Request parameters *)

Module RPCFacts.
Import RPC.

Lemma get_int_VNUM z : is_int z -> get_int (VNUM z) = inr z.
Proof. intros H. simpl. now rewrite (proj2 (is_intb_true z) H). Qed.

Lemma size_cons v ps : size (v :: ps) = size ps + 1.
Proof. unfold size. simpl List.length. lia. Qed.

Lemma size_nonneg ps : 0 <= size ps.
Proof. unfold size. lia. Qed.

End RPCFacts.

(** ** Waiting for a height *)

Module NotifierFacts.
Import RPC RPCFacts Notifier.

Lemma after_no_tip_change e s :
  no_tip_change (latestblock s) e -> latestblock (after e s) = latestblock s.
Proof.
  destruct e as [[b|]| | |]; simpl; trivial.
  intros ->. now destruct (latestblock s).
Qed.

(** With the predicate true the waits return at once, whatever follows. *)
Lemma cv_wait_now pred s evs : pred s = true -> cv_wait pred s evs = Some (s, evs).
Proof. intros H. destruct evs; simpl; now rewrite H. Qed.

Lemma cv_wait_for_now pred s evs :
  pred s = true -> cv_wait_for pred s evs = Some (s, evs).
Proof. intros H. destruct evs; simpl; now rewrite H. Qed.

(** Without a tip change, [wait_for] is back at the deadline at the latest,
    and the tip it finds is the one it left. *)
Lemma cv_wait_for_quiet pred rest quiet : forall s,
  Forall (no_tip_change (latestblock s)) quiet ->
  exists s' rest',
    cv_wait_for pred s (quiet ++ TimedOut :: rest) = Some (s', rest')
    /\ latestblock s' = latestblock s.
Proof.
  induction quiet as [|e q IH]; intros s Hq; simpl.
  - destruct (pred s); eauto.
  - inversion Hq as [|? ? He Hq']; subst.
    destruct (pred s); [eauto|].
    pose proof (after_no_tip_change e s He) as Hsame.
    destruct e as [pindex| | |].
    + destruct (IH (after (BlockChange pindex) s)) as (s' & r' & E & L).
      { now rewrite Hsame. }
      exists s', r'. split; [exact E | congruence].
    + destruct (IH (after RPCStopped s)) as (s' & r' & E & L).
      { now rewrite Hsame. }
      exists s', r'. split; [exact E | congruence].
    + destruct (IH (after SpuriousWakeup s)) as (s' & r' & E & L).
      { now rewrite Hsame. }
      exists s', r'. split; [exact E | congruence].
    + eauto.
Qed.

(** C8. A call of [waitforblockheight] for height [h], with or without a
    timeout: when the stored tip is at height [h] or above, it returns the
    stored tip without consuming any event; and with a timeout other than
    zero, when nothing changes the tip before the deadline passes, it
    returns the tip as it was stored at the call, whatever [h]. *)
Theorem waitforblockheight_returns (h : Z) (timeout : option Z) (s : Shared) :
  is_int h ->
  (forall t, timeout = Some t -> is_int t) ->
  (forall evs,
     h <= height (latestblock s) ->
     waitforblockheight (height_request h timeout) s evs
     = Returned (latestblock s) evs)
  /\ (forall t quiet rest,
        timeout = Some t -> t <> 0 ->
        Forall (no_tip_change (latestblock s)) quiet ->
        exists rest',
          waitforblockheight (height_request h timeout) s
            (quiet ++ TimedOut :: rest)
          = Returned (latestblock s) rest').
Proof.
  intros Hh Ht. split.
  - intros evs Hge.
    assert (Hp : (fun s0 => (h <=? height (latestblock s0))
                            || negb (fRPCRunning s0)) s = true).
    { apply orb_true_iff. left. now apply Z.leb_le. }
    unfold waitforblockheight, height_request.
    destruct timeout as [t|]; cbn [fHelp params at_ nth orb].
    + change ((size [VNUM h; VNUM t] <? 1) || (2 <? size [VNUM h; VNUM t]))
        with false.
      change (1 <? size [VNUM h; VNUM t]) with true. cbv iota.
      rewrite (get_int_VNUM h Hh), (get_int_VNUM t (Ht t eq_refl)).
      destruct (negb (t =? 0)).
      * now rewrite (cv_wait_for_now _ s evs Hp).
      * now rewrite (cv_wait_now _ s evs Hp).
    + change ((size [VNUM h] <? 1) || (2 <? size [VNUM h])) with false.
      change (1 <? size [VNUM h]) with false. cbv iota.
      rewrite (get_int_VNUM h Hh).
      cbn [Z.eqb negb]. now rewrite (cv_wait_now _ s evs Hp).
  - intros t quiet rest -> Hnz Hq. unfold waitforblockheight, height_request.
    cbn [fHelp params at_ nth orb].
    change ((size [VNUM h; VNUM t] <? 1) || (2 <? size [VNUM h; VNUM t]))
      with false.
    change (1 <? size [VNUM h; VNUM t]) with true. cbv iota.
    rewrite (get_int_VNUM h Hh), (get_int_VNUM t (Ht t eq_refl)).
    destruct (Z.eqb_spec t 0) as [E|_]; [congruence|]. cbn [negb].
    match goal with
    | |- context [cv_wait_for ?p s _] =>
        destruct (cv_wait_for_quiet p rest quiet s Hq) as (s' & r' & -> & L)
    end.
    exists r'. now rewrite L.
Qed.

(** The tip is at height 2: a call for height 2 returns at once; a call for
    height 9 with a timeout of 1000 ms returns the same tip once the
    deadline has passed after a spurious wake-up. *)
Lemma waitforblockheight_returns_witness :
  is_int 2 /\ is_int 9 /\ is_int 1000
  /\ waitforblockheight (height_request 2 None) demo_shared [SpuriousWakeup]
     = Returned (mkUpdated 1002 2) [SpuriousWakeup]
  /\ exists rest',
       waitforblockheight (height_request 9 (Some 1000)) demo_shared
         ([SpuriousWakeup] ++ TimedOut :: [])
       = Returned (mkUpdated 1002 2) rest'.
Proof.
  assert (I2 : is_int 2) by (apply is_intb_true; reflexivity).
  assert (I9 : is_int 9) by (apply is_intb_true; reflexivity).
  assert (I1000 : is_int 1000) by (apply is_intb_true; reflexivity).
  split; [exact I2|]. split; [exact I9|]. split; [exact I1000|]. split.
  - apply (proj1 (waitforblockheight_returns 2 None demo_shared I2
                    ltac:(discriminate))).
    simpl. lia.
  - apply (proj2 (waitforblockheight_returns 9 (Some 1000) demo_shared I9
                    ltac:(intros t E; inversion E; subst; exact I1000))
                 1000 [SpuriousWakeup] [] eq_refl).
    + lia.
    + repeat constructor.
Defined.

End NotifierFacts.

(** ** Block-range statistics *)

Module RangeStatsFacts.
Import RPC RPCFacts Chain RangeStats.

Section Facts.
Context {node : Node}.

(** *** validaterange *)

Lemma range_end_exact start range :
  is_int (start + range - 1) ->
  wrap32 (wrap32 (start + range) - 1) = start + range - 1.
Proof.
  intros H.
  replace (wrap32 (start + range) - 1) with (wrap32 (start + range) + (- 1))
    by lia.
  rewrite wrap32_add_l. apply wrap32_id.
  now replace (start + range + - 1) with (start + range - 1) by lia.
Qed.

(** A range that lies on the chain is accepted; its start is raised to
    [minHeightStart] when that falls inside the range. *)
Lemma validaterange_accepts start range minHeightStart rest :
  is_int start -> is_int range -> is_int (Height chain) ->
  1 <= range -> start + range - 1 <= Height chain ->
  validaterange (VNUM start :: VNUM range :: rest) minHeightStart
  = inr (if (start <? minHeightStart)
            && (minHeightStart <=? start + range - 1)
         then minHeightStart else start,
         start + range - 1).
Proof.
  intros Hs Hr Hb H1 He. unfold validaterange.
  rewrite !size_cons. pose proof (size_nonneg rest).
  destruct (Z.ltb_spec (size rest + 1 + 1) 2); [lia|].
  cbn [at_ nth]. rewrite (get_int_VNUM start Hs), (get_int_VNUM range Hr).
  rewrite Z.gtb_ltb.
  destruct (Z.ltb_spec (Height chain) start); [lia|].
  destruct (Z.ltb_spec range 1); [lia|].
  rewrite range_end_exact by (unfold is_int in *; lia).
  rewrite Z.gtb_ltb.
  destruct (Z.ltb_spec (Height chain) (start + range - 1)); [lia|].
  reflexivity.
Qed.

(** C9, as the code has it. For [int] parameters, a start below
    [minHeightStart] and a range of at least one block that reaches
    [minHeightStart], the sum [start + range - 1] being an [int]: when the
    range ends on the chain, [validaterange] accepts the request with the
    start raised to [minHeightStart], and the heights it returns cover
    fewer blocks than [range]; when the range ends above the best height,
    it rejects the request for its end. *)
Theorem start_raised_to_minimum (start range minHeightStart : Z)
    (rest : list UniValue) :
  is_int start -> is_int range -> is_int (Height chain) ->
  is_int (start + range - 1) ->
  range >= 1 -> start <= Height chain ->
  start < minHeightStart -> start + range - 1 >= minHeightStart ->
  (start + range - 1 <= Height chain ->
   validaterange (VNUM start :: VNUM range :: rest) minHeightStart
   = inr (minHeightStart, start + range - 1)
   /\ (start + range - 1) - minHeightStart + 1 < range)
  /\ (Height chain < start + range - 1 ->
      validaterange (VNUM start :: VNUM range :: rest) minHeightStart
      = inl (JSONRPCError RPC_INVALID_PARAMETER
               (fmt_d "Invalid ending block (" (start + range - 1)
                      "). Out of range."))).
Proof.
  intros Hs Hr Hb Hno H1 Hsb Hlt Hge. split.
  - intros He. split; [|lia].
    rewrite validaterange_accepts by (trivial; lia).
    destruct (Z.ltb_spec start minHeightStart); [|lia].
    destruct (Z.leb_spec minHeightStart (start + range - 1)); [|lia].
    reflexivity.
  - intros Hab. unfold validaterange. rewrite !size_cons.
    pose proof (size_nonneg rest).
    destruct (Z.ltb_spec (size rest + 1 + 1) 2); [lia|].
    cbn [at_ nth]. rewrite (get_int_VNUM start Hs), (get_int_VNUM range Hr).
    rewrite Z.gtb_ltb.
    destruct (Z.ltb_spec (Height chain) start); [lia|].
    destruct (Z.ltb_spec range 1); [lia|].
    rewrite range_end_exact by exact Hno.
    rewrite Z.gtb_ltb.
    destruct (Z.ltb_spec (Height chain) (start + range - 1)); [|lia].
    reflexivity.
Qed.

(** *** getblockindexstats: requests that are turned down *)

Lemma params_in_bounds (a b : UniValue) rest :
  (List.length rest <= 1)%nat ->
  (size (a :: b :: rest) <? 2) || (3 <? size (a :: b :: rest)) = false.
Proof.
  intros H. rewrite !size_cons. unfold size.
  destruct (Z.ltb_spec (Z.of_nat (List.length rest) + 1 + 1) 2); [lia|].
  destruct (Z.ltb_spec 3 (Z.of_nat (List.length rest) + 1 + 1)); [lia|].
  reflexivity.
Qed.

(** C4. A request whose range is not positive is turned down with
    [RPC_INVALID_PARAMETER], and the log of storage reads is as it was: no
    block and no transaction has been read. *)
Theorem nonpositive_range_rejected (fuel : nat) (start range : Z)
    (rest : list UniValue) (log : list IOEvent) :
  is_int start -> is_int range -> (List.length rest <= 1)%nat ->
  range < 1 ->
  getblockindexstats fuel
    (mkRequest false (VNUM start :: VNUM range :: rest)) log
  = (Throw (JSONRPCError RPC_INVALID_PARAMETER
              (if start >? Height chain
               then fmt_d "Invalid starting block (" start "). Out of range."
               else "Invalid block range. Must be strictly positive.")),
     log).
Proof.
  intros Hs Hr Hl Hneg. unfold getblockindexstats.
  cbn [fHelp params orb]. rewrite (params_in_bounds _ _ rest Hl).
  unfold validaterange. rewrite !size_cons. pose proof (size_nonneg rest).
  destruct (Z.ltb_spec (size rest + 1 + 1) 2); [lia|].
  cbn [at_ nth]. rewrite (get_int_VNUM start Hs), (get_int_VNUM range Hr).
  destruct (start >? Height chain); [reflexivity|].
  destruct (Z.ltb_spec range 1); [reflexivity | lia].
Qed.

(** *** getfeeinfo *)

(** C10. For [n >= 0] blocks with [bestHeight - n > 0], [getfeeinfo n] is
    the run of [getblockindexstats] on the parameters
    [bestHeight - n], [n], [true]: same result, same reads. *)
Theorem getfeeinfo_is_getblockindexstats (fuel : nat) (nBlocks : Z)
    (log : list IOEvent) :
  is_int nBlocks -> is_int (Height chain) ->
  nBlocks >= 0 -> Height chain - nBlocks > 0 ->
  getfeeinfo fuel (mkRequest false [VNUM nBlocks]) log
  = getblockindexstats fuel
      (mkRequest false [VNUM (Height chain - nBlocks); VNUM nBlocks;
                        VBOOL true]) log.
Proof.
  intros Hn Hb H0 Hpos. unfold getfeeinfo.
  cbn [fHelp params orb at_ nth].
  change (size [VNUM nBlocks] =? 1) with true. cbn [negb].
  rewrite (get_int_VNUM nBlocks Hn). unfold lift, bind, ret.
  rewrite wrap32_id by (unfold is_int in *; lia).
  destruct (Z.ltb_spec nBlocks 0); [lia|].
  destruct (Z.leb_spec (Height chain - nBlocks) 0); [lia|].
  reflexivity.
Qed.

(** *** getblockindexstats: a block of a coinbase and a coinstake *)

Lemma same_sums_refl t : same_sums t t.
Proof. repeat split. Qed.

Lemma same_sums_trans t t' t'' :
  same_sums t t' -> same_sums t' t'' -> same_sums t t''.
Proof. unfold same_sums. intuition congruence. Qed.

(** An input that is a zerocoin spend is counted; an input whose previous
    output is found adds to [nValueIn] after one read. Neither changes the
    sums. *)
Lemma vin_step_resolves fFeeOnly v tot txin log :
  input_resolves txin ->
  exists v' tot' reads,
    vin_step fFeeOnly (v, tot) txin log = (Ok (v', tot'), log ++ reads)
    /\ same_sums tot tot'.
Proof.
  intros Hz. unfold vin_step.
  destruct (IsZerocoinSpend txin) eqn:E1.
  { exists v. destruct fFeeOnly; simpl; eexists; exists [];
      rewrite app_nil_r; (split; [reflexivity|]); repeat split. }
  destruct (IsZerocoinPublicSpend txin) eqn:E2.
  { exists v. destruct fFeeOnly; simpl; eexists; exists [];
      rewrite app_nil_r; (split; [reflexivity|]); repeat split. }
  destruct Hz as [Hz|(txPrev & o & Hg & Ho)];
    [rewrite E1, E2 in Hz; discriminate|].
  unfold bind, io. rewrite Hg, Ho.
  do 3 eexists. split; [reflexivity | apply same_sums_refl].
Qed.

Lemma vin_fold_resolves fFeeOnly ins :
  Forall input_resolves ins ->
  forall v tot log,
    exists v' tot' reads,
      foldM (vin_step fFeeOnly) ins (v, tot) log
      = (Ok (v', tot'), log ++ reads)
      /\ same_sums tot tot'.
Proof.
  induction 1 as [|txin tl Hz _ IH]; intros v tot log.
  - exists v, tot, []. rewrite app_nil_r.
    split; [reflexivity | apply same_sums_refl].
  - destruct (vin_step_resolves fFeeOnly v tot txin log Hz)
      as (v1 & t1 & r1 & E1 & S1).
    destruct (IH v1 t1 (log ++ r1)) as (v2 & t2 & r2 & E2 & S2).
    exists v2, t2, (r1 ++ r2).
    split; [|now apply (same_sums_trans tot t1 t2)].
    cbn [foldM]. unfold bind. rewrite E1, E2. now rewrite app_assoc.
Qed.

(** The coinbase and the coinstake leave the sums alone. *)
Lemma tx_step_coinbase fFeeOnly st tx log :
  IsCoinBase tx = true -> tx_step fFeeOnly st tx log = (Ok st, log).
Proof.
  intros H. unfold tx_step. destruct st as [[vi vo] tot]. now rewrite H.
Qed.

Lemma tx_step_coinstake fFeeOnly vi vo tot tx log :
  IsCoinStake tx = true ->
  HasZerocoinSpendInputs tx = false \/ Forall input_resolves (vin tx) ->
  exists vi' tot' reads,
    tx_step fFeeOnly (vi, vo, tot) tx log
    = (Ok (vi', vo, tot'), log ++ reads)
    /\ same_sums tot tot'.
Proof.
  intros Hs Hz. unfold tx_step. rewrite Hs.
  destruct (IsCoinBase tx); simpl.
  { exists vi, tot, []. rewrite app_nil_r.
    split; [reflexivity | apply same_sums_refl]. }
  destruct (HasZerocoinSpendInputs tx) eqn:Ez; simpl.
  - destruct Hz as [Hz|Hz]; [discriminate|].
    destruct (vin_fold_resolves fFeeOnly (vin tx) Hz vi tot log)
      as (vi' & tot' & reads & E & S).
    unfold bind. rewrite E. exists vi', tot', reads.
    split; [reflexivity | exact S].
  - exists vi, tot, []. rewrite app_nil_r.
    split; [reflexivity | apply same_sums_refl].
Qed.

Lemma bind_Ok {A B} (m : M A) (k : A -> M B) log a log' :
  m log = (Ok a, log') -> bind m k log = k a log'.
Proof. intros H. unfold bind. now rewrite H. Qed.

Lemma foldM_cons_Ok {A B} (f : A -> B -> M A) x tl a log a' log' :
  f a x log = (Ok a', log') ->
  foldM f (x :: tl) a log = foldM f tl a' log'.
Proof. intros H. cbn [foldM]. now apply bind_Ok. Qed.

Lemma block_step_coinbase_coinstake fFeeOnly cb stake tot log :
  IsProofOfStake (mkBlock [cb; stake]) = true ->
  IsCoinBase cb = true ->
  IsCoinStake stake = true ->
  HasZerocoinSpendInputs stake = false \/ Forall input_resolves (vin stake) ->
  exists tot' reads,
    block_step fFeeOnly (mkBlock [cb; stake]) tot log
    = (Ok tot', log ++ reads)
    /\ nTxCount tot' = wrap64 (wrap64 (nTxCount tot + 2) - 2)
    /\ nTxCount_all tot' = wrap64 (nTxCount_all tot + 2)
    /\ nFees tot' = nFees tot /\ nFees_all tot' = nFees_all tot
    /\ nBytes tot' = nBytes tot.
Proof.
  intros Hpos Hcb Hcs Hz. unfold block_step. rewrite Hpos.
  cbn [vtx List.length]. change (wrap32 (Z.of_nat 2)) with 2.
  match goal with
  | |- context [foldM _ _ (0, 0, ?t)] =>
      destruct (tx_step_coinstake fFeeOnly 0 0 t stake log Hcs Hz)
        as (vi' & tot' & reads & E & (S1 & S2 & S3 & S4 & S5))
  end.
  exists tot', reads. split.
  - apply bind_Ok with (a := (vi', 0, tot')) (log' := log ++ reads).
    erewrite foldM_cons_Ok by (apply tx_step_coinbase; exact Hcb).
    erewrite foldM_cons_Ok by exact E. reflexivity.
  - simpl in *. repeat split; congruence.
Qed.

(** C7. A request for the one block at height [h], a proof-of-stake block
    whose transactions are a coinbase and a coinstake (the inputs of a
    coinstake that spends zerocoins being zerocoin spends or inputs whose
    previous output is found): with at least one pass allowed,
    [getblockindexstats] reads that block and returns the counts 0 and 2
    and fees of 0. *)
Theorem coinbase_and_coinstake_block (fuel : nat) (h : Z)
    (fFeeOnly : option bool) (pindex : ptr) (cb stake : CTransaction)
    (log : list IOEvent) :
  is_int h -> is_int (Height chain) -> 0 <= h <= Height chain ->
  at_height chain h = Some pindex ->
  nHeight (deref chain pindex) = h ->
  ReadBlockFromDisk pindex = Some (mkBlock [cb; stake]) ->
  IsProofOfStake (mkBlock [cb; stake]) = true ->
  IsCoinBase cb = true ->
  IsCoinStake stake = true ->
  HasZerocoinSpendInputs stake = false \/ Forall input_resolves (vin stake) ->
  exists res reads,
    getblockindexstats (S fuel) (range_request h 1 fFeeOnly) log
    = (Ok res, log ++ ReadBlock pindex :: reads)
    /\ Starting_block res = h /\ Ending_block res = h
    /\ txcount res = 0 /\ txcount_all res = 2
    /\ ttlfee res = 0 /\ ttlfee_all res = 0.
Proof.
  intros Hh Hb Hr Hat Hht Hread Hpos Hcb Hcs Hz.
  unfold getblockindexstats, range_request. cbn [fHelp params orb].
  rewrite params_in_bounds by (destruct fFeeOnly; simpl; lia).
  rewrite validaterange_accepts
    by (trivial; try lia; apply is_intb_true; reflexivity).
  replace (h + 1 - 1) with h by lia.
  assert (Hstart : (if (h <? 1) && (1 <=? h) then 1 else h) = h).
  { destruct (Z.ltb_spec h 1), (Z.leb_spec 1 h); simpl; lia. }
  rewrite Hstart.
  erewrite bind_Ok by reflexivity. cbv beta iota.
  assert (Hfee : exists b,
             (if 2 <? size (VNUM h :: VNUM 1
                              :: match fFeeOnly with
                                 | Some b => [VBOOL b]
                                 | None => []
                                 end)
              then lift (get_bool
                           (at_ (VNUM h :: VNUM 1
                                   :: match fFeeOnly with
                                      | Some b => [VBOOL b]
                                      | None => []
                                      end) 2))
              else ret false) log = (Ok b, log)).
  { destruct fFeeOnly as [b|]; [exists b | exists false]; reflexivity. }
  destruct Hfee as [b Hfee]. erewrite bind_Ok by exact Hfee.
  rewrite Hat.
  match goal with
  | |- context [blocks_loop _ b h _ ?t] =>
      destruct (block_step_coinbase_coinstake b cb stake t
                  (log ++ [ReadBlock pindex]) Hpos Hcb Hcs Hz)
        as (tot' & reads & E & C1 & C2 & F1 & F2 & F3)
  end.
  rewrite <- app_assoc in E. cbn [app] in E.
  erewrite bind_Ok; [do 2 eexists; split; [reflexivity|]|].
  2:{ cbn [blocks_loop]. erewrite bind_Ok by reflexivity.
      rewrite Hread. erewrite bind_Ok by exact E.
      rewrite Hht, Z.ltb_irrefl. reflexivity. }
  cbn [Starting_block Ending_block txcount txcount_all ttlfee ttlfee_all].
  rewrite C1, C2, F1, F2. simpl. repeat split; reflexivity.
Qed.

End Facts.

(** C9 as stated fails: start 0 and range 100 on a chain of height 3, with
    the default minimum 1, meet the conditions of the claim, and the request
    is rejected for its end. *)
Lemma start_raised_counterexample :
  100 >= 1 /\ 0 <= Height (@chain demo_node) /\ 0 < 1 /\ 0 + 100 - 1 >= 1
  /\ @validaterange demo_node [VNUM 0; VNUM 100] 1
     = inl (JSONRPCError RPC_INVALID_PARAMETER
              "Invalid ending block (99). Out of range.").
Proof. repeat split; try (vm_compute; congruence). Qed.


Ltac int_range := apply is_intb_true; reflexivity.

(** A range of 0 blocks from height 1 on the example node. *)
Lemma nonpositive_range_rejected_witness :
  is_int 1 /\ is_int 0 /\ 0 < 1
  /\ @getblockindexstats demo_node 5 (mkRequest false [VNUM 1; VNUM 0]) []
     = (Throw (JSONRPCError RPC_INVALID_PARAMETER
                 "Invalid block range. Must be strictly positive."), []).
Proof.
  split; [int_range|]. split; [int_range|]. split; [lia|].
  exact (@nonpositive_range_rejected demo_node 5 1 0 [] []
           ltac:(int_range) ltac:(int_range) ltac:(simpl; lia) ltac:(lia)).
Defined.

(** On the example node, whose chain has height 3: start 0 with a range
    of 2 gives the heights 1 and 1; start 0 with a range of 100 is
    rejected for its end. *)
Lemma start_raised_to_minimum_witness :
  is_int 0 /\ is_int 2 /\ is_int 100 /\ is_int (Height (@chain demo_node))
  /\ (@validaterange demo_node [VNUM 0; VNUM 2] 1 = inr (1, 0 + 2 - 1)
      /\ (0 + 2 - 1) - 1 + 1 < 2)
  /\ @validaterange demo_node [VNUM 0; VNUM 100] 1
     = inl (JSONRPCError RPC_INVALID_PARAMETER
              (fmt_d "Invalid ending block (" (0 + 100 - 1)
                     "). Out of range.")).
Proof.
  split; [int_range|]. split; [int_range|]. split; [int_range|].
  split; [int_range|]. split.
  - exact (proj1 (@start_raised_to_minimum demo_node 0 2 1 []
                    ltac:(int_range) ltac:(int_range) ltac:(int_range)
                    ltac:(int_range)
                    ltac:(lia) ltac:(vm_compute; congruence) ltac:(lia)
                    ltac:(lia))
                 ltac:(vm_compute; congruence)).
  - exact (proj2 (@start_raised_to_minimum demo_node 0 100 1 []
                    ltac:(int_range) ltac:(int_range) ltac:(int_range)
                    ltac:(int_range)
                    ltac:(lia) ltac:(vm_compute; congruence) ltac:(lia)
                    ltac:(lia))
                 ltac:(vm_compute; reflexivity)).
Defined.

(** The last 2 blocks of the example node, whose chain has height 3. *)
Lemma getfeeinfo_is_getblockindexstats_witness :
  is_int 2 /\ is_int (Height (@chain demo_node))
  /\ @getfeeinfo demo_node 5 (mkRequest false [VNUM 2]) []
     = @getblockindexstats demo_node 5
         (mkRequest false [VNUM (Height (@chain demo_node) - 2); VNUM 2;
                           VBOOL true]) [].
Proof.
  split; [int_range|]. split; [int_range|].
  exact (@getfeeinfo_is_getblockindexstats demo_node 5 2 []
           ltac:(int_range) ltac:(int_range) ltac:(lia)
           ltac:(vm_compute; reflexivity)).
Defined.

(** Block 101 of the example node. *)
Lemma coinbase_and_coinstake_block_witness :
  exists res reads,
    @getblockindexstats demo_node 1 (range_request 1 1 None) []
    = (Ok res, [] ++ ReadBlock 101 :: reads)
    /\ Starting_block res = 1 /\ Ending_block res = 1
    /\ txcount res = 0 /\ txcount_all res = 2
    /\ ttlfee res = 0 /\ ttlfee_all res = 0.
Proof.
  apply (@coinbase_and_coinstake_block demo_node 0 1 None 101
           coinbase_tx stake_tx []).
  - int_range.
  - int_range.
  - vm_compute. split; congruence.
  - reflexivity.
  - reflexivity.
  - reflexivity.
  - reflexivity.
  - reflexivity.
  - reflexivity.
  - left. reflexivity.
Defined.

(** C2 fails on the code. Block 102 of the example node holds [tx_a] with a
    fee of 10 - 8 = 2 and [tx_b] with a fee of 5 + 3 - 7 = 1. Alone after
    the coinbase, in block 103, [tx_b] adds 1 to the fee totals; after
    [tx_a], in block 102, it adds 3, and the totals of block 102 are 5. *)
Lemma fee_contribution_depends_on_block :
  (exists res log,
     @getblockindexstats demo_node 1 (range_request 3 1 None) []
     = (Ok res, log)
     /\ ttlfee res = 1 /\ ttlfee_all res = 1)
  /\ (exists res log,
        @getblockindexstats demo_node 1 (range_request 2 1 None) []
        = (Ok res, log)
        /\ ttlfee res = 5 /\ ttlfee_all res = 5)
  /\ (forall tot,
        exists tot',
          @tx_step demo_node false (0, 0, tot) tx_b []
          = (Ok (8, 7, tot'), [ReadTx 12; ReadTx 12])
          /\ nFees_all tot' = wrap64 (nFees_all tot + 1))
  /\ (forall tot,
        exists tot',
          @tx_step demo_node false (10, 8, tot) tx_b []
          = (Ok (18, 15, tot'), [ReadTx 12; ReadTx 12])
          /\ nFees_all tot' = wrap64 (nFees_all tot + 3)).
Proof.
  split; [do 2 eexists; split; [vm_compute; reflexivity|]; split; reflexivity|].
  split; [do 2 eexists; split; [vm_compute; reflexivity|]; split; reflexivity|].
  split; intros tot; eexists; split; reflexivity.
Qed.
End RangeStatsFacts.

(** ** More on the waiters: waitfornewblock, waitforblock, shutdown *)

Module NotifierExtra.
Import RPC RPCFacts Notifier NotifierFacts.

(** [wait] returns only with its predicate true. *)
Lemma cv_wait_pred pred evs : forall s s' rest,
  cv_wait pred s evs = Some (s', rest) -> pred s' = true.
Proof.
  induction evs as [|e evs IH]; intros s s' rest H; simpl in H.
  - destruct (pred s) eqn:E; [|discriminate]. now inversion H; subst.
  - destruct (pred s) eqn:E; [now inversion H; subst|]. now apply IH in H.
Qed.

(** The server stays up as long as no event stops it. *)
Lemma after_running e s :
  e <> RPCStopped -> fRPCRunning (after e s) = fRPCRunning s.
Proof.
  destruct e as [[b|]| | |]; simpl; trivial. congruence.
Qed.

Lemma cv_wait_running pred evs : forall s s' rest,
  ~ In RPCStopped evs ->
  cv_wait pred s evs = Some (s', rest) -> fRPCRunning s' = fRPCRunning s.
Proof.
  induction evs as [|e evs IH]; intros s s' rest Hn H; simpl in H.
  - destruct (pred s); [|discriminate]. now inversion H; subst.
  - destruct (pred s); [now inversion H; subst|].
    rewrite (IH _ _ _ (fun Hin => Hn (or_intror Hin)) H).
    apply after_running. intros ->. apply Hn. now left.
Qed.

Lemma timeout_param_none (timeout : option Z) (v : UniValue) :
  no_deadline timeout ->
  (if 1 <? size (v :: match timeout with Some t => [VNUM t] | None => [] end)
   then get_int (at_ (v :: match timeout with
                           | Some t => [VNUM t]
                           | None => []
                           end) 1)
   else inr 0) = inr 0.
Proof. intros [->| ->]; reflexivity. Qed.

Lemma params_one_or_two (timeout : option Z) (v : UniValue) :
  (size (v :: match timeout with Some t => [VNUM t] | None => [] end) <? 1)
  || (2 <? size (v :: match timeout with Some t => [VNUM t] | None => [] end))
  = false.
Proof. destruct timeout; reflexivity. Qed.

(** X1. Without a deadline and with the server up throughout,
    [waitforblockheight] returns no tip below the height asked for,
    whatever wakes it on the way: block changes to lower heights, spurious
    wake-ups. *)
Theorem waitforblockheight_reaches (h : Z) (timeout : option Z) (s : Shared)
    (evs rest : list Event) (b : CUpdatedBlock) :
  no_deadline timeout ->
  fRPCRunning s = true -> ~ In RPCStopped evs ->
  waitforblockheight (height_request h timeout) s evs = Returned b rest ->
  h <= height b.
Proof.
  intros Hd Hrun Hns. unfold waitforblockheight, height_request.
  cbn [fHelp params orb]. rewrite params_one_or_two.
  change (at_ (VNUM h :: _) 0) with (VNUM h).
  destruct (get_int (VNUM h)) as [e|h0] eqn:Eh; [discriminate|].
  assert (h0 = h).
  { simpl in Eh. destruct (is_intb h); inversion Eh. reflexivity. }
  subst h0. rewrite (timeout_param_none timeout (VNUM h) Hd).
  cbn [Z.eqb negb].
  match goal with
  | |- context [cv_wait ?p s evs] =>
      destruct (cv_wait p s evs) as [[s' r]|] eqn:E; [|discriminate];
      pose proof (cv_wait_pred p evs s s' r E) as Hp;
      pose proof (cv_wait_running p evs s s' r Hns E) as Hr
  end.
  intros H. inversion H; subst. simpl in Hp.
  rewrite Hr, Hrun in Hp. simpl in Hp. rewrite orb_false_r in Hp.
  now apply Z.leb_le.
Qed.

Lemma waitforblockheight_reaches_witness :
  waitforblockheight (height_request 3 None) demo_shared
    [SpuriousWakeup; BlockChange (Some (mkUpdated 1003 3)); TimedOut]
  = Returned (mkUpdated 1003 3) [TimedOut]
  /\ 3 <= height (mkUpdated 1003 3).
Proof.
  split; [reflexivity|].
  apply (waitforblockheight_reaches 3 None demo_shared
           [SpuriousWakeup; BlockChange (Some (mkUpdated 1003 3)); TimedOut]
           [TimedOut] (mkUpdated 1003 3)).
  - left. reflexivity.
  - reflexivity.
  - simpl. intuition discriminate.
  - reflexivity.
Defined.


Lemma timeout_param_first (timeout : option Z) :
  no_deadline timeout ->
  (if 0 <? size (match timeout with Some t => [VNUM t] | None => [] end)
   then get_int (at_ (match timeout with
                      | Some t => [VNUM t]
                      | None => []
                      end) 0)
   else inr 0) = inr 0.
Proof. intros [->| ->]; reflexivity. Qed.

(** X2. Without a deadline and with the server up throughout,
    [waitfornewblock] returns a tip that differs, in height or in hash,
    from the tip stored when it was called. *)
Theorem waitfornewblock_new (timeout : option Z) (s : Shared)
    (evs rest : list Event) (b : CUpdatedBlock) :
  no_deadline timeout ->
  fRPCRunning s = true -> ~ In RPCStopped evs ->
  waitfornewblock (newblock_request timeout) s evs = Returned b rest ->
  height b <> height (latestblock s) \/ hash b <> hash (latestblock s).
Proof.
  intros Hd Hrun Hns. unfold waitfornewblock, newblock_request.
  cbn [fHelp params orb].
  assert (Hsz : (1 <? size (match timeout with
                            | Some t => [VNUM t]
                            | None => []
                            end)) = false) by (destruct timeout; reflexivity).
  rewrite Hsz, (timeout_param_first timeout Hd). cbn [Z.eqb negb].
  match goal with
  | |- context [cv_wait ?p s evs] =>
      destruct (cv_wait p s evs) as [[s' r]|] eqn:E; [|discriminate];
      pose proof (cv_wait_pred p evs s s' r E) as Hp;
      pose proof (cv_wait_running p evs s s' r Hns E) as Hr
  end.
  intros H. inversion H; subst. simpl in Hp.
  rewrite Hr, Hrun in Hp. simpl in Hp. rewrite orb_false_r in Hp.
  apply orb_true_iff in Hp. destruct Hp as [Hp|Hp];
    apply negb_true_iff, Z.eqb_neq in Hp; [left | right]; exact Hp.
Qed.

Lemma waitfornewblock_new_witness :
  waitfornewblock (newblock_request None) demo_shared
    [SpuriousWakeup; BlockChange None; BlockChange (Some (mkUpdated 1003 3))]
  = Returned (mkUpdated 1003 3) []
  /\ (height (mkUpdated 1003 3) <> height (latestblock demo_shared)
      \/ hash (mkUpdated 1003 3) <> hash (latestblock demo_shared)).
Proof.
  split; [reflexivity|].
  apply (waitfornewblock_new None demo_shared
           [SpuriousWakeup; BlockChange None;
            BlockChange (Some (mkUpdated 1003 3))]
           [] (mkUpdated 1003 3)).
  - left. reflexivity.
  - reflexivity.
  - simpl. intuition discriminate.
  - reflexivity.
Defined.

(** X3. Without a deadline and with the server up throughout,
    [waitforblock] returns a tip whose hash is the hash asked for. *)
Theorem waitforblock_hash (uint256S : string -> uint256) (str : string)
    (timeout : option Z) (s : Shared) (evs rest : list Event)
    (b : CUpdatedBlock) :
  no_deadline timeout ->
  fRPCRunning s = true -> ~ In RPCStopped evs ->
  waitforblock uint256S (block_request str timeout) s evs = Returned b rest ->
  hash b = uint256S str.
Proof.
  intros Hd Hrun Hns. unfold waitforblock, block_request.
  cbn [fHelp params orb]. rewrite params_one_or_two.
  change (at_ (VSTR str :: _) 0) with (VSTR str). cbn [get_str].
  rewrite (timeout_param_none timeout (VSTR str) Hd). cbn [Z.eqb negb].
  match goal with
  | |- context [cv_wait ?p s evs] =>
      destruct (cv_wait p s evs) as [[s' r]|] eqn:E; [|discriminate];
      pose proof (cv_wait_pred p evs s s' r E) as Hp;
      pose proof (cv_wait_running p evs s s' r Hns E) as Hr
  end.
  intros H. inversion H; subst. simpl in Hp.
  rewrite Hr, Hrun in Hp. simpl in Hp. rewrite orb_false_r in Hp.
  now apply Z.eqb_eq.
Qed.

Lemma waitforblock_hash_witness :
  waitforblock (fun _ => 1003) (block_request "3eb" None) demo_shared
    [BlockChange (Some (mkUpdated 1003 3)); SpuriousWakeup]
  = Returned (mkUpdated 1003 3) [SpuriousWakeup]
  /\ hash (mkUpdated 1003 3) = 1003.
Proof.
  split; [reflexivity|].
  apply (waitforblock_hash (fun _ => 1003) "3eb" None demo_shared
           [BlockChange (Some (mkUpdated 1003 3)); SpuriousWakeup]
           [SpuriousWakeup] (mkUpdated 1003 3)).
  - left. reflexivity.
  - reflexivity.
  - simpl. intuition discriminate.
  - reflexivity.
Defined.

Lemma timeout_param_any (timeout : option Z) (v : UniValue) :
  (forall t, timeout = Some t -> is_int t) ->
  exists t,
    (if 1 <? size (v :: match timeout with Some t => [VNUM t] | None => [] end)
     then get_int (at_ (v :: match timeout with
                             | Some t => [VNUM t]
                             | None => []
                             end) 1)
     else inr 0) = inr t.
Proof.
  intros Ht. destruct timeout as [t|].
  - exists t. change (get_int (VNUM t) = inr t). apply get_int_VNUM. auto.
  - exists 0. reflexivity.
Qed.

Lemma wait_either_now pred (t : Z) s evs :
  pred s = true ->
  (if negb (t =? 0) then cv_wait_for pred s evs else cv_wait pred s evs)
  = Some (s, evs).
Proof.
  intros H. destruct (negb (t =? 0));
    [now apply cv_wait_for_now | now apply cv_wait_now].
Qed.

(** X4. Once the server has stopped, the three waiters return at once with
    the stored tip, whatever they were asked to wait for and with or
    without a timeout: no event is consumed. *)
Theorem waiters_return_after_stop (uint256S : string -> uint256)
    (h : Z) (str : string) (timeout : option Z) (s : Shared)
    (evs : list Event) :
  fRPCRunning s = false ->
  is_int h -> (forall t, timeout = Some t -> is_int t) ->
  waitfornewblock (newblock_request timeout) s evs
  = Returned (latestblock s) evs
  /\ waitforblock uint256S (block_request str timeout) s evs
     = Returned (latestblock s) evs
  /\ waitforblockheight (height_request h timeout) s evs
     = Returned (latestblock s) evs.
Proof.
  intros Hstop Hh Ht. repeat split.
  - unfold waitfornewblock, newblock_request. cbn [fHelp params orb].
    assert (Hsz : (1 <? size (match timeout with
                              | Some t => [VNUM t]
                              | None => []
                              end)) = false)
      by (destruct timeout; reflexivity).
    rewrite Hsz.
    assert (Hp : exists t,
               (if 0 <? size (match timeout with
                              | Some t => [VNUM t]
                              | None => []
                              end)
                then get_int (at_ (match timeout with
                                   | Some t => [VNUM t]
                                   | None => []
                                   end) 0)
                else inr 0) = inr t).
    { destruct timeout as [t|]; [exists t | exists 0]; [|reflexivity].
      change (get_int (VNUM t) = inr t). apply get_int_VNUM. auto. }
    destruct Hp as [t ->].
    rewrite wait_either_now; [reflexivity|].
    rewrite Hstop. simpl. now rewrite orb_true_r.
  - unfold waitforblock, block_request. cbn [fHelp params orb].
    rewrite params_one_or_two.
    change (at_ (VSTR str :: _) 0) with (VSTR str). cbn [get_str].
    destruct (timeout_param_any timeout (VSTR str) Ht) as [t ->].
    rewrite wait_either_now; [reflexivity|].
    rewrite Hstop. simpl. now rewrite orb_true_r.
  - unfold waitforblockheight, height_request. cbn [fHelp params orb].
    rewrite params_one_or_two.
    change (at_ (VNUM h :: _) 0) with (VNUM h).
    rewrite (get_int_VNUM h Hh).
    destruct (timeout_param_any timeout (VNUM h) Ht) as [t ->].
    rewrite wait_either_now; [reflexivity|].
    rewrite Hstop. simpl. now rewrite orb_true_r.
Qed.

Lemma waiters_return_after_stop_witness :
  waitfornewblock (newblock_request (Some 500))
    (mkShared (mkUpdated 1002 2) false) [SpuriousWakeup]
  = Returned (mkUpdated 1002 2) [SpuriousWakeup]
  /\ waitforblock (fun _ => 77) (block_request "4d" (Some 500))
       (mkShared (mkUpdated 1002 2) false) [SpuriousWakeup]
     = Returned (mkUpdated 1002 2) [SpuriousWakeup]
  /\ waitforblockheight (height_request 9 (Some 500))
       (mkShared (mkUpdated 1002 2) false) [SpuriousWakeup]
     = Returned (mkUpdated 1002 2) [SpuriousWakeup].
Proof.
  apply (waiters_return_after_stop (fun _ => 77) 9 "4d" (Some 500)
           (mkShared (mkUpdated 1002 2) false) [SpuriousWakeup]).
  - reflexivity.
  - apply is_intb_true; reflexivity.
  - intros t E. inversion E; subst. apply is_intb_true; reflexivity.
Defined.

End NotifierExtra.

(** ** More on the digest: failure and counters of GetUTXOStats *)

Module DigestExtra.
Import Digest StdMap StdMapFacts DigestFacts.

(** *** When GetUTXOStats fails *)

Lemma flush_if_new_total txid st : exists st', flush_if_new txid st = Some st'.
Proof.
  unfold flush_if_new. destruct (outputs st) as [|o tl] eqn:Eo.
  - exists st. reflexivity.
  - cbn [StdMap.empty negb andb].
    destruct (negb (txid =? prevkey st)); [|exists st; reflexivity].
    destruct (ApplyStats_frame (stats st) (ss st) (prevkey st) (o :: tl))
      as [stats' ->]; [discriminate|].
    eexists. reflexivity.
Qed.

Lemma loop_None_iff cursor : forall st,
  GetUTXOStats_loop cursor st = None <-> In None cursor.
Proof.
  induction cursor as [|entry rest IH]; intros st; simpl.
  - split; [discriminate | tauto].
  - destruct entry as [[key coin]|]; simpl.
    + destruct (flush_if_new_total (hash key) st) as [st' ->].
      rewrite IH. split; [now right|]. intros [E|H]; [discriminate | exact H].
    + split; [now left | reflexivity].
Qed.

(** X6. [GetUTXOStats] returns false exactly when the cursor yields an
    entry whose key or value cannot be read; with every entry readable it
    succeeds, the assertion of [ApplyStats] never failing. *)
Theorem GetUTXOStats_fails_iff (GetHash : CHashWriter -> uint256)
    (blockHeight : uint256 -> Z) (view : CCoinsView) (stats0 : CCoinsStats) :
  GetUTXOStats GetHash blockHeight view stats0 = None
  <-> In None (Cursor view).
Proof.
  unfold GetUTXOStats, GetUTXOStats_scan.
  match goal with
  | |- context [GetUTXOStats_loop ?c ?s] =>
      pose proof (loop_None_iff c s) as Hl;
      destruct (GetUTXOStats_loop c s) as [st|]
  end.
  - assert (Hsome : ~ In None (Cursor view)).
    { intros H. apply Hl in H. discriminate. }
    split; [|tauto]. intros H. exfalso.
    destruct (outputs st) as [|o tl] eqn:Eo; cbn [StdMap.empty negb] in H.
    + discriminate.
    + destruct (ApplyStats_frame (stats st) (ss st) (prevkey st) (o :: tl))
        as [stats' E]; [discriminate|].
      rewrite E in H. discriminate.
  - split; [intros _; now apply Hl | reflexivity].
Qed.


(** *** The counters *)

Lemma u64_add_l a b : u64 (u64 a + b) = u64 (a + b).
Proof. unfold u64. apply Zplus_mod_idemp_l. Qed.

Lemma wrap64_add_l a b : wrap64 (wrap64 a + b) = wrap64 (a + b).
Proof.
  unfold wrap64.
  replace ((a + 2 ^ 63) mod 2 ^ 64 - 2 ^ 63 + b + 2 ^ 63)
    with ((a + 2 ^ 63) mod 2 ^ 64 + b) by lia.
  rewrite Zplus_mod_idemp_l.
  replace (a + 2 ^ 63 + b) with (a + b + 2 ^ 63) by lia.
  reflexivity.
Qed.

Lemma count_stats_add stats a b c a' b' c' :
  count_stats (count_stats stats a b c) a' b' c'
  = count_stats stats (a + a') (b + b') (c + c').
Proof.
  unfold count_stats. cbn [stats_nHeight hashBlock nTransactions
    nTransactionOutputs hashSerialized nDiskSize nTotalAmount].
  rewrite !u64_add_l, wrap64_add_l, !Z.add_assoc. reflexivity.
Qed.

Lemma fold_ApplyStats_counts outs : forall stats ss,
  outs <> [] ->
  fst (fold_left ApplyStats_output outs (stats, ss))
  = mkStats (stats_nHeight stats) (hashBlock stats) (nTransactions stats)
            (u64 (nTransactionOutputs stats + Z.of_nat (List.length outs)))
            (hashSerialized stats) (nDiskSize stats)
            (wrap64 (nTotalAmount stats + outputs_amount outs)).
Proof.
  induction outs as [|o tl IH]; intros stats ss Hne; [congruence|].
  cbn [fold_left]. unfold ApplyStats_output at 2.
  destruct tl as [|o' tl'].
  - cbn [fold_left fst List.length outputs_amount fold_right].
    now rewrite Z.add_0_r.
  - rewrite IH by discriminate.
    cbn [stats_nHeight hashBlock nTransactions nTransactionOutputs
         hashSerialized nDiskSize nTotalAmount].
    rewrite u64_add_l, wrap64_add_l. f_equal.
    + f_equal. cbn [List.length]. lia.
    + f_equal. cbn [outputs_amount fold_right]. lia.
Qed.

Lemma ApplyStats_counts stats ss txid (m : StdMap.t Coin) :
  m <> [] ->
  exists ss',
    ApplyStats stats ss txid m
    = Some (count_stats stats 1 (Z.of_nat (List.length m))
                        (outputs_amount m), ss').
Proof.
  intros Hne. destruct m as [|[k coin] tl]; [congruence|]. unfold ApplyStats.
  match goal with
  | |- context [fold_left ApplyStats_output ?l (?s, ?w)] =>
      pose proof (fold_ApplyStats_counts l s w Hne) as Hfold;
      destruct (fold_left ApplyStats_output l (s, w)) as [stats' ss']
  end.
  cbn [fst] in Hfold. subst stats'. eexists. reflexivity.
Qed.

Lemma flush_if_new_counts txid st :
  outputs st = [] \/ prevkey st <> txid ->
  exists st', flush_if_new txid st = Some st'
              /\ outputs st' = [] /\ stats st' = pending_stats st.
Proof.
  intros H. unfold flush_if_new, pending_stats.
  destruct (outputs st) as [|o tl] eqn:Eo.
  - exists st. simpl. auto.
  - destruct H as [H|H]; [discriminate|].
    cbn [StdMap.empty negb andb].
    destruct (Z.eqb_spec txid (prevkey st)) as [E|_]; [congruence|].
    cbn [negb].
    destruct (ApplyStats_counts (stats st) (ss st) (prevkey st) (o :: tl))
      as [ss' ->]; [discriminate|].
    eexists. split; [reflexivity|]. simpl. auto.
Qed.

Lemma loop_counts gs :
  Forall (fun g => snd g <> []) gs -> NoDup (map fst gs) ->
  forall st,
    outputs st = [] \/ ~ In (prevkey st) (map fst gs) ->
    exists st',
      GetUTXOStats_loop (cursor_of gs) st = Some st'
      /\ pending_stats st' = fold_left count_group gs (pending_stats st).
Proof.
  induction gs as [|[txid recs] gs IH]; intros Hne ND st Hst.
  - exists st. split; reflexivity.
  - inversion Hne as [|? ? Hrecs Hne']; subst. simpl in Hrecs.
    simpl in ND. inversion ND as [|? ? Hnotin ND']; subst.
    unfold cursor_of. simpl. rewrite loop_app, loop_group by exact Hrecs.
    destruct (flush_if_new_counts txid st) as (st1 & -> & Ho1 & Hs1).
    { destruct Hst as [H|H]; [now left|]. right. intros E. apply H.
      simpl. now left. }
    rewrite Ho1.
    match goal with
    | |- context [GetUTXOStats_loop _ ?s] =>
        destruct (IH Hne' ND' s) as (st' & Hl & Hs)
    end.
    { right. exact Hnotin. }
    exists st'. split; [exact Hl|]. rewrite Hs. f_equal.
    change (build_onto recs []) with (build recs).
    unfold pending_stats at 1. cbn [outputs stats].
    destruct (build recs) as [|o tl] eqn:Eb.
    { exfalso. now apply (build_not_empty recs). }
    unfold count_group. cbn [snd]. rewrite Eb, Hs1. reflexivity.
Qed.

Lemma fold_count_group gs : forall s a b c,
  fold_left count_group gs (count_stats s a b c)
  = count_stats s (a + Z.of_nat (List.length gs))
      (b + Z.of_nat (List.length (flat_map (fun g => build (snd g)) gs)))
      (c + outputs_amount (flat_map (fun g => build (snd g)) gs)).
Proof.
  induction gs as [|g gs IH]; intros s a b c.
  - cbn [fold_left List.length flat_map outputs_amount fold_right].
    now rewrite !Z.add_0_r.
  - cbn [fold_left]. unfold count_group at 2. rewrite count_stats_add, IH.
    f_equal.
    + cbn [List.length]. lia.
    + cbn [flat_map]. rewrite length_app. lia.
    + cbn [flat_map]. unfold outputs_amount. rewrite fold_right_app.
      fold (outputs_amount (flat_map (fun g0 => build (snd g0)) gs)).
      generalize (outputs_amount (flat_map (fun g0 => build (snd g0)) gs)).
      intros z. induction (build (snd g)) as [|o tl IHb]; simpl; [lia|].
      rewrite <- Z.add_assoc in IHb. lia.
Qed.

(** Without a repeated output index, the map built from the records of a
    group holds these very records. *)
Lemma ascending_NoDup (l : list Z) : StronglySorted Z.lt l -> NoDup l.
Proof.
  induction 1 as [|k tl Htl IH Hall]; constructor; trivial.
  intros Hin. rewrite Forall_forall in Hall. pose proof (Hall _ Hin). lia.
Qed.

Lemma build_Permutation recs :
  NoDup (map fst recs) -> Permutation (build recs) recs.
Proof.
  intros ND. apply NoDup_Permutation.
  - apply (NoDup_map_inv fst). apply ascending_NoDup. apply build_ordered.
  - now apply (NoDup_map_inv fst).
  - intros [k v]. split.
    + intros H. destruct (build_onto_from recs [] k v H) as [H'|[]]. exact H'.
    + intros H. now apply build_onto_In.
Qed.

Lemma outputs_amount_Permutation l l' :
  Permutation l l' -> outputs_amount l = outputs_amount l'.
Proof.
  induction 1; simpl; lia.
Qed.

Lemma built_records gs :
  Forall (fun g => NoDup (map fst (snd g))) gs ->
  Permutation (flat_map (fun g => build (snd g)) gs) (store_records gs).
Proof.
  unfold store_records. induction 1 as [|g gs Hg _ IH]; simpl; [constructor|].
  apply Permutation_app; [now apply build_Permutation | exact IH].
Qed.

(** X7. Over a store with one group per transaction id and no output index
    twice in a group, [GetUTXOStats] started from fresh statistics
    succeeds and reports: the best block and its height, as number of
    transactions the number of groups, as number of outputs the number of
    records, as total amount the sum of their amounts (the three of them
    reduced to 64 bits), and the size estimate of the view. *)
Theorem GetUTXOStats_counters (GetHash : CHashWriter -> uint256)
    (blockHeight : uint256 -> Z) (best : uint256) (size : Z)
    (gs : list (uint256 * list (Z * Coin))) :
  utxo_set_ok gs ->
  exists stats,
    GetUTXOStats GetHash blockHeight (mkView (cursor_of gs) best size)
      CCoinsStats_init = Some stats
    /\ hashBlock stats = best
    /\ stats_nHeight stats = blockHeight best
    /\ nTransactions stats = u64 (Z.of_nat (List.length gs))
    /\ nTransactionOutputs stats
       = u64 (Z.of_nat (List.length (store_records gs)))
    /\ nTotalAmount stats = wrap64 (outputs_amount (store_records gs))
    /\ nDiskSize stats = size.
Proof.
  intros OK. destruct (utxo_set_ok_parts gs OK) as (Hne & NDr & ND).
  unfold GetUTXOStats, GetUTXOStats_scan. cbn [Cursor GetBestBlock].
  match goal with
  | |- context [GetUTXOStats_loop _ ?s] =>
      destruct (loop_counts gs Hne ND s) as (st' & -> & Hs)
  end.
  { now left. }
  assert (Hfin : exists ss',
             (if negb (StdMap.empty (outputs st'))
              then ApplyStats (stats st') (ss st') (prevkey st') (outputs st')
              else Some (stats st', ss st'))
             = Some (pending_stats st', ss')).
  { unfold pending_stats. destruct (outputs st') as [|o tl] eqn:Eo;
      cbn [StdMap.empty negb].
    - eexists. reflexivity.
    - destruct (ApplyStats_counts (stats st') (ss st') (prevkey st')
                  (o :: tl)) as [ss' ->]; [discriminate|].
      eexists. reflexivity. }
  destruct Hfin as [ss' ->]. eexists. split; [reflexivity|].
  rewrite Hs. unfold pending_stats. cbn [outputs stats].
  match goal with
  | |- context [fold_left count_group gs ?s0] =>
      change (fold_left count_group gs s0)
        with (fold_left count_group gs (count_stats s0 0 0 0))
  end.
  rewrite fold_count_group.
  cbn [hashBlock stats_nHeight nTransactions nTransactionOutputs
       nTotalAmount nDiskSize count_stats CCoinsStats_init EstimateSize].
  pose proof (built_records gs NDr) as HP.
  rewrite (Permutation_length HP), (outputs_amount_Permutation _ _ HP).
  repeat split; reflexivity.
Qed.

Lemma GetUTXOStats_counters_witness :
  utxo_set_ok demo_store
  /\ exists stats,
       GetUTXOStats (fun _ => 0) (fun _ => 100)
         (mkView (cursor_of demo_store) 1 4096) CCoinsStats_init = Some stats
       /\ hashBlock stats = 1
       /\ stats_nHeight stats = 100
       /\ nTransactions stats = u64 (Z.of_nat (List.length demo_store))
       /\ nTransactionOutputs stats
          = u64 (Z.of_nat (List.length (store_records demo_store)))
       /\ nTotalAmount stats
          = wrap64 (outputs_amount (store_records demo_store))
       /\ nDiskSize stats = 4096.
Proof.
  split; [exact demo_store_ok|].
  exact (GetUTXOStats_counters (fun _ => 0) (fun _ => 100) 1 4096 demo_store
           demo_store_ok).
Defined.

End DigestExtra.

(** ** More on getchaintips: which blocks, in which order *)

Module ChainTipsExtra.
Import Chain ChainTips ChainTipsFacts.

Section Facts.
Context {BS : BlockStatus}.
Variable cs : ChainState.

Local Abbreviation cmp := (CompareBlocksByHeight cs).

(** X19. [CompareBlocksByHeight] is a strict total order on block
    pointers, as the [std::set] that uses it requires: no block sorts
    before itself, the order is transitive and asymmetric, and two
    blocks neither of which sorts before the other are the same block. *)
Theorem CompareBlocksByHeight_strict_order (a b c : ptr) :
  cmp a a = false
  /\ (cmp a b = true -> cmp b c = true -> cmp a c = true)
  /\ (cmp a b = true -> cmp b a = false)
  /\ (cmp a b = false -> cmp b a = false -> a = b).
Proof.
  split; [apply cmp_irrefl|]. split; [apply cmp_trans|].
  split; [|apply cmp_total].
  intros Hab. destruct (cmp b a) eqn:Hba; [|reflexivity].
  pose proof (cmp_trans cs a b a Hab Hba) as Haa.
  rewrite (cmp_irrefl cs) in Haa. discriminate.
Qed.

(** *** Membership in the set *)

Lemma set_insert_keeps x y s : In x s -> In x (set_insert cs y s).
Proof.
  induction s as [|z tl IH]; simpl; [tauto|].
  destruct (cmp y z); [intros H; now right|].
  destruct (cmp z y); [|simpl; tauto].
  intros [E|H]; [now left | right; now apply IH].
Qed.

Lemma set_erase_keeps x p s : x <> p -> In x s -> In x (set_erase cs p s).
Proof.
  intros Hne. induction s as [|y tl IH]; simpl; [tauto|].
  destruct (cmp p y) eqn:Epy; [simpl; tauto|].
  destruct (cmp y p) eqn:Eyp.
  - intros [E|H]; [now left | right; now apply IH].
  - assert (p = y) by now apply (cmp_total cs). subst y.
    intros [E|H]; [congruence | exact H].
Qed.

Lemma set_erase_gone x s : in_order cs s -> ~ In x (set_erase cs x s).
Proof.
  unfold in_order. induction s as [|y tl IH]; simpl; intros Hs; [tauto|].
  inversion Hs as [|? ? Htl Hall]; subst. rewrite Forall_forall in Hall.
  destruct (cmp x y) eqn:Exy.
  - intros [E|H].
    + subst y. rewrite (cmp_irrefl cs) in Exy. discriminate.
    + pose proof (Hall _ H) as Eyx. simpl in Eyx.
      pose proof (cmp_trans cs x y x Exy Eyx) as Exx.
      rewrite (cmp_irrefl cs) in Exx. discriminate.
  - destruct (cmp y x) eqn:Eyx.
    + intros [E|H]; [|now apply IH].
      subst y. rewrite (cmp_irrefl cs) in Eyx. discriminate.
    + assert (x = y) by now apply (cmp_total cs). subst y.
      intros H. pose proof (Hall _ H) as Exx. simpl in Exx.
      rewrite (cmp_irrefl cs) in Exx. discriminate.
Qed.

Lemma insert_all_In items : forall s x,
  In x (insert_all cs items s) <-> In x s \/ In x (map snd items).
Proof.
  unfold insert_all. induction items as [|item tl IH]; intros s x; simpl.
  - tauto.
  - rewrite IH. split.
    + intros [H|H]; [|tauto].
      destruct (set_insert_from cs _ _ _ H) as [->|H']; tauto.
    + intros [H|[E|H]]; [left; now apply set_insert_keeps | | tauto].
      subst x. left. apply set_insert_In.
Qed.

Lemma erase_parents_In items : forall s x,
  in_order cs s ->
  (In x (erase_parents cs items s)
   <-> In x s /\ forall item, In item items ->
                              pprev (deref cs (snd item)) <> Some x).
Proof.
  unfold erase_parents. induction items as [|item tl IH]; intros s x Hs; simpl.
  - split; [intros H; split; [exact H | tauto] | tauto].
  - destruct (pprev (deref cs (snd item))) as [p|] eqn:Ep.
    + rewrite IH by now apply set_erase_in_order. split.
      * intros [H Hn]. split; [now apply (set_erase_from cs p)|].
        intros it [E|Hit]; [|now apply Hn].
        subst it. rewrite Ep. intros E. inversion E; subst p.
        now apply (set_erase_gone x s Hs).
      * intros [H Hn]. split.
        -- apply set_erase_keeps; [|exact H].
           intros E. subst p. apply (Hn item); [now left | exact Ep].
        -- intros it Hit. apply Hn. now right.
    + rewrite IH by exact Hs. split.
      * intros [H Hn]. split; [exact H|].
        intros it [E|Hit]; [subst it; rewrite Ep; discriminate | now apply Hn].
      * intros [H Hn]. split; [exact H|]. intros it Hit. apply Hn. now right.
Qed.

(** X8. The blocks that [getchaintips] reports are the tip of the active
    chain and the blocks of the index that no block of the index has as
    its [pprev], and no others. *)
Theorem reported_blocks (s : TipSet) (x : ptr) :
  setTips cs = Some s ->
  (In x s <-> Tip cs = Some x \/ is_leaf cs x).
Proof.
  unfold setTips, is_leaf. destruct (Tip cs) as [tip|]; [|discriminate].
  intros H. inversion H; subst s. clear H.
  assert (Ho : in_order cs (insert_all cs (mapBlockIndex cs) [])).
  { apply insert_all_in_order. constructor. }
  split.
  - intros Hin. destruct (set_insert_from cs _ _ _ Hin) as [->|Hin'].
    + now left.
    + right. apply (erase_parents_In _ _ _ Ho) in Hin'.
      destruct Hin' as [Hi Hn]. apply insert_all_In in Hi.
      destruct Hi as [[]|Hi]. split; assumption.
  - intros [E|[Hi Hn]].
    + inversion E; subst. apply set_insert_In.
    + apply set_insert_keeps. apply (erase_parents_In _ _ _ Ho).
      split; [|exact Hn]. apply insert_all_In. now right.
Qed.

(** *** Order of the entries *)

Lemma cmp_heights a b :
  cmp a b = true ->
  nHeight (deref cs b) < nHeight (deref cs a)
  \/ (nHeight (deref cs a) = nHeight (deref cs b) /\ a < b).
Proof.
  unfold CompareBlocksByHeight.
  destruct (Z.eqb_spec (nHeight (deref cs a)) (nHeight (deref cs b)));
    simpl; rewrite ?Z.gtb_ltb, ?Z.ltb_lt; lia.
Qed.

Lemma tip_entry_height fuel block obj :
  tip_entry cs fuel block = Some obj -> height obj = nHeight (deref cs block).
Proof.
  unfold tip_entry. destruct (FindFork cs fuel block); [|discriminate].
  intros H. inversion H. reflexivity.
Qed.

Lemma entries_descending fuel s : forall res,
  StronglySorted (fun a b => nHeight (deref cs b) <= nHeight (deref cs a)) s ->
  tip_entries cs fuel s = Some res ->
  StronglySorted (fun x y => height y <= height x) res.
Proof.
  induction s as [|block tl IH]; intros res Hs H; simpl in H.
  - inversion H. constructor.
  - destruct (tip_entry cs fuel block) as [obj|] eqn:E; [|discriminate].
    destruct (tip_entries cs fuel tl) as [res'|] eqn:E'; [|discriminate].
    inversion H; subst res. inversion Hs as [|? ? Htl Hall]; subst.
    constructor; [now apply IH|].
    pose proof (tip_entries_pointwise cs fuel tl res' E') as HF.
    rewrite (tip_entry_height _ _ _ E).
    clear - HF Hall. induction HF as [|b o tl' res'' Hbo _ IHF];
      constructor.
    + inversion Hall; subst. now rewrite (tip_entry_height _ _ _ Hbo).
    + apply IHF. now inversion Hall.
Qed.

(** X9. [getchaintips] lists the blocks from the highest to the lowest,
    blocks of one height by ascending address; the heights of the entries
    of the array it returns never increase. *)
Theorem tips_in_descending_height (fuel : nat) (s : TipSet)
    (res : list ChainTip) :
  setTips cs = Some s ->
  getchaintips cs fuel = Some res ->
  StronglySorted
    (fun a b => nHeight (deref cs b) < nHeight (deref cs a)
                \/ (nHeight (deref cs a) = nHeight (deref cs b) /\ a < b)) s
  /\ StronglySorted (fun x y => height y <= height x) res.
Proof.
  intros Hs Hg.
  pose proof (setTips_in_order cs s Hs) as Ho. unfold in_order in Ho.
  assert (H1 : StronglySorted
                 (fun a b => nHeight (deref cs b) < nHeight (deref cs a)
                             \/ (nHeight (deref cs a) = nHeight (deref cs b)
                                 /\ a < b)) s).
  { clear - Ho. induction Ho as [|a tl Htl IH Hall]; constructor; trivial.
    eapply Forall_impl; [|exact Hall]. intros b. apply cmp_heights. }
  split; [exact H1|].
  unfold getchaintips in Hg. rewrite Hs in Hg.
  apply (entries_descending fuel s res); [|exact Hg].
  clear - H1. induction H1 as [|a tl Htl IH Hall]; constructor; trivial.
  eapply Forall_impl; [|exact Hall]. simpl. intros b. lia.
Qed.

(** *** Branch length and status *)

Lemma ancestor_below k : forall block a,
  heights_decrease cs ->
  ancestor cs (S k) block = Some a ->
  nHeight (deref cs a) < nHeight (deref cs block).
Proof.
  intros block a Hdec H. simpl in H.
  destruct (pprev (deref cs block)) as [q|] eqn:E; [|discriminate].
  pose proof (Hdec _ _ E).
  pose proof (ancestor_height cs k q a Hdec H). lia.
Qed.

(** What [FindFork] returns is on the active chain: the block itself when
    it is there, a proper ancestor otherwise. *)
Lemma FindFork_sound fuel : forall block fork,
  FindFork cs fuel block = Some fork ->
  Contains cs fork = true
  /\ ((Contains cs block = true /\ fork = block)
      \/ (Contains cs block = false
          /\ exists k, ancestor cs (S k) block = Some fork)).
Proof.
  induction fuel as [|fuel IH]; intros block fork H; simpl in H;
    [discriminate|].
  destruct (Contains cs block) eqn:Ec.
  - inversion H; subst. split; [exact Ec | left; now split].
  - destruct (pprev (deref cs block)) as [p|] eqn:Ep; [|discriminate].
    destruct (IH p fork H) as [Hc [[_ ->]|[_ [k Hk]]]].
    + split; [exact Hc | right; split; trivial].
      exists O. simpl. now rewrite Ep.
    + split; [exact Hc | right; split; trivial].
      exists (S k). change (ancestor cs (S (S k)) block)
        with (match pprev (deref cs block) with
              | Some p => ancestor cs (S k) p
              | None => None
              end).
      now rewrite Ep.
Qed.

Lemma tip_status_active block :
  tip_status cs block = "active"%string <-> Contains cs block = true.
Proof.
  unfold tip_status. cbv zeta.
  destruct (Contains cs block); [tauto|].
  destruct (negb _); [split; discriminate|].
  destruct (_ =? 0); [split; discriminate|].
  destruct (IsValid _ BLOCK_VALID_SCRIPTS); [split; discriminate|].
  destruct (IsValid _ BLOCK_VALID_TREE); split; discriminate.
Qed.

Lemma tip_entry_branch fuel block obj :
  heights_ok cs -> heights_decrease cs ->
  tip_entry cs fuel block = Some obj ->
  0 <= branchlen obj <= height obj
  /\ (status obj = "active"%string <-> branchlen obj = 0).
Proof.
  intros Hok Hdec. unfold tip_entry.
  destruct (FindFork cs fuel block) as [fork|] eqn:EF; [|discriminate].
  intros H. inversion H; subst obj. clear H. cbn [branchlen height status].
  pose proof (Hok block) as Hb. pose proof (Hok fork) as Hf.
  rewrite wrap32_id by (unfold is_int; lia).
  rewrite tip_status_active.
  destruct (FindFork_sound fuel block fork EF) as [_ [[Ec ->]|[Ec [k Hk]]]].
  - split; [lia|]. split; [lia | intros _; exact Ec].
  - pose proof (ancestor_below k block fork Hdec Hk).
    split; [lia|]. rewrite Ec. split; [discriminate | lia].
Qed.

(** X10. When the heights of the index are non-negative [int]s and every
    block is higher than its [pprev], each entry that [getchaintips]
    returns has a branch length between 0 and its height, and its status
    is "active" exactly when its branch length is 0. *)
Theorem branch_length_and_status (fuel : nat) (res : list ChainTip) :
  heights_ok cs -> heights_decrease cs ->
  getchaintips cs fuel = Some res ->
  Forall (fun obj => 0 <= branchlen obj <= height obj
                     /\ (status obj = "active"%string <-> branchlen obj = 0))
         res.
Proof.
  intros Hok Hdec. unfold getchaintips.
  destruct (setTips cs) as [s|]; [|discriminate].
  intros H. pose proof (tip_entries_pointwise cs fuel s res H) as HF.
  clear H. induction HF as [|block obj tl res' Hbo _ IH]; constructor.
  - exact (tip_entry_branch fuel block obj Hok Hdec Hbo).
  - exact IH.
Qed.

End Facts.

Lemma reported_blocks_witness :
  setTips demo_chain = Some [103; 202; 102]
  /\ (In 202 [103; 202; 102]
      <-> Tip demo_chain = Some 202 \/ is_leaf demo_chain 202).
Proof.
  split; [reflexivity|].
  exact (reported_blocks demo_chain [103; 202; 102] 202 eq_refl).
Defined.

Lemma tips_in_descending_height_witness :
  StronglySorted
    (fun a b => nHeight (deref demo_chain b) < nHeight (deref demo_chain a)
                \/ (nHeight (deref demo_chain a) = nHeight (deref demo_chain b)
                    /\ a < b)) [103; 202; 102]
  /\ StronglySorted (fun x y => height y <= height x)
       [ mkTip 3 1003 1 "invalid"; mkTip 3 2002 2 "headers-only";
         mkTip 2 1002 0 "active" ].
Proof.
  exact (@tips_in_descending_height bitcoin_status demo_chain 5
           [103; 202; 102] _ eq_refl eq_refl).
Defined.

Lemma demo_heights_ok : heights_ok demo_chain.
Proof.
  intros p. unfold demo_chain, demo_index. cbn [deref].
  repeat (destruct (_ =? _)); cbn [nHeight]; lia.
Qed.

Lemma demo_heights_decrease : heights_decrease demo_chain.
Proof.
  intros p q. unfold demo_chain. cbn [deref].
  unfold demo_index at 1 3.
  repeat (destruct (p =? _)); cbn [pprev nHeight]; intros H; inversion H;
    subst q; vm_compute; reflexivity.
Qed.

Lemma branch_length_and_status_witness :
  Forall (fun obj => 0 <= branchlen obj <= height obj
                     /\ (status obj = "active"%string <-> branchlen obj = 0))
         [ mkTip 3 1003 1 "invalid"; mkTip 3 2002 2 "headers-only";
           mkTip 2 1002 0 "active" ].
Proof.
  exact (@branch_length_and_status bitcoin_status demo_chain 5 _
           demo_heights_ok demo_heights_decrease eq_refl).
Defined.

End ChainTipsExtra.

(** ** More on validaterange, getblockindexstats and getfeeinfo *)

Module RangeStatsExtra.
Import RPC RPCFacts Chain RangeStats RangeStatsFacts.

Section Facts.
Context {node : Node}.

(** *** validaterange: what it accepts *)

Lemma validaterange_rest a b rest m :
  validaterange (a :: b :: rest) m = validaterange [a; b] m.
Proof.
  unfold validaterange. rewrite !size_cons. pose proof (size_nonneg rest).
  destruct (Z.ltb_spec (size rest + 1 + 1) 2); [lia|].
  reflexivity.
Qed.

Lemma get_int_inv v z : get_int v = inr z -> v = VNUM z /\ is_int z.
Proof.
  destruct v as [|n|b|s]; simpl; try discriminate.
  destruct (is_intb n) eqn:E; [|discriminate].
  intros H. inversion H; subst. split; [reflexivity|].
  now apply is_intb_true.
Qed.

(** What [validaterange] has checked and computed when it returns. *)
Lemma validaterange_inv (start range m s e : Z) (rest : list UniValue) :
  validaterange (VNUM start :: VNUM range :: rest) m = inr (s, e) ->
  is_int start /\ is_int range /\ start <= Height chain /\ 1 <= range
  /\ e = wrap32 (wrap32 (start + range) - 1) /\ e <= Height chain
  /\ s = (if (start <? m) && (m <=? e) then m else start).
Proof.
  unfold validaterange. rewrite !size_cons. pose proof (size_nonneg rest).
  destruct (Z.ltb_spec (size rest + 1 + 1) 2); [lia|].
  cbn [at_ nth]. unfold get_int.
  destruct (is_intb start) eqn:Es; [|discriminate].
  destruct (start >? Height chain) eqn:E1; [discriminate|].
  destruct (is_intb range) eqn:Er; [|discriminate].
  destruct (Z.ltb_spec range 1); [discriminate|]. cbv zeta.
  destruct (wrap32 (wrap32 (start + range) - 1) >? Height chain) eqn:E2;
    [discriminate|].
  intros H'. inversion H'; subst. clear H'.
  rewrite Z.gtb_ltb, Z.ltb_ge in E1. rewrite Z.gtb_ltb, Z.ltb_ge in E2.
  apply is_intb_true in Es. apply is_intb_true in Er.
  repeat (split; [assumption || reflexivity || lia|]). reflexivity.
Qed.

(** X11. Whatever [validaterange] accepts is a range of at least one block
    that ends at [start + range - 1], not above the best height: the start it
    returns is the requested one or [minHeightStart], it is never below
    the requested start nor above the end, and it is at least
    [minHeightStart] when the end is. *)
Theorem validaterange_result (start range m s e : Z) (rest : list UniValue) :
  is_int (start + range - 1) ->
  validaterange (VNUM start :: VNUM range :: rest) m = inr (s, e) ->
  1 <= range /\ e = start + range - 1 /\ e <= Height chain
  /\ start <= s <= e /\ (s = start \/ s = m) /\ (m <= e -> m <= s).
Proof.
  intros Hno H. apply validaterange_inv in H.
  destruct H as (_ & _ & _ & H1 & He & Hb & Hs).
  rewrite range_end_exact in He by exact Hno. subst e.
  destruct (Z.ltb_spec start m);
    destruct (Z.leb_spec m (start + range - 1)); cbn [andb] in Hs; lia.
Qed.

(** *** The log of reads only grows *)

Lemma appends_ret {A} P (a : A) : appends P (ret a).
Proof.
  intros log r log' H. inversion H; subst. exists []. split.
  - now rewrite app_nil_r.
  - constructor.
Qed.

Lemma appends_throw {A} P e : appends P (@throw A e).
Proof.
  intros log r log' H. inversion H; subst. exists []. split.
  - now rewrite app_nil_r.
  - constructor.
Qed.

Lemma appends_undefined {A} P : appends P (@undefined A).
Proof.
  intros log r log' H. inversion H; subst. exists []. split.
  - now rewrite app_nil_r.
  - constructor.
Qed.

Lemma appends_out_of_fuel {A} P : appends P (@out_of_fuel A).
Proof.
  intros log r log' H. inversion H; subst. exists []. split.
  - now rewrite app_nil_r.
  - constructor.
Qed.

Lemma appends_io (P : IOEvent -> Prop) ev : P ev -> appends P (io ev).
Proof.
  intros HP log r log' H. inversion H; subst. exists [ev]. split.
  - reflexivity.
  - now constructor.
Qed.

Lemma appends_bind {A B} P (m : M A) (k : A -> M B) :
  appends P m -> (forall a, appends P (k a)) -> appends P (bind m k).
Proof.
  intros Hm Hk log r log' H. unfold bind in H.
  destruct (m log) as [[a|e| |] l1] eqn:E;
    destruct (Hm _ _ _ E) as (l & -> & Hl).
  - destruct (Hk a _ _ _ H) as (l' & -> & Hl').
    exists (l ++ l'). split; [now rewrite app_assoc|].
    apply Forall_app. now split.
  - inversion H; subst. now exists l.
  - inversion H; subst. now exists l.
  - inversion H; subst. now exists l.
Qed.

Lemma appends_foldM {A B} P (f : A -> B -> M A) l :
  (forall a b, appends P (f a b)) -> forall a, appends P (foldM f l a).
Proof.
  intros Hf. induction l as [|b tl IH]; intros a; cbn [foldM].
  - apply appends_ret.
  - apply appends_bind; [apply Hf | exact IH].
Qed.

Lemma appends_weaken {A} (P Q : IOEvent -> Prop) (m : M A) :
  (forall ev, P ev -> Q ev) -> appends P m -> appends Q m.
Proof.
  intros HPQ Hm log r log' H. destruct (Hm _ _ _ H) as (l & -> & Hl).
  exists l. split; [reflexivity|]. eapply Forall_impl; eauto.
Qed.

Lemma vin_step_appends f st txin : appends is_tx_read (vin_step f st txin).
Proof.
  destruct st as [v tot]. unfold vin_step.
  destruct (IsZerocoinSpend txin).
  { destruct (negb f); apply appends_ret. }
  destruct (IsZerocoinPublicSpend txin).
  { destruct (negb f); apply appends_ret. }
  apply appends_bind; [apply appends_io; exact I|]. intros _.
  destruct (GetTransaction _) as [txPrev|]; [|apply appends_throw].
  destruct (nth_error _ _); [apply appends_ret | apply appends_undefined].
Qed.

Lemma tx_step_appends f st tx : appends is_tx_read (tx_step f st tx).
Proof.
  destruct st as [[vi vo] tot]. unfold tx_step.
  destruct (IsCoinBase tx || _); [apply appends_ret|].
  apply appends_bind.
  - apply appends_foldM. intros a b. apply vin_step_appends.
  - intros [vi' tot']. cbv zeta.
    destruct (HasZerocoinSpendInputs tx); [apply appends_ret|].
    destruct (negb (HasZerocoinMintOutputs tx)); apply appends_ret.
Qed.

Lemma block_step_appends f block tot :
  appends is_tx_read (block_step f block tot).
Proof.
  unfold block_step. cbv zeta. apply appends_bind.
  - apply appends_foldM. intros a b. apply tx_step_appends.
  - intros [[vi vo] tot']. apply appends_ret.
Qed.

Lemma blocks_loop_appends fuel : forall f e pindex tot,
  appends (fun _ => True) (blocks_loop fuel f e pindex tot).
Proof.
  induction fuel as [|fuel IH]; intros f e pindex tot; cbn [blocks_loop].
  - apply appends_out_of_fuel.
  - destruct pindex as [p|]; [|apply appends_undefined].
    apply appends_bind; [apply appends_io; exact I|]. intros _.
    destruct (ReadBlockFromDisk p) as [block|]; [|apply appends_throw].
    apply appends_bind.
    + apply (appends_weaken is_tx_read); [trivial|].
      apply block_step_appends.
    + intros tot'. destruct (_ <? e); [apply IH | apply appends_ret].
Qed.

Lemma bind_Ok_inv {A B} (m : M A) (k : A -> M B) log b log' :
  bind m k log = (Ok b, log') ->
  exists a l1, m log = (Ok a, l1) /\ k a l1 = (Ok b, log').
Proof.
  unfold bind. destruct (m log) as [[a|e| |] l1]; try discriminate.
  intros H. now exists a, l1.
Qed.

(** The first read of the loop is the block it starts from. *)
Lemma blocks_loop_first fuel f e p tot log t log' :
  blocks_loop fuel f e (Some p) tot log = (Ok t, log') ->
  exists block reads,
    ReadBlockFromDisk p = Some block /\ log' = log ++ ReadBlock p :: reads.
Proof.
  destruct fuel as [|fuel]; cbn [blocks_loop]; [discriminate|].
  intros H. apply bind_Ok_inv in H. destruct H as (u & l1 & Hio & H).
  inversion Hio; subst l1. clear Hio.
  destruct (ReadBlockFromDisk p) as [block|] eqn:Eb; [|discriminate].
  assert (Ha : appends (fun _ => True)
                 (tot' <- block_step f block tot ;;
                  if nHeight (deref chain p) <? e
                  then blocks_loop fuel f e (Next chain p) tot'
                  else ret tot')).
  { apply appends_bind.
    - apply (appends_weaken is_tx_read); [trivial|].
      apply block_step_appends.
    - intros tot'. destruct (_ <? e);
        [apply blocks_loop_appends | apply appends_ret]. }
  destruct (Ha _ _ _ H) as (l & -> & _).
  exists block, l. split; [reflexivity|]. now rewrite <- app_assoc.
Qed.

(** *** getblockindexstats: what a call that returns has done *)

Lemma at_height_bounds h p :
  at_height chain h = Some p -> 0 <= h <= Height chain.
Proof.
  unfold at_height, Height.
  destruct (Z.ltb_spec h 0); [discriminate|].
  destruct (Z.leb_spec (Z.of_nat (List.length (vChain chain))) h);
    [discriminate|].
  intros _. lia.
Qed.

Lemma validaterange_end params m s e :
  validaterange params m = inr (s, e) -> e <= Height chain.
Proof.
  unfold validaterange. destruct (size params <? 2); [discriminate|].
  destruct (get_int (at_ params 0)) as [?|start]; [discriminate|].
  destruct (start >? Height chain); [discriminate|].
  destruct (get_int (at_ params 1)) as [?|range]; [discriminate|].
  destruct (range <? 1); [discriminate|]. cbv zeta.
  destruct (_ >? Height chain) eqn:E; [discriminate|].
  intros H. inversion H; subst. rewrite Z.gtb_ltb, Z.ltb_ge in E. exact E.
Qed.

Lemma getblockindexstats_Ok_inv fuel request log r log' :
  getblockindexstats fuel request log = (Ok r, log') ->
  exists s e fFeeOnly pindex block reads,
    fHelp request = false
    /\ validaterange (params request) 1 = inr (s, e)
    /\ (if 2 <? size (params request)
        then get_bool (at_ (params request) 2) = inr fFeeOnly
        else fFeeOnly = false)
    /\ Starting_block r = s /\ Ending_block r = e
    /\ (fFeeOnly = true -> spendcount r = None /\ publicspendcount r = None)
    /\ at_height chain s = Some pindex
    /\ ReadBlockFromDisk pindex = Some block
    /\ log' = log ++ ReadBlock pindex :: reads.
Proof.
  unfold getblockindexstats.
  destruct (fHelp request) eqn:Eh; [discriminate|]. cbn [orb].
  destruct (_ || _); [discriminate|].
  intros H. apply bind_Ok_inv in H. destruct H as ([s e] & l1 & Hv & H).
  destruct (validaterange (params request) 1) as [?|[s' e']] eqn:Ev;
    [discriminate|].
  inversion Hv; subst s' e' l1. clear Hv. cbv zeta in H.
  apply bind_Ok_inv in H. destruct H as (f & l1 & Hf & H).
  assert (Hflag : (if 2 <? size (params request)
                   then get_bool (at_ (params request) 2) = inr f
                   else f = false) /\ l1 = log).
  { destruct (2 <? size (params request)).
    - destruct (get_bool _) as [?|b]; [discriminate|].
      inversion Hf; subst. now split.
    - inversion Hf; subst. now split. }
  destruct Hflag as [Hflag ->]. clear Hf.
  destruct (at_height chain s) as [pindex|] eqn:Ep; [|discriminate].
  apply bind_Ok_inv in H. destruct H as (tot & l1 & Hl & H).
  inversion H; subst r log'. clear H.
  destruct (blocks_loop_first _ _ _ _ _ _ _ _ Hl) as (block & reads & Eb & ->).
  exists s, e, f, pindex, block, reads. cbn [Starting_block Ending_block
    spendcount publicspendcount].
  split; [reflexivity|]. split; [first [exact Ev | reflexivity]|].
  split; [exact Hflag|]. split; [reflexivity|]. split; [reflexivity|].
  split; [intros ->; split; reflexivity|].
  split; [first [exact Ep | reflexivity]|].
  split; [exact Eb | reflexivity].
Qed.

(** X12. A call of [getblockindexstats] that returns reports a start
    height that is on the active chain and an end height that is not
    above its tip, and has read from storage, before anything else, the
    block of the active chain at the start height. *)
Theorem getblockindexstats_reported_range (fuel : nat)
    (request : JSONRPCRequest) (log log' : list IOEvent)
    (r : BlockIndexStats) :
  getblockindexstats fuel request log = (Ok r, log') ->
  0 <= Starting_block r <= Height chain
  /\ Ending_block r <= Height chain
  /\ exists pindex reads,
       at_height chain (Starting_block r) = Some pindex
       /\ log' = log ++ ReadBlock pindex :: reads.
Proof.
  intros H. apply getblockindexstats_Ok_inv in H.
  destruct H as (s & e & f & pindex & block & reads & _ & Hv & _ & <- & <-
                 & _ & Hp & _ & ->).
  split; [exact (at_height_bounds _ _ Hp)|].
  split; [exact (validaterange_end _ _ _ _ Hv)|].
  now exists pindex, reads.
Qed.

(** *** getblockindexstats in two steps *)

Lemma getblockindexstats_unfold fuel start range fFeeOnly log :
  getblockindexstats fuel (range_request start range fFeeOnly) log
  = match validaterange [VNUM start; VNUM range] 1 with
    | inl e => (Throw e, log)
    | inr (s, e) => scan_range fuel (fee_only_flag fFeeOnly) s e log
    end.
Proof.
  unfold getblockindexstats, range_request. cbn [fHelp params orb].
  rewrite params_in_bounds by (destruct fFeeOnly; simpl; lia).
  rewrite validaterange_rest.
  destruct (validaterange [VNUM start; VNUM range] 1) as [e|[s e]];
    [reflexivity|].
  erewrite bind_Ok by reflexivity. cbv beta iota.
  destruct fFeeOnly as [b|]; (erewrite bind_Ok by reflexivity); reflexivity.
Qed.

Lemma getblockindexstats_run fuel start range fFeeOnly log :
  is_int start -> is_int range -> is_int (Height chain) ->
  1 <= range -> start + range - 1 <= Height chain ->
  getblockindexstats fuel (range_request start range fFeeOnly) log
  = scan_range fuel (fee_only_flag fFeeOnly)
      (if (start <? 1) && (1 <=? start + range - 1) then 1 else start)
      (start + range - 1) log.
Proof.
  intros Hs Hr Hb H1 He. rewrite getblockindexstats_unfold.
  now rewrite validaterange_accepts.
Qed.

(** X13. A range of at least one block that starts below height 0 and
    ends below height 1 passes [validaterange]; [getblockindexstats]
    turns it down with [RPC_INVALID_PARAMETER], "invalid block height",
    when it finds no block at the start height, and has read nothing. *)
Theorem range_below_chain_rejected (fuel : nat) (start range : Z)
    (fFeeOnly : option bool) (log : list IOEvent) :
  is_int start -> is_int range -> is_int (Height chain) ->
  0 <= Height chain -> 1 <= range -> start < 0 -> start + range - 1 < 1 ->
  validaterange [VNUM start; VNUM range] 1 = inr (start, start + range - 1)
  /\ getblockindexstats fuel (range_request start range fFeeOnly) log
     = (Throw (JSONRPCError RPC_INVALID_PARAMETER "invalid block height"),
        log).
Proof.
  intros Hs Hr Hb Hne H1 Hneg He.
  assert (Hst : (if (start <? 1) && (1 <=? start + range - 1)
                 then 1 else start) = start).
  { destruct (Z.leb_spec 1 (start + range - 1)); [lia|].
    now rewrite andb_false_r. }
  split.
  - rewrite validaterange_accepts by (trivial; lia). now rewrite Hst.
  - rewrite getblockindexstats_run by (trivial; lia). rewrite Hst.
    unfold scan_range, at_height. cbv zeta.
    destruct (Z.ltb_spec start 0); [reflexivity | lia].
Qed.

(** X14. When the block at the start height cannot be read from disk,
    [getblockindexstats] throws [RPC_DATABASE_ERROR], "failed to read
    block from disk", after that one read. *)
Theorem unreadable_start_block (fuel : nat) (start range : Z)
    (fFeeOnly : option bool) (pindex : ptr) (log : list IOEvent) :
  is_int start -> is_int range -> is_int (Height chain) ->
  1 <= range -> 1 <= start -> start + range - 1 <= Height chain ->
  at_height chain start = Some pindex ->
  ReadBlockFromDisk pindex = None ->
  getblockindexstats (S fuel) (range_request start range fFeeOnly) log
  = (Throw (JSONRPCError RPC_DATABASE_ERROR "failed to read block from disk"),
     log ++ [ReadBlock pindex]).
Proof.
  intros Hs Hr Hb H1 Hst He Hat Hread.
  rewrite getblockindexstats_run by trivial.
  destruct (Z.ltb_spec start 1); [lia|]. cbn [andb].
  unfold scan_range. cbv zeta. rewrite Hat. cbn [blocks_loop].
  unfold bind at 1. unfold bind at 1. cbn [io]. rewrite Hread. reflexivity.
Qed.

(** *** The fee-only flag *)

Lemma alike_ret {A} (R : A -> A -> Prop) a a' log :
  R a a' -> alike R (ret a log) (ret a' log).
Proof. intros H. split; [reflexivity | exact H]. Qed.

Lemma alike_bind {A B} (R : A -> A -> Prop) (S : B -> B -> Prop)
    (m m' : M A) (k k' : A -> M B) log :
  alike R (m log) (m' log) ->
  (forall a a' l, R a a' -> alike S (k a l) (k' a' l)) ->
  alike S (bind m k log) (bind m' k' log).
Proof.
  unfold alike at 1, bind.
  destruct (m log) as [[a|e| |] l1], (m' log) as [[a'|e'| |] l1'];
    cbn [fst snd]; intros [El H] Hk; try contradiction; subst.
  - now apply Hk.
  - now split.
  - now split.
  - now split.
Qed.

Lemma alike_foldM {A B} (R : A -> A -> Prop) (f f' : A -> B -> M A) l :
  (forall a a' b log, R a a' -> alike R (f a b log) (f' a' b log)) ->
  forall a a' log, R a a' ->
                   alike R (foldM f l a log) (foldM f' l a' log).
Proof.
  intros Hf. induction l as [|b tl IH]; intros a a' log HR; cbn [foldM].
  - now apply alike_ret.
  - apply (alike_bind R R); [now apply Hf|].
    intros x x' l Hx. now apply IH.
Qed.

Lemma alike_map_Ok {A} (f : A -> A) (x y : Res A * list IOEvent) :
  alike (fun a b => b = f a) x y -> y = map_Ok f x.
Proof.
  unfold alike, map_Ok.
  destruct x as [[a|e| |] l], y as [[a'|e'| |] l']; cbn [fst snd];
    intros [-> H]; try contradiction; congruence.
Qed.

Lemma vin_step_fee_only v tot tot' txin log :
  same_sums tot tot' ->
  alike (fun st st' => fst st = fst st' /\ same_sums (snd st) (snd st'))
        (vin_step false (v, tot) txin log) (vin_step true (v, tot') txin log).
Proof.
  intros Hs. unfold vin_step. cbn [negb].
  destruct (IsZerocoinSpend txin).
  { apply alike_ret. split; [reflexivity | exact Hs]. }
  destruct (IsZerocoinPublicSpend txin).
  { apply alike_ret. split; [reflexivity | exact Hs]. }
  unfold bind, io.
  destruct (GetTransaction _) as [txPrev|]; [|now split].
  destruct (nth_error _ _) as [o|]; [|now split].
  apply alike_ret. split; [reflexivity | exact Hs].
Qed.

Lemma tx_step_fee_only vi vo tot tot' tx log :
  same_sums tot tot' ->
  alike (fun st st' => fst st = fst st' /\ same_sums (snd st) (snd st'))
        (tx_step false (vi, vo, tot) tx log)
        (tx_step true (vi, vo, tot') tx log).
Proof.
  intros Hs. unfold tx_step.
  destruct (IsCoinBase tx || _).
  { apply alike_ret. split; [reflexivity | exact Hs]. }
  apply (alike_bind
           (fun st st' => fst st = fst st' /\ same_sums (snd st) (snd st'))).
  - apply alike_foldM; [|split; [reflexivity | exact Hs]].
    intros [a t] [a' t'] b l [Ea Ht]. cbn [fst snd] in Ea, Ht. subst a'.
    now apply vin_step_fee_only.
  - intros [a t] [a' t'] l [Ea Ht]. cbn [fst snd] in Ea, Ht. subst a'.
    cbv zeta. destruct Ht as (F1 & F2 & F3 & F4 & F5).
    destruct (HasZerocoinSpendInputs tx).
    { apply alike_ret. split; [reflexivity | repeat split; assumption]. }
    destruct (negb (HasZerocoinMintOutputs tx)); apply alike_ret;
      (split; [reflexivity|]); unfold same_sums;
      cbn [snd nFees nFees_all nBytes nTxCount nTxCount_all];
      rewrite ?F1, ?F2, ?F3, ?F4, ?F5; repeat split.
Qed.

Lemma block_step_fee_only block tot tot' log :
  same_sums tot tot' ->
  alike same_sums (block_step false block tot log)
                  (block_step true block tot' log).
Proof.
  intros (F1 & F2 & F3 & F4 & F5). unfold block_step. cbv zeta.
  apply (alike_bind
           (fun st st' => fst st = fst st' /\ same_sums (snd st) (snd st'))).
  - apply alike_foldM.
    + intros [[a b] t] [[a' b'] t'] tx l [Ea Ht]. cbn [fst snd] in Ea, Ht.
      inversion Ea; subst a' b'. now apply tx_step_fee_only.
    + split; [reflexivity|]. unfold same_sums.
      cbn [snd nFees nFees_all nBytes nTxCount nTxCount_all].
      rewrite ?F1, ?F2, ?F3, ?F4, ?F5. repeat split.
  - intros [[a b] t] [[a' b'] t'] l [_ Ht]. now apply alike_ret.
Qed.

Lemma blocks_loop_fee_only fuel : forall e pindex tot tot' log,
  same_sums tot tot' ->
  alike same_sums (blocks_loop fuel false e pindex tot log)
                  (blocks_loop fuel true e pindex tot' log).
Proof.
  induction fuel as [|fuel IH]; intros e pindex tot tot' log Hs;
    cbn [blocks_loop]; [now split|].
  destruct pindex as [p|]; [|now split].
  unfold bind at 1 3. cbn [io].
  destruct (ReadBlockFromDisk p) as [block|]; [|now split].
  apply (alike_bind same_sums); [now apply block_step_fee_only|].
  intros t t' l Ht. destruct (_ <? e); [now apply IH | now apply alike_ret].
Qed.

Lemma scan_range_fee_only fuel s e log :
  scan_range fuel true s e log
  = map_Ok without_tables (scan_range fuel false s e log).
Proof.
  apply alike_map_Ok. unfold scan_range. cbv zeta.
  destruct (at_height chain s) as [pindex|]; [|now split].
  apply (alike_bind same_sums).
  - apply blocks_loop_fee_only, same_sums_refl.
  - intros t t' l (F1 & F2 & F3 & F4 & F5). apply alike_ret.
    unfold without_tables. cbn. now rewrite F1, F2, F3, F4, F5.
Qed.

(** X15. The flag [fFeeOnly] changes nothing but the two spend tables:
    a fee-only request ends as the same request without the flag does,
    after the same reads, and what it returns is the result of the other
    with [spendcount] and [publicspendcount] left out. A request without
    the third parameter runs as one with [false]. *)
Theorem fee_only_leaves_out_tables (fuel : nat) (start range : Z)
    (log : list IOEvent) :
  getblockindexstats fuel (range_request start range (Some true)) log
  = map_Ok without_tables
      (getblockindexstats fuel (range_request start range (Some false)) log)
  /\ getblockindexstats fuel (range_request start range None) log
     = getblockindexstats fuel (range_request start range (Some false)) log.
Proof.
  rewrite !getblockindexstats_unfold. cbn [fee_only_flag].
  split; [|reflexivity].
  destruct (validaterange [VNUM start; VNUM range] 1) as [e|[s e]];
    [reflexivity|].
  apply scan_range_fee_only.
Qed.

(** *** getfeeinfo: the blocks it covers *)

Lemma Height_lower : -1 <= Height chain.
Proof. unfold Height. lia. Qed.

(** X16. A call of [getfeeinfo] that returns was asked for [n] blocks
    with [1 <= n < Height]; it reports the [n] blocks below the tip, from
    height [Height - n] to [Height - 1], the tip itself not being one of
    them, and no spend table. *)
Theorem getfeeinfo_reported_range (fuel : nat) (request : JSONRPCRequest)
    (log log' : list IOEvent) (r : BlockIndexStats) :
  is_int (Height chain) ->
  getfeeinfo fuel request log = (Ok r, log') ->
  exists n,
    params request = [VNUM n] /\ 1 <= n < Height chain
    /\ Starting_block r = Height chain - n
    /\ Ending_block r = Height chain - 1
    /\ spendcount r = None /\ publicspendcount r = None.
Proof.
  intros Hb H. pose proof Height_lower as Hlow. unfold getfeeinfo in H.
  destruct (fHelp request); [discriminate|]. cbn [orb] in H.
  destruct (Z.eqb_spec (size (params request)) 1) as [Es|]; [|discriminate].
  cbn [negb] in H.
  destruct (params request) as [|v [|w rest]];
    [discriminate | | unfold size in Es; simpl List.length in Es; lia].
  cbn [at_ nth] in H.
  apply bind_Ok_inv in H. destruct H as (n & l1 & Hn & H).
  destruct (get_int v) as [?|n'] eqn:Eg; [discriminate|].
  inversion Hn; subst n' l1. clear Hn.
  apply get_int_inv in Eg. destruct Eg as [-> Hi]. cbv zeta in H.
  destruct (Z.ltb_spec n 0); [discriminate|]. cbn [orb] in H.
  rewrite wrap32_id in H by (unfold is_int in *; lia).
  destruct (Z.leb_spec (Height chain - n) 0); [discriminate|].
  apply getblockindexstats_Ok_inv in H.
  destruct H as (s & e & f & pindex & block & reads & _ & Hv & Hf & <- & <-
                 & Ht & _).
  cbn [params] in Hv, Hf.
  change (2 <? size [VNUM (Height chain - n); VNUM n; VBOOL true])
    with true in Hf.
  cbn [at_ nth get_bool] in Hf. inversion Hf; subst f.
  destruct (Ht eq_refl) as [T1 T2].
  apply validaterange_inv in Hv.
  destruct Hv as (_ & _ & _ & Hr1 & He & _ & Hs).
  rewrite range_end_exact in He by (unfold is_int in *; lia).
  destruct (Z.ltb_spec (Height chain - n) 1); [lia|]. cbn [andb] in Hs.
  exists n. repeat split; trivial; lia.
Qed.

Lemma getfeeinfo_unfold fuel n log :
  is_int n -> is_int (Height chain) ->
  getfeeinfo fuel (mkRequest false [VNUM n]) log
  = if (n <? 0) || (Height chain - n <=? 0)
    then (Throw (JSONRPCError RPC_INVALID_PARAMETER "invalid start height"),
          log)
    else getblockindexstats fuel
           (range_request (Height chain - n) n (Some true)) log.
Proof.
  intros Hn Hb. pose proof Height_lower as Hlow. unfold getfeeinfo.
  cbn [fHelp params orb at_ nth].
  change (size [VNUM n] =? 1) with true. cbn [negb].
  rewrite (get_int_VNUM n Hn). unfold lift, bind, ret.
  destruct (Z.ltb_spec n 0); [reflexivity|]. cbn [orb].
  rewrite wrap32_id by (unfold is_int in *; lia).
  destruct (Z.leb_spec (Height chain - n) 0); reflexivity.
Qed.

(** X17. [getfeeinfo n] for an [n] that is not from 1 to [Height - 1] is
    turned down with [RPC_INVALID_PARAMETER] and reads nothing from
    storage: by [getfeeinfo] itself, "invalid start height", for a
    negative [n] or one that reaches height 0, and by [validaterange],
    for its range, when [n] is 0. *)
Theorem getfeeinfo_turned_down (fuel : nat) (n : Z) (log : list IOEvent) :
  is_int n -> is_int (Height chain) ->
  ~ (1 <= n < Height chain) ->
  getfeeinfo fuel (mkRequest false [VNUM n]) log
  = (Throw (JSONRPCError RPC_INVALID_PARAMETER
              (if (n <? 0) || (Height chain - n <=? 0)
               then "invalid start height"
               else "Invalid block range. Must be strictly positive.")),
     log).
Proof.
  intros Hn Hb Hout. rewrite (getfeeinfo_unfold fuel n log Hn Hb).
  destruct (Z.ltb_spec n 0); [reflexivity|]. cbn [orb].
  destruct (Z.leb_spec (Height chain - n) 0); [reflexivity|].
  assert (n = 0) by lia. subst n.
  rewrite getblockindexstats_unfold. unfold validaterange.
  change (size [VNUM (Height chain - 0); VNUM 0] <? 2) with false.
  cbv iota. cbn [at_ nth].
  assert (Hi : is_int (Height chain - 0)) by (unfold is_int in *; lia).
  rewrite (get_int_VNUM _ Hi), Z.gtb_ltb.
  destruct (Z.ltb_spec (Height chain) (Height chain - 0)); [lia|].
  reflexivity.
Qed.

(** *** The blocks a call reads *)

Lemma skipn_nth_error {A} (l : list A) : forall n x,
  nth_error l n = Some x -> skipn n l = x :: skipn (S n) l.
Proof.
  induction l as [|y tl IH]; intros [|n] x H; simpl in H; try discriminate.
  - now inversion H.
  - change (skipn (S n) (y :: tl)) with (skipn n tl).
    change (skipn (S (S n)) (y :: tl)) with (skipn (S n) tl).
    now apply IH.
Qed.

Lemma chain_range_cons h e p :
  at_height chain h = Some p -> h <= e ->
  chain_range chain h e = p :: chain_range chain (h + 1) e.
Proof.
  unfold at_height, chain_range.
  destruct (Z.ltb_spec h 0); [discriminate|].
  destruct (Z.leb_spec (Z.of_nat (List.length (vChain chain))) h);
    [discriminate|].
  cbn [orb]. intros Hn He.
  rewrite (skipn_nth_error _ _ _ Hn).
  replace (Z.to_nat (e - h + 1)) with (S (Z.to_nat (e - (h + 1) + 1)))
    by lia.
  replace (Z.to_nat (h + 1)) with (S (Z.to_nat h)) by lia.
  reflexivity.
Qed.

Lemma chain_range_empty e : chain_range chain (e + 1) e = [].
Proof.
  unfold chain_range. now replace (Z.to_nat (e - (e + 1) + 1)) with O by lia.
Qed.

Lemma chain_range_length s e :
  0 <= s -> e <= Height chain ->
  List.length (chain_range chain s e) = Z.to_nat (e - s + 1).
Proof.
  unfold chain_range, Height. intros Hs He.
  rewrite length_firstn, length_skipn. lia.
Qed.

Lemma block_reads_app l l' :
  block_reads (l ++ l') = block_reads l ++ block_reads l'.
Proof. apply flat_map_app. Qed.

Lemma block_reads_tx l : Forall is_tx_read l -> block_reads l = [].
Proof.
  induction 1 as [|ev tl Hev _ IH]; [reflexivity|].
  destruct ev; [contradiction | exact IH].
Qed.

Lemma Contains_at_height h p :
  heights_match chain -> at_height chain h = Some p ->
  Contains chain p = true.
Proof.
  intros Hm Hp. unfold Contains. rewrite (Hm h p Hp), Hp.
  apply Z.eqb_refl.
Qed.

Lemma blocks_loop_reads fuel : forall f e p tot log t log' h,
  heights_match chain -> at_height chain h = Some p -> h <= e ->
  blocks_loop fuel f e (Some p) tot log = (Ok t, log') ->
  exists l,
    log' = log ++ l
    /\ block_reads l = chain_range chain h e
    /\ Forall (fun q => ReadBlockFromDisk q <> None) (chain_range chain h e).
Proof.
  induction fuel as [|fuel IH]; intros f e p tot log t log' h Hm Hp He H;
    cbn [blocks_loop] in H; [discriminate|].
  apply bind_Ok_inv in H. destruct H as (u & l0 & Hio & H).
  inversion Hio; subst l0. clear Hio.
  destruct (ReadBlockFromDisk p) as [block|] eqn:Eb; [|discriminate].
  apply bind_Ok_inv in H. destruct H as (tot' & l1 & Hstep & H).
  destruct (block_step_appends _ _ _ _ _ _ Hstep) as (lt & -> & Htx).
  rewrite (Hm h p Hp) in H.
  rewrite (chain_range_cons h e p Hp He).
  destruct (Z.ltb_spec h e) as [Hlt|Hge].
  - unfold Next in H. rewrite (Contains_at_height h p Hm Hp) in H.
    rewrite (Hm h p Hp) in H.
    destruct (at_height chain (h + 1)) as [p'|] eqn:Ep'.
    + destruct (IH f e p' tot' _ t log' (h + 1) Hm Ep' ltac:(lia) H)
        as (l2 & -> & Hr & Hall).
      exists (ReadBlock p :: lt ++ l2). split; [|split].
      * rewrite <- !app_assoc. reflexivity.
      * change (ReadBlock p :: lt ++ l2) with ([ReadBlock p] ++ lt ++ l2).
        rewrite !block_reads_app, (block_reads_tx lt Htx), Hr. reflexivity.
      * constructor; [congruence | exact Hall].
    + destruct fuel; discriminate.
  - inversion H; subst. assert (h = e) by lia. subst h.
    rewrite chain_range_empty.
    exists (ReadBlock p :: lt). split; [|split].
    + rewrite <- app_assoc. reflexivity.
    + change (ReadBlock p :: lt) with ([ReadBlock p] ++ lt).
      rewrite block_reads_app, (block_reads_tx lt Htx). reflexivity.
    + constructor; [congruence | constructor].
Qed.

(** X18. On a chain whose blocks record their own heights, a call of
    [getblockindexstats] that returns has read the blocks of the active
    chain from the start height to the end height that it reports, each
    of them once and in ascending order, and no other block; there are
    [Ending_block - Starting_block + 1] of them, and each could be read
    from disk. *)
Theorem blocks_read_in_order (fuel : nat) (start range : Z)
    (fFeeOnly : option bool) (log log' : list IOEvent)
    (r : BlockIndexStats) :
  heights_match chain ->
  is_int (start + range - 1) ->
  getblockindexstats fuel (range_request start range fFeeOnly) log
  = (Ok r, log') ->
  exists l,
    log' = log ++ l
    /\ block_reads l = chain_range chain (Starting_block r) (Ending_block r)
    /\ List.length (block_reads l)
       = Z.to_nat (Ending_block r - Starting_block r + 1)
    /\ Forall (fun q => ReadBlockFromDisk q <> None) (block_reads l).
Proof.
  intros Hm Hno H. rewrite getblockindexstats_unfold in H.
  destruct (validaterange [VNUM start; VNUM range] 1) as [?|[s e]] eqn:Ev;
    [discriminate|].
  apply validaterange_inv in Ev.
  destruct Ev as (_ & _ & _ & Hr1 & Hend & He & Hs).
  rewrite range_end_exact in Hend by exact Hno.
  assert (Hse : s <= e).
  { destruct (Z.ltb_spec start 1); destruct (Z.leb_spec 1 e);
      cbn [andb] in Hs; lia. }
  unfold scan_range in H. cbv zeta in H.
  destruct (at_height chain s) as [pindex|] eqn:Ep; [|discriminate].
  apply bind_Ok_inv in H. destruct H as (tot & l1 & Hl & H).
  inversion H; subst r log'. clear H. cbn [Starting_block Ending_block].
  destruct (blocks_loop_reads _ _ _ _ _ _ _ _ s Hm Ep Hse Hl)
    as (l & -> & Hr & Hall).
  exists l. rewrite Hr. split; [reflexivity|]. split; [reflexivity|].
  split; [|exact Hall].
  apply chain_range_length; [|exact He].
  exact (proj1 (at_height_bounds _ _ Ep)).
Qed.

End Facts.

Lemma validaterange_result_witness :
  1 <= 3 /\ 2 = 0 + 3 - 1 /\ 2 <= Height (@chain demo_node)
  /\ 0 <= 1 <= 2 /\ (1 = 0 \/ 1 = 1) /\ (1 <= 2 -> 1 <= 1).
Proof.
  apply (@validaterange_result demo_node 0 3 1 1 2 []);
    [apply is_intb_true; reflexivity | reflexivity].
Defined.

(** Blocks 102 and 103 of the example node. *)
Lemma getblockindexstats_reported_range_witness :
  exists r log',
    @getblockindexstats demo_node 5 (range_request 2 2 None) [] = (Ok r, log')
    /\ 0 <= Starting_block r <= Height (@chain demo_node)
    /\ Ending_block r <= Height (@chain demo_node)
    /\ exists pindex reads,
         at_height (@chain demo_node) (Starting_block r) = Some pindex
         /\ log' = [] ++ ReadBlock pindex :: reads.
Proof.
  do 2 eexists. split; [vm_compute; reflexivity|].
  match goal with
  | |- _ <= Starting_block ?r <= _ /\ _ /\ (exists _ _, _ /\ ?l = _) =>
      apply (@getblockindexstats_reported_range demo_node 5
               (range_request 2 2 None) [] l r)
  end.
  vm_compute. reflexivity.
Defined.

(** The two heights below the chain of the example node. *)
Lemma range_below_chain_rejected_witness :
  @validaterange demo_node [VNUM (-2); VNUM 2] 1 = inr (-2, -2 + 2 - 1)
  /\ @getblockindexstats demo_node 5 (range_request (-2) 2 None) []
     = (Throw (JSONRPCError RPC_INVALID_PARAMETER "invalid block height"),
        []).
Proof.
  apply (@range_below_chain_rejected demo_node 5 (-2) 2 None []);
    try (apply is_intb_true; reflexivity); try lia;
    vm_compute; congruence.
Defined.

(** Blocks 102 and 103 of the node that has lost block 102. *)
Lemma unreadable_start_block_witness :
  @getblockindexstats pruned_node 3 (range_request 2 2 None) []
  = (Throw (JSONRPCError RPC_DATABASE_ERROR "failed to read block from disk"),
     [] ++ [ReadBlock 102]).
Proof.
  apply (@unreadable_start_block pruned_node 2 2 2 None 102 []);
    try (apply is_intb_true; reflexivity); try lia;
    try reflexivity; vm_compute; congruence.
Defined.

(** The last 2 blocks below the tip of the example node. *)
Lemma getfeeinfo_reported_range_witness :
  exists r log',
    @getfeeinfo demo_node 5 (mkRequest false [VNUM 2]) [] = (Ok r, log')
    /\ exists n,
         [VNUM 2] = [VNUM n] /\ 1 <= n < Height (@chain demo_node)
         /\ Starting_block r = Height (@chain demo_node) - n
         /\ Ending_block r = Height (@chain demo_node) - 1
         /\ spendcount r = None /\ publicspendcount r = None.
Proof.
  do 2 eexists. split; [vm_compute; reflexivity|].
  match goal with
  | |- exists n, _ /\ _ /\ Starting_block ?r = _ /\ _ =>
      apply (@getfeeinfo_reported_range demo_node 5
               (mkRequest false [VNUM 2]) []
               [ReadBlock 101; ReadBlock 102; ReadTx 11; ReadTx 12;
                ReadTx 12] r)
  end.
  - apply is_intb_true. reflexivity.
  - vm_compute. reflexivity.
Defined.

(** No block at all on the example node. *)
Lemma getfeeinfo_turned_down_witness :
  @getfeeinfo demo_node 5 (mkRequest false [VNUM 0]) []
  = (Throw (JSONRPCError RPC_INVALID_PARAMETER
              "Invalid block range. Must be strictly positive."), []).
Proof.
  apply (@getfeeinfo_turned_down demo_node 5 0 []);
    try (apply is_intb_true; reflexivity).
  intros [H _]. lia.
Defined.

Lemma demo_heights_match : heights_match (@chain demo_node).
Proof.
  intros h p. unfold at_height. cbn [chain demo_node].
  change (Z.of_nat (List.length (vChain demo_chain))) with 4.
  destruct (Z.ltb_spec h 0); [discriminate|].
  destruct (Z.leb_spec 4 h); [discriminate|]. cbn [orb].
  assert (Hh : h = 0 \/ h = 1 \/ h = 2 \/ h = 3) by lia.
  destruct Hh as [-> | [-> | [-> | ->]]]; intros Hp; inversion Hp;
    reflexivity.
Qed.

(** Blocks 102 and 103 of the example node, the reads of transactions
    between them. *)
Lemma blocks_read_in_order_witness :
  exists r log',
    @getblockindexstats demo_node 5 (range_request 2 2 None) [] = (Ok r, log')
    /\ exists l,
         log' = [] ++ l
         /\ block_reads l
            = chain_range (@chain demo_node) (Starting_block r)
                          (Ending_block r)
         /\ List.length (block_reads l)
            = Z.to_nat (Ending_block r - Starting_block r + 1)
         /\ Forall (fun q => @ReadBlockFromDisk demo_node q <> None)
                   (block_reads l).
Proof.
  do 2 eexists. split; [vm_compute; reflexivity|].
  match goal with
  | |- exists l, ?log' = _ /\ _ = chain_range _ (Starting_block ?r) _ /\ _ =>
      apply (@blocks_read_in_order demo_node 5 2 2 None [] log' r)
  end.
  - exact demo_heights_match.
  - apply is_intb_true. reflexivity.
  - vm_compute. reflexivity.
Defined.

End RangeStatsExtra.
